(** * Permissions syncer: a shallow embedding and its properties

    The development follows
    [enterprise/cmd/repo-updater/internal/authz/perms_syncer.go] (the
    scheduler, the executor and the two fetch routines) and the Perforce
    authorization provider's [FetchUserPerms].

    Conventions.
    - [int32] identifiers are integers of [Z]; [uint32 x] is the conversion
      the code applies before adding an identifier to a bitmap.
    - A [time.Time] is the number of nanoseconds elapsed since Go's zero
      time, so the zero value ("not set") is [0].  A [time.Duration] is a
      64-bit count of nanoseconds and [Time.Sub] saturates, as in Go.
    - A Go map is a [gmap], a roaring bitmap is a [gset Z].
    - Calls to collaborators (database stores, authorization providers, the
      rate limiter) run in the monad [M]: they read and update an abstract
      world and append to a log of calls. *)

From Stdlib Require Import ZArith List Bool Ascii String Lia.
From stdpp Require Import base option list gmap strings pretty.
Import ListNotations.

Local Open Scope string_scope.
Local Open Scope list_scope.
Local Open Scope Z_scope.

(* ===================================================================== *)
(** * Time *)
(* ===================================================================== *)

Module GoTime.

(** [time.Time]: nanoseconds since the zero time. *)
Definition Time : Type := Z.

(** [time.Duration]: an [int64] count of nanoseconds. *)
Definition Duration : Type := Z.

Definition zero : Time := 0.

Definition IsZero (t : Time) : bool := t =? 0.



End GoTime.

(* ===================================================================== *)
(** * The priority request queue *)
(* ===================================================================== *)

Inductive priority : Type :=
| priorityLow
| priorityHigh.

(** [requestType] is an integer type with two named values; any other value
    falls in the [default] branch of the switches over it. *)
Inductive requestType : Type :=
| requestTypeRepo
| requestTypeUser
| requestTypeUnknown (code : Z).

Record requestMeta : Type := mkRequestMeta {
  Priority : priority;
  Typ : requestType;
  ID : Z;
  NextSyncAt : GoTime.Time;
  NoPerms : bool
}.

(** A queue entry: the metadata and whether the executor holds it. *)
Record syncRequest : Type := mkSyncRequest {
  meta : requestMeta;
  acquired : bool
}.

(** The queue: its entries in the order they were first enqueued, and the
    capacity-one channel [notifyEnqueue] ([true] when a signal is pending). *)
Record requestQueue : Type := mkRequestQueue {
  heap : list syncRequest;
  notifyEnqueue : bool
}.

Definition newRequestQueue : requestQueue :=
  {| heap := []; notifyEnqueue := false |}.

Definition priority_eqb (a b : priority) : bool :=
  match a, b with
  | priorityLow, priorityLow | priorityHigh, priorityHigh => true
  | _, _ => false
  end.

Definition priority_ltb (a b : priority) : bool :=
  match a, b with
  | priorityLow, priorityHigh => true
  | _, _ => false
  end.

Definition priority_max (a b : priority) : priority :=
  if priority_ltb a b then b else a.

Definition requestType_eqb (a b : requestType) : bool :=
  match a, b with
  | requestTypeRepo, requestTypeRepo => true
  | requestTypeUser, requestTypeUser => true
  | requestTypeUnknown x, requestTypeUnknown y => x =? y
  | _, _ => false
  end.

(** The key of the queue's index: (entity type, entity id). *)
Definition requestQueueKey : Type := (requestType * Z)%type.

Definition keyOf (m : requestMeta) : requestQueueKey := (Typ m, ID m).

Definition key_eqb (a b : requestQueueKey) : bool :=
  requestType_eqb (fst a) (fst b) && (snd a =? snd b).

Definition hasKey (k : requestQueueKey) (r : syncRequest) : bool :=
  key_eqb (keyOf (meta r)) k.

(** The index lookup: the entry queued under a key, if any. *)
Definition lookupKey (k : requestQueueKey) (q : requestQueue) : option syncRequest :=
  find (hasKey k) (heap q).

(** The live entries of a key. *)
Definition entriesFor (k : requestQueueKey) (q : requestQueue) : list syncRequest :=
  List.filter (hasKey k) (heap q).

(** [earlier a b]: which of two requested times comes first, "not set"
    (the zero time) coming before any set time. *)
Definition timeBefore (a b : GoTime.Time) : bool :=
  if GoTime.IsZero a then negb (GoTime.IsZero b)
  else if GoTime.IsZero b then false
  else a <? b.

Definition earliest (a b : GoTime.Time) : GoTime.Time :=
  if timeBefore b a then b else a.

(** Modelled from the spec: [notify], the non-blocking send on a channel of
    capacity one (defined with the queue, outside the files modelled here).  A pending
    signal stays pending. *)
Definition notify (ch : bool) : bool := true.

(** The update of a queued entry by a later request for the same entity:
    the priority is raised when the new one is higher, and the earlier of
    the two times is kept, "not set" winning over any set time. *)
Definition mergeMeta (old new : requestMeta) : requestMeta :=
  {| Priority := priority_max (Priority old) (Priority new);
     Typ := Typ old;
     ID := ID old;
     NextSyncAt := earliest (NextSyncAt old) (NextSyncAt new);
     NoPerms := NoPerms old |}.

Definition metaChanged (old new : requestMeta) : bool :=
  negb (priority_eqb (Priority old) (Priority new)
        && (NextSyncAt old =? NextSyncAt new)).

Fixpoint updateEntry (k : requestQueueKey) (f : syncRequest -> syncRequest)
  (l : list syncRequest) : list syncRequest :=
  match l with
  | [] => []
  | r :: l' => if hasKey k r then f r :: l' else r :: updateEntry k f l'
  end.

(** Modelled from the spec: [requestQueue.enqueue] (defined with the queue, outside
    the files modelled here).  It inserts a new entry, or updates in place the
    entry already queued for the entity when the executor has not acquired
    it; the result tells whether an existing entry was modified. *)
Definition enqueue (m : requestMeta) (q : requestQueue) : bool * requestQueue :=
  match lookupKey (keyOf m) q with
  | None =>
      (false,
       {| heap := heap q ++ [ {| meta := m; acquired := false |} ];
          notifyEnqueue := notify (notifyEnqueue q) |})
  | Some r =>
      if acquired r then (false, q)
      else
        let m' := mergeMeta (meta r) m in
        if metaChanged (meta r) m' then
          (true,
           {| heap := updateEntry (keyOf m)
                        (fun r => {| meta := m'; acquired := acquired r |})
                        (heap q);
              notifyEnqueue := notify (notifyEnqueue q) |})
        else (false, q)
  end.





(** Modelled from the spec: [requestQueue.remove] (defined with the queue, outside
    the files modelled here): fully removes the entry of the entity; with
    [notifyWaiters] the executor is signalled. *)
Definition remove (typ : requestType) (id : Z) (notifyWaiters : bool)
  (q : requestQueue) : requestQueue :=
  {| heap := List.filter (fun r => negb (hasKey (typ, id) r)) (heap q);
     notifyEnqueue := if notifyWaiters then notify (notifyEnqueue q)
                      else notifyEnqueue q |}.

(** At most one entry per (entity type, entity id). *)
Definition uniqueKeys (q : requestQueue) : Prop :=
  forall k, (length (entriesFor k q) <= 1)%nat.

(* ===================================================================== *)
(** * Scheduling requests *)
(* ===================================================================== *)

Record scheduledUser : Type := mkScheduledUser {
  su_priority : priority;
  su_userID : Z;
  su_nextSyncAt : GoTime.Time;
  su_noPerms : bool
}.

Record scheduledRepo : Type := mkScheduledRepo {
  sr_priority : priority;
  sr_repoID : Z;
  sr_nextSyncAt : GoTime.Time;
  sr_noPerms : bool
}.

(** A [context.Context] as the scheduling loops see it: [ctx.Done()] is
    polled once per iteration, and a cancelled context stays cancelled.
    [Some n] is a context cancelled just before the poll number [n]. *)
Definition context : Type := option nat.

Definition ctxDone (ctx : context) (poll : nat) : bool :=
  match ctx with
  | None => false
  | Some n => (n <=? poll)%nat
  end.

Fixpoint scheduleUsersFrom (poll : nat) (ctx : context) (users : list scheduledUser)
  (q : requestQueue) : requestQueue :=
  match users with
  | [] => q
  | u :: rest =>
      if ctxDone ctx poll then q
      else
        let '(_, q') :=
          enqueue {| Priority := su_priority u;
                     Typ := requestTypeUser;
                     ID := su_userID u;
                     NextSyncAt := su_nextSyncAt u;
                     NoPerms := su_noPerms u |} q in
        scheduleUsersFrom (S poll) ctx rest q'
  end.

Definition scheduleUsers (ctx : context) (users : list scheduledUser)
  (q : requestQueue) : requestQueue :=
  scheduleUsersFrom 0 ctx users q.

Fixpoint scheduleReposFrom (poll : nat) (ctx : context) (repos : list scheduledRepo)
  (q : requestQueue) : requestQueue :=
  match repos with
  | [] => q
  | r :: rest =>
      if ctxDone ctx poll then q
      else
        let '(_, q') :=
          enqueue {| Priority := sr_priority r;
                     Typ := requestTypeRepo;
                     ID := sr_repoID r;
                     NextSyncAt := sr_nextSyncAt r;
                     NoPerms := sr_noPerms r |} q in
        scheduleReposFrom (S poll) ctx rest q'
  end.

Definition scheduleRepos (ctx : context) (repos : list scheduledRepo)
  (q : requestQueue) : requestQueue :=
  scheduleReposFrom 0 ctx repos q.

(* ===================================================================== *)
(** * Errors *)
(* ===================================================================== *)

(** A Go [error].  The predicates of [errcode] and [errors.As] look through
    wrapping, so an error value carries its classification and the stack of
    messages it has been wrapped with, the outermost first. *)
Record error : Type := mkError {
  unauthorized : bool;
  forbidden : bool;
  accountSuspended : bool;
  githubAPICode : option Z;
  messages : list string
}.

Definition errorsNew (msg : string) : error :=
  {| unauthorized := false; forbidden := false; accountSuspended := false;
     githubAPICode := None; messages := [msg] |}.

(** [errors.Wrap] of a non-nil error. *)
Definition Wrap (e : error) (msg : string) : error :=
  {| unauthorized := unauthorized e;
     forbidden := forbidden e;
     accountSuspended := accountSuspended e;
     githubAPICode := githubAPICode e;
     messages := msg :: messages e |}.

(** [errors.Wrap] of an error that may be nil: wrapping nil gives nil. *)
Definition WrapNil (e : option error) (msg : string) : option error :=
  match e with
  | None => None
  | Some e => Some (Wrap e msg)
  end.

Definition IsUnauthorized (e : error) : bool := unauthorized e.
Definition IsForbidden (e : error) : bool := forbidden e.
Definition IsAccountSuspended (e : error) : bool := accountSuspended e.

(** [errors.As(err, &e) && e.Code == http.StatusNotFound] for a
    [*github.APIError]. *)
Definition isGitHubNotFound (e : error) : bool :=
  match githubAPICode e with
  | Some c => c =? 404
  | None => false
  end.

Inductive result (A : Type) : Type :=
| Ok (a : A)
| Err (e : error).

Arguments Ok {A} a.
Arguments Err {A} e.

(* ===================================================================== *)
(** * Data of the stores and of the authorization providers *)
(* ===================================================================== *)

Definition uint32 (x : Z) : Z := x mod 2 ^ 32.

Record User : Type := mkUser {
  user_ID : Z;
  Username : string
}.

Record AccountSpec : Type := mkAccountSpec {
  spec_ServiceType : string;
  spec_ServiceID : string;
  spec_AccountID : string
}.

Record Account : Type := mkAccount {
  acct_ID : Z;
  acct_UserID : Z;
  acct_Spec : AccountSpec;
  acct_Data : string
}.

(** [types.ExternalService]; [svc_URN] is the value of its [URN()] method. *)
Record ExternalService : Type := mkExternalService {
  svc_ID : Z;
  svc_Kind : string;
  svc_Config : string;
  svc_URN : string
}.

Record ExternalRepoSpec : Type := mkExternalRepoSpec {
  ers_ID : string;
  ers_ServiceType : string;
  ers_ServiceID : string
}.

Record ExternalUserPermissions : Type := mkExternalUserPermissions {
  Exacts : list string;
  IncludeContains : list string;
  ExcludeContains : list string
}.

Record RepoName : Type := mkRepoName {
  rn_ID : Z;
  rn_Name : string
}.

Record Repo : Type := mkRepo {
  repo_ID : Z;
  repo_Name : string;
  repo_URI : string;
  Private : bool;
  ExternalRepo : ExternalRepoSpec;
  Sources : gmap string string
}.

Record Repository : Type := mkRepository {
  URI : string;
  repository_Spec : ExternalRepoSpec
}.

Record ReposListOptions : Type := mkReposListOptions {
  opt_IDs : list Z;
  opt_ExternalRepos : list ExternalRepoSpec;
  opt_ExternalRepoIncludeContains : list ExternalRepoSpec;
  opt_ExternalRepoExcludeContains : list ExternalRepoSpec;
  opt_OnlyPrivate : bool
}.

(** [database.ReposListOptions{IDs: []api.RepoID{repoID}}]. *)
Definition optionsByID (repoID : Z) : ReposListOptions :=
  {| opt_IDs := [repoID]; opt_ExternalRepos := [];
     opt_ExternalRepoIncludeContains := [];
     opt_ExternalRepoExcludeContains := [];
     opt_OnlyPrivate := false |}.

Inductive Perms : Type := Read.
Inductive PermType : Type := PermRepos.

Record UserPermissions : Type := mkUserPermissions {
  up_UserID : Z;
  up_Perm : Perms;
  up_Type : PermType;
  up_IDs : gset Z
}.

Record RepoPermissions : Type := mkRepoPermissions {
  rp_RepoID : Z;
  rp_Perm : Perms;
  rp_UserIDs : gset Z
}.

Record Accounts : Type := mkAccounts {
  accts_ServiceType : string;
  accts_ServiceID : string;
  accts_AccountIDs : list string
}.

(** The collaborators' calls, as they are logged.  A fetch is logged with
    what it returned, a query of the stores with its result where the
    routines use it, a write with the error it returned. *)
Inductive Call : Type :=
| CListExternalServicePrivateRepoIDsByUserID (userID : Z) (res : result (list Z))
| CUsersGetByID (userID : Z)
| CListExternalAccounts (userID : Z)
| CUserEmailsListByUser (userID : Z)
| CFetchAccount (serviceID : string) (userID : Z)
| CAssociateUserAndSave (userID : Z) (spec : AccountSpec)
| CExternalServicesList (userID : Z)
| CWaitN (serviceID : string) (n : Z)
| CFetchUserPerms (serviceType serviceID : string) (acct : Account)
    (extIDs : option ExternalUserPermissions) (err : option error)
| CFetchUserPermsByToken (serviceType serviceID : string) (token : string)
    (extIDs : option ExternalUserPermissions) (err : option error)
| CTouchExpired (id : Z)
| CTouchLastValid (id : Z)
| CListRepoNames (opts : ReposListOptions) (res : result (list RepoName))
| CSetUserPermissions (p : UserPermissions) (err : option error)
| CRepoStoreList (opts : ReposListOptions)
| CListExternalServiceUserIDsByRepoID (repoID : Z)
| CFetchRepoPerms (serviceID : string) (repo : Repository) (err : option error)
| CTouchRepoPermissions (repoID : Z) (err : option error)
| CGetUserIDsByExternalAccounts (accounts : Accounts)
| CTransact
| CSetRepoPermissions (p : RepoPermissions) (err : option error)
| CSetRepoPendingPermissions (accounts : Accounts) (p : RepoPermissions)
    (err : option error)
| CDone (err : option error)
| CUserIDsWithNoPerms
| CRepoIDsWithNoPerms
| CUserIDsWithOldestPerms (limit : Z)
| CReposIDsWithOldestPerms (limit : Z).

(* ===================================================================== *)
(** * The collaborators and the monad of the fetch routines *)
(* ===================================================================== *)

(** An [authz.Provider]: its identity and its fetches, which act on the
    world [W] (the code hosts and the stores). *)
Record Provider (W : Type) : Type := mkProvider {
  ServiceType : string;
  ServiceID : string;
  URN : string;
  FetchAccount :
    User -> list Account -> list string -> W -> result (option Account) * W;
  FetchUserPerms :
    Account -> W -> (option ExternalUserPermissions * option error) * W;
  FetchUserPermsByToken :
    string -> W -> (option ExternalUserPermissions * option error) * W;
  FetchRepoPerms : Repository -> W -> (list string * option error) * W
}.

Arguments ServiceType {W} _.
Arguments ServiceID {W} _.
Arguments URN {W} _.
Arguments FetchAccount {W} _ _ _ _ _.
Arguments FetchUserPerms {W} _ _ _.
Arguments FetchUserPermsByToken {W} _ _ _.
Arguments FetchRepoPerms {W} _ _ _.

(** What the syncer reads and calls outside itself: the process-wide
    settings, the providers registered with [authz], the clock, the rate
    limiter registry ([None] when the field is nil) and the stores. *)
Record Env (W : Type) : Type := mkEnv {
  PermissionsUserMappingEnabled : bool;
  EnforceTiers : bool;
  licensingCheckFeatureACLs : option error;
  DisableAutoCodeHostSyncs : bool;
  GetProviders : list (Provider W);
  clock : W -> GoTime.Time;
  rateLimiterRegistry : option (string -> Z -> W -> option error * W);
  ListExternalServicePrivateRepoIDsByUserID : Z -> W -> result (list Z) * W;
  ListExternalServiceUserIDsByRepoID : Z -> W -> result (list Z) * W;
  UsersGetByID : Z -> W -> result User * W;
  ListExternalAccounts : Z -> W -> result (list Account) * W;
  UserEmailsListByUser : Z -> bool -> W -> result (list string) * W;
  AssociateUserAndSave : Z -> AccountSpec -> string -> W -> option error * W;
  TouchExpired : Z -> W -> option error * W;
  TouchLastValid : Z -> W -> option error * W;
  ExternalServicesList : Z -> list string -> W -> result (list ExternalService) * W;
  ExtractToken : string -> string -> result string;
  ListRepoNames : ReposListOptions -> W -> result (list RepoName) * W;
  RepoStoreList : ReposListOptions -> W -> result (list Repo) * W;
  SetUserPermissions : UserPermissions -> W -> option error * W;
  TouchRepoPermissions : Z -> W -> option error * W;
  GetUserIDsByExternalAccounts : Accounts -> W -> result (gmap string Z) * W;
  Transact : W -> option error * W;
  SetRepoPermissions : RepoPermissions -> W -> option error * W;
  SetRepoPendingPermissions : Accounts -> RepoPermissions -> W -> option error * W;
  Done : option error -> W -> option error * W;
  UserIDsWithNoPerms : W -> result (list Z) * W;
  RepoIDsWithNoPerms : W -> result (list Z) * W;
  UserIDsWithOldestPerms : Z -> W -> result (gmap Z GoTime.Time) * W;
  ReposIDsWithOldestPerms : Z -> W -> result (gmap Z GoTime.Time) * W
}.

Arguments PermissionsUserMappingEnabled {W} _.
Arguments EnforceTiers {W} _.
Arguments licensingCheckFeatureACLs {W} _.
Arguments DisableAutoCodeHostSyncs {W} _.
Arguments GetProviders {W} _.
Arguments clock {W} _ _.
Arguments rateLimiterRegistry {W} _.
Arguments ListExternalServicePrivateRepoIDsByUserID {W} _ _ _.
Arguments ListExternalServiceUserIDsByRepoID {W} _ _ _.
Arguments UsersGetByID {W} _ _ _.
Arguments ListExternalAccounts {W} _ _ _.
Arguments UserEmailsListByUser {W} _ _ _ _.
Arguments AssociateUserAndSave {W} _ _ _ _ _.
Arguments TouchExpired {W} _ _ _.
Arguments TouchLastValid {W} _ _ _.
Arguments ExternalServicesList {W} _ _ _ _.
Arguments ExtractToken {W} _ _ _.
Arguments ListRepoNames {W} _ _ _.
Arguments RepoStoreList {W} _ _ _.
Arguments SetUserPermissions {W} _ _ _.
Arguments TouchRepoPermissions {W} _ _ _.
Arguments GetUserIDsByExternalAccounts {W} _ _ _.
Arguments Transact {W} _ _.
Arguments SetRepoPermissions {W} _ _ _.
Arguments SetRepoPendingPermissions {W} _ _ _ _.
Arguments Done {W} _ _ _.
Arguments UserIDsWithNoPerms {W} _ _.
Arguments RepoIDsWithNoPerms {W} _ _.
Arguments UserIDsWithOldestPerms {W} _ _ _.
Arguments ReposIDsWithOldestPerms {W} _ _ _.

(** A computation that may return an error, acts on the world and logs the
    calls it makes.  An error is what the Go function returns with
    [return err]; the log is kept. *)
Definition M (W A : Type) : Type := W -> result A * W * list Call.

Definition ret {W A : Type} (a : A) : M W A := fun w => (Ok a, w, []).

Definition throw {W A : Type} (e : error) : M W A := fun w => (Err e, w, []).

Definition bind {W A B : Type} (m : M W A) (f : A -> M W B) : M W B :=
  fun w =>
    match m w with
    | (Ok a, w1, l1) =>
        match f a w1 with
        | (r, w2, l2) => (r, w2, l1 ++ l2)
        end
    | (Err e, w1, l1) => (Err e, w1, l1)
    end.

Notation "x <- m ;; k" := (bind m (fun x => k))
  (at level 100, m at next level, right associativity).

(** A call to a collaborator, logged by [ev] together with its outcome. *)
Definition call {W A : Type} (ev : A -> Call) (op : W -> A * W) : M W A :=
  fun w => match op w with (a, w') => (Ok a, w', [ev a]) end.

(** [x, err := f(); if err != nil { return errors.Wrap(err, msg) }]. *)
Definition orReturn {W A : Type} (m : M W (result A)) (msg : string) : M W A :=
  r <- m ;;
  match r with
  | Ok a => ret a
  | Err e => throw (Wrap e msg)
  end.

(** [if err := f(); err != nil { return errors.Wrap(err, msg) }]. *)
Definition orReturnErr {W : Type} (m : M W (option error)) (msg : string) : M W unit :=
  r <- m ;;
  match r with
  | None => ret tt
  | Some e => throw (Wrap e msg)
  end.

(** A [for ... range] loop threading an accumulator; [return err] in the
    body leaves the loop and the function. *)
Fixpoint forEach {W A S : Type} (body : A -> S -> M W S) (l : list A) (s : S) : M W S :=
  match l with
  | [] => ret s
  | a :: l' => s' <- body a s ;; forEach body l' s'
  end.

(* ===================================================================== *)
(** * The fetch routines *)
(* ===================================================================== *)

(** The identifiers collected from the providers, tagged with the identity
    of the code host they come from. *)
Record collected : Type := mkCollected {
  repoSpecs : list ExternalRepoSpec;
  includeContainsSpecs : list ExternalRepoSpec;
  excludeContainsSpecs : list ExternalRepoSpec
}.

(** An identifier returned by the provider of a code host. *)
Definition specFor (serviceType serviceID id : string) : ExternalRepoSpec :=
  {| ers_ID := id; ers_ServiceType := serviceType; ers_ServiceID := serviceID |}.

Definition nothingCollected : collected :=
  {| repoSpecs := []; includeContainsSpecs := []; excludeContainsSpecs := [] |}.

Section Syncer.

Context {W : Type} (env : Env W).

(** Keys are ServiceID, a later provider replacing an earlier one. *)
Definition providersByServiceID : gmap string (Provider W) :=
  foldl (fun m p => <[ServiceID p := p]> m) ∅ (GetProviders env).

(** Keys are URN. *)
Definition providersByURNs : gmap string (Provider W) :=
  foldl (fun m p => <[URN p := p]> m) ∅ (GetProviders env).

Definition waitForRateLimit (serviceID : string) (n : Z) : M W (option error) :=
  match rateLimiterRegistry env with
  | None => ret None
  | Some waitN => call (fun _ => CWaitN serviceID n) (waitN serviceID n)
  end.

(** The pace of [listPrivateRepoNamesByExact]. *)
Definition batchSize : nat := Z.to_nat 10000.

(** The batched lookup of [listPrivateRepoNamesByExact]: one iteration of
    [for nextCut > 0] per unit of [fuel]. *)
Fixpoint listExactLoop (fuel : nat) (remaining : list ExternalRepoSpec)
  (nextCut : nat) (repoNames : list RepoName) : M W (result (list RepoName)) :=
  match nextCut, fuel with
  | O, _ => ret (Ok repoNames)
  | _, O => ret (Ok repoNames)
  | _, S fuel' =>
      let opts :=
        {| opt_IDs := [];
           opt_ExternalRepos := take nextCut remaining;
           opt_ExternalRepoIncludeContains := [];
           opt_ExternalRepoExcludeContains := [];
           opt_OnlyPrivate := true |} in
      r <- call (CListRepoNames opts) (ListRepoNames env opts) ;;
      match r with
      | Err e => ret (Err e)
      | Ok rs =>
          let repoNames := repoNames ++ rs in
          let remaining := drop nextCut remaining in
          let nextCut :=
            if (length remaining <? nextCut)%nat then length remaining else nextCut in
          listExactLoop fuel' remaining nextCut repoNames
      end
  end.

(** Every iteration removes at least one element of [remaining], so
    [length repoSpecs] iterations are enough. *)
Definition listPrivateRepoNamesByExact (specs : list ExternalRepoSpec)
  : M W (result (list RepoName)) :=
  match specs with
  | [] => ret (Ok [])
  | _ =>
      let nextCut := batchSize in
      let nextCut := if (length specs <? nextCut)%nat then length specs else nextCut in
      listExactLoop (length specs) specs nextCut []
  end.

(** The body of the loop over the providers that looks for an external
    account of the user at a provider where none is known. *)
Definition discoverAccount (user : User) (emails : list string)
  (serviceToAccounts : gmap string Account) (provider : Provider W)
  (accts : list Account) : M W (list Account) :=
  match serviceToAccounts !! (ServiceType provider +:+ ":" +:+ ServiceID provider) with
  | Some _ => ret accts
  | None =>
      r <- call (fun _ => CFetchAccount (ServiceID provider) (user_ID user))
             (FetchAccount provider user accts emails) ;;
      match r with
      | Err _ => ret accts
      | Ok None => ret accts
      | Ok (Some acct) =>
          e <- call (fun _ => CAssociateUserAndSave (user_ID user) (acct_Spec acct))
                 (AssociateUserAndSave env (user_ID user) (acct_Spec acct) (acct_Data acct)) ;;
          match e with
          | Some _ => ret accts
          | None => ret (accts ++ [acct])
          end
      end
  end.

Definition specOf (provider : Provider W) (id : string) : ExternalRepoSpec :=
  specFor (ServiceType provider) (ServiceID provider) id.

(** The end of the loop body: append what the provider returned. *)
Definition collectExtIDs (provider : Provider W)
  (extIDs : option ExternalUserPermissions) (acc : collected) : collected :=
  match extIDs with
  | None => acc
  | Some x =>
      {| repoSpecs := repoSpecs acc ++ map (specOf provider) (Exacts x);
         includeContainsSpecs :=
           includeContainsSpecs acc ++ map (specOf provider) (IncludeContains x);
         excludeContainsSpecs :=
           excludeContainsSpecs acc ++ map (specOf provider) (ExcludeContains x) |}
  end.

(** The body of the loop over [accountsOrServices]; [ret acc] where the
    code says [continue]. *)
Definition fetchOne (noPerms : bool) (byServiceID byURN : gmap string (Provider W))
  (accountOrService : Account + ExternalService) (acc : collected) : M W collected :=
  match accountOrService with
  | inl v =>
      match byServiceID !! spec_ServiceID (acct_Spec v) with
      | None => ret acc
      | Some provider =>
          _ <- orReturnErr (waitForRateLimit (ServiceID provider) 1)
                 "wait for rate limiter" ;;
          r <- call (fun r => CFetchUserPerms (ServiceType provider) (ServiceID provider)
                                 v (fst r) (snd r))
                 (FetchUserPerms provider v) ;;
          match snd r with
          | Some err =>
              if IsUnauthorized err || IsAccountSuspended err || IsForbidden err then
                _ <- orReturnErr
                       (call (fun _ => CTouchExpired (acct_ID v)) (TouchExpired env (acct_ID v)))
                       ("set expired for external account " +:+ pretty (acct_ID v)) ;;
                ret acc
              else if negb noPerms then
                throw (Wrap err "fetch user permissions")
              else ret (collectExtIDs provider (fst r) acc)
          | None =>
              _ <- orReturnErr
                     (call (fun _ => CTouchLastValid (acct_ID v)) (TouchLastValid env (acct_ID v)))
                     ("set last valid for external account " +:+ pretty (acct_ID v)) ;;
              ret (collectExtIDs provider (fst r) acc)
          end
      end
  | inr v =>
      match byURN !! svc_URN v with
      | None => ret acc
      | Some provider =>
          match ExtractToken env (svc_Config v) (svc_Kind v) with
          | Err _ => ret acc
          | Ok token =>
              if String.eqb token "" then ret acc
              else
                _ <- orReturnErr (waitForRateLimit (ServiceID provider) 1)
                       "wait for rate limiter" ;;
                r <- call (fun r => CFetchUserPermsByToken (ServiceType provider)
                                      (ServiceID provider) token (fst r) (snd r))
                       (FetchUserPermsByToken provider token) ;;
                match snd r with
                | Some _ => ret acc
                | None => ret (collectExtIDs provider (fst r) acc)
                end
          end
      end
  end.

Definition bitmapOf (ids : list Z) : gset Z := list_to_set (uint32 <$> ids).

(** The end of [syncUserPerms]: resolve the collected identifiers to
    repositories and save the user's permissions. *)
Definition resolveAndSave (user : User) (repoIDs : list Z) (acc : collected) : M W unit :=
  repoNames <- orReturn (listPrivateRepoNamesByExact (repoSpecs acc))
                 "list external repositories by exact matching" ;;
  repoNames <-
    match includeContainsSpecs acc with
    | [] => ret repoNames
    | _ =>
        let opts :=
          {| opt_IDs := [];
             opt_ExternalRepos := [];
             opt_ExternalRepoIncludeContains := includeContainsSpecs acc;
             opt_ExternalRepoExcludeContains := excludeContainsSpecs acc;
             opt_OnlyPrivate := true |} in
        rs <- orReturn (call (CListRepoNames opts) (ListRepoNames env opts))
                "list external repositories by contains matching" ;;
        ret (repoNames ++ rs)
    end ;;
  let p :=
    {| up_UserID := user_ID user;
       up_Perm := Read;
       up_Type := PermRepos;
       up_IDs := bitmapOf (rn_ID <$> repoNames) ∪ bitmapOf repoIDs |} in
  _ <- orReturnErr (call (CSetUserPermissions p) (SetUserPermissions env p))
         "set user permissions" ;;
  ret tt.

Definition KindGitHub : string := "GITHUB".
Definition KindGitLab : string := "GITLAB".

Definition syncUserPerms (userID : Z) (noPerms : bool) : M W unit :=
  repoIDs <- orReturn
               (call (CListExternalServicePrivateRepoIDsByUserID userID)
                  (ListExternalServicePrivateRepoIDsByUserID env userID))
               "list external service repo IDs by user ID" ;;
  user <- orReturn (call (fun _ => CUsersGetByID userID) (UsersGetByID env userID))
            "get user" ;;
  accts <- orReturn
             (call (fun _ => CListExternalAccounts (user_ID user))
                (ListExternalAccounts env (user_ID user)))
             "list external accounts" ;;
  let serviceToAccounts : gmap string Account :=
    foldl (fun m acct =>
             <[spec_ServiceType (acct_Spec acct) +:+ ":" +:+ spec_ServiceID (acct_Spec acct)
               := acct]> m) ∅ accts in
  emails <- orReturn
              (call (fun _ => CUserEmailsListByUser (user_ID user))
                 (UserEmailsListByUser env (user_ID user) true))
              "list user verified emails" ;;
  let byServiceID := providersByServiceID in
  accts <- forEach (discoverAccount user emails serviceToAccounts)
             (map_to_list byServiceID).*2 accts ;;
  svcs <- orReturn
            (call (fun _ => CExternalServicesList userID)
               (ExternalServicesList env userID [KindGitHub; KindGitLab]))
            "fetching external services" ;;
  let byURN := providersByURNs in
  let accountsOrServices : list (Account + ExternalService) :=
    (inl <$> accts) ++ (inr <$> svcs) in
  acc <- forEach (fetchOne noPerms byServiceID byURN) accountsOrServices
           nothingCollected ;;
  resolveAndSave user repoIDs acc.

(** The first of the repository's sources that is the URN of a provider. *)
Fixpoint firstProvider (providers : gmap string (Provider W)) (urns : list string)
  : option (Provider W) :=
  match urns with
  | [] => None
  | urn :: rest =>
      match providers !! urn with
      | Some p => Some p
      | None => firstProvider providers rest
      end
  end.

(** The end of [syncRepoPerms], inside the transaction: the deferred
    [txs.Done(err)] sees the error of the writes and decides the result. *)
Definition saveRepoPerms (accounts : Accounts) (p : RepoPermissions) : M W unit :=
  _ <- orReturnErr (call (fun _ => CTransact) (Transact env)) "start transaction" ;;
  e1 <- call (CSetRepoPermissions p) (SetRepoPermissions env p) ;;
  err <- match e1 with
         | Some e => ret (Some (Wrap e "set repository permissions"))
         | None =>
             e2 <- call (CSetRepoPendingPermissions accounts p)
                     (SetRepoPendingPermissions env accounts p) ;;
             ret (WrapNil e2 "set repository pending permissions")
         end ;;
  final <- call CDone (Done env err) ;;
  match final with
  | Some e => throw e
  | None => ret tt
  end.

Definition touchAndReturn (repoID : Z) : M W unit :=
  orReturnErr (call (CTouchRepoPermissions repoID) (TouchRepoPermissions env repoID))
    "touch repository permissions".

(** The end of [syncRepoPerms]: map the external accounts to users, keep
    the unmapped ones as pending, and save both. *)
Definition mapAndSave (provider : Provider W) (repoID : Z) (userIDs : list Z)
  (extAccountIDs : list string) : M W unit :=
  found <-
    match extAccountIDs with
    | [] => ret ((∅ : gmap string Z), (∅ : gset string))
    | _ =>
        let accountIDs := extAccountIDs in
        let accounts :=
          {| accts_ServiceType := ServiceType provider;
             accts_ServiceID := ServiceID provider;
             accts_AccountIDs := accountIDs |} in
        m <- orReturn
               (call (fun _ => CGetUserIDsByExternalAccounts accounts)
                  (GetUserIDsByExternalAccounts env accounts))
               "get user IDs by external accounts" ;;
        ret (m, (list_to_set accountIDs : gset string))
    end ;;
  let accountIDToUserID : gmap string Z := fst found in
  let pendingAccountIDsSet : gset string := snd found ∖ dom accountIDToUserID in
  let p :=
    {| rp_RepoID := repoID;
       rp_Perm := Read;
       rp_UserIDs := bitmapOf (map_to_list accountIDToUserID).*2 ∪ bitmapOf userIDs |} in
  let accounts :=
    {| accts_ServiceType := ServiceType provider;
       accts_ServiceID := ServiceID provider;
       accts_AccountIDs := elements pendingAccountIDsSet |} in
  saveRepoPerms accounts p.

Definition syncRepoPerms (repoID : Z) (noPerms : bool) : M W unit :=
  let opts := optionsByID repoID in
  rs <- orReturn (call (fun _ => CRepoStoreList opts) (RepoStoreList env opts))
          "list repositories" ;;
  match rs with
  | [] => ret tt
  | repo :: _ =>
      found <-
        (if Private repo then
           userIDs <- orReturn
                        (call (fun _ => CListExternalServiceUserIDsByRepoID repoID)
                           (ListExternalServiceUserIDsByRepoID env repoID))
                        "list external service user IDs by repo ID" ;;
           ret (userIDs, firstProvider providersByURNs (map_to_list (Sources repo)).*1)
         else ret ([], None)) ;;
      let userIDs : list Z := fst found in
      match snd found with
      | None => touchAndReturn repoID
      | Some provider =>
          _ <- orReturnErr (waitForRateLimit (ServiceID provider) 1)
                 "wait for rate limiter" ;;
          let repository :=
            {| URI := repo_URI repo; repository_Spec := ExternalRepo repo |} in
          r <- call (fun r => CFetchRepoPerms (ServiceID provider) repository (snd r))
                 (FetchRepoPerms provider repository) ;;
          let extAccountIDs : list string := fst r in
          match snd r with
          | Some err =>
              if isGitHubNotFound err then touchAndReturn repoID
              else if negb noPerms then throw (Wrap err "fetch repository permissions")
              else mapAndSave provider repoID userIDs extAccountIDs
          | None => mapAndSave provider repoID userIDs extAccountIDs
          end
      end
  end.

(* ===================================================================== *)
(** * The periodic scheduler *)
(* ===================================================================== *)

Definition scheduleUsersWithNoPerms : M W (result (list scheduledUser)) :=
  r <- call (fun _ => CUserIDsWithNoPerms) (UserIDsWithNoPerms env) ;;
  match r with
  | Err e => ret (Err e)
  | Ok ids =>
      ret (Ok (map (fun id =>
                      {| su_priority := priorityLow; su_userID := id;
                         su_nextSyncAt := GoTime.zero; su_noPerms := true |}) ids))
  end.

Definition scheduleReposWithNoPerms : M W (result (list scheduledRepo)) :=
  r <- call (fun _ => CRepoIDsWithNoPerms) (RepoIDsWithNoPerms env) ;;
  match r with
  | Err e => ret (Err e)
  | Ok ids =>
      ret (Ok (map (fun id =>
                      {| sr_priority := priorityLow; sr_repoID := id;
                         sr_nextSyncAt := GoTime.zero; sr_noPerms := true |}) ids))
  end.

Definition scheduleUsersWithOldestPerms (limit : Z) : M W (result (list scheduledUser)) :=
  r <- call (fun _ => CUserIDsWithOldestPerms limit) (UserIDsWithOldestPerms env limit) ;;
  match r with
  | Err e => ret (Err e)
  | Ok results =>
      ret (Ok (map (fun it : Z * GoTime.Time =>
                      {| su_priority := priorityLow; su_userID := fst it;
                         su_nextSyncAt := snd it; su_noPerms := false |})
                 (map_to_list results)))
  end.

Definition scheduleReposWithOldestPerms (limit : Z) : M W (result (list scheduledRepo)) :=
  r <- call (fun _ => CReposIDsWithOldestPerms limit) (ReposIDsWithOldestPerms env limit) ;;
  match r with
  | Err e => ret (Err e)
  | Ok results =>
      ret (Ok (map (fun it : Z * GoTime.Time =>
                      {| sr_priority := priorityLow; sr_repoID := fst it;
                         sr_nextSyncAt := snd it; sr_noPerms := false |})
                 (map_to_list results)))
  end.

Record Schedule : Type := mkSchedule {
  Users : list scheduledUser;
  Repos : list scheduledRepo
}.

Definition limit : Z := 10.

Definition schedule : M W Schedule :=
  users1 <- orReturn scheduleUsersWithNoPerms "schedule users with no permissions" ;;
  repos1 <- orReturn scheduleReposWithNoPerms
              "schedule repositories with no permissions" ;;
  users2 <- orReturn (scheduleUsersWithOldestPerms limit)
              "load users with oldest permissions" ;;
  repos2 <- orReturn (scheduleReposWithOldestPerms limit)
              "scan repositories with oldest permissions" ;;
  ret {| Users := ([] ++ users1) ++ users2; Repos := ([] ++ repos1) ++ repos2 |}.

Definition isDisabled : bool :=
  PermissionsUserMappingEnabled env
  || (size providersByServiceID =? 0)%nat
  || (EnforceTiers env && bool_decide (licensingCheckFeatureACLs env <> None))
  || DisableAutoCodeHostSyncs env.

Definition ScheduleUsers (ctx : context) (userIDs : list Z) (q : requestQueue)
  : requestQueue :=
  if (length userIDs =? 0)%nat then q
  else if isDisabled then q
  else
    scheduleUsers ctx
      (map (fun id => {| su_priority := priorityHigh; su_userID := id;
                         su_nextSyncAt := GoTime.zero; su_noPerms := false |})
         userIDs) q.

Definition ScheduleRepos (ctx : context) (repoIDs : list Z) (q : requestQueue)
  : requestQueue :=
  if (length repoIDs =? 0)%nat then q
  else if isDisabled then q
  else
    scheduleRepos ctx
      (map (fun id => {| sr_priority := priorityHigh; sr_repoID := id;
                         sr_nextSyncAt := GoTime.zero; sr_noPerms := false |})
         repoIDs) q.

(* ===================================================================== *)
(** * The sync executor *)
(* ===================================================================== *)

(** The syncer as the executor sees it: the queue, the world of the
    collaborators, the one-shot timers armed with [time.AfterFunc] (each
    sends on [notifyEnqueue] when it fires), the channel [notifyDequeued] of
    [runSync], and the log of the calls made so far. *)
Record PermsSyncer : Type := mkPermsSyncer {
  queue : requestQueue;
  world : W;
  timers : list GoTime.Duration;
  notifyDequeued : bool;
  calls : list Call
}.

Definition errorOf {A : Type} (r : result A) : option error :=
  match r with
  | Ok _ => None
  | Err e => Some e
  end.

(** [syncPerms]: the dispatch on the request type, and the deferred
    [s.queue.remove(request.Type, request.ID, true)] that runs when the
    function returns. *)
Definition syncPerms (request : syncRequest) (s : PermsSyncer)
  : option error * PermsSyncer :=
  let m : M W unit :=
    match Typ (meta request) with
    | requestTypeUser => syncUserPerms (ID (meta request)) (NoPerms (meta request))
    | requestTypeRepo => syncRepoPerms (ID (meta request)) (NoPerms (meta request))
    | requestTypeUnknown code =>
        throw (errorsNew ("unexpected request type: " +:+ pretty code))
    end in
  match m (world s) with
  | (r, w', l) =>
      (errorOf r,
       {| queue := remove (Typ (meta request)) (ID (meta request)) true (queue s);
          world := w';
          timers := timers s;
          notifyDequeued := notifyDequeued s;
          calls := calls s ++ l |})
  end.






(** The context as the second of two loops sees it, the first having
    polled it [polls] times. *)
Definition ctxAfter (ctx : context) (polls : nat) : context :=
  match ctx with
  | None => None
  | Some n => Some (n - polls)%nat
  end.

(** The body of the loop of [runSchedule], after the ticker has fired. *)
Definition runScheduleTick (ctx : context) (s : PermsSyncer) : PermsSyncer :=
  if isDisabled then s
  else
    match schedule (world s) with
    | (Err _, w', l) =>
        {| queue := queue s; world := w'; timers := timers s;
           notifyDequeued := notifyDequeued s; calls := calls s ++ l |}
    | (Ok sch, w', l) =>
        {| queue := scheduleRepos (ctxAfter ctx (length (Users sch))) (Repos sch)
                      (scheduleUsers ctx (Users sch) (queue s));
           world := w'; timers := timers s;
           notifyDequeued := notifyDequeued s; calls := calls s ++ l |}
    end.

End Syncer.

(* ===================================================================== *)
(** * The Perforce provider: depot prefixes of a user *)
(* ===================================================================== *)

Module Perforce.

(** The functions of Go's [strings] that [FetchUserPerms] uses, on strings
    of bytes. *)
Definition HasPrefix (s prefix : string) : bool := String.prefix prefix s.

(** [strings.Index]: the index of the first instance of [sub], or -1. *)
Fixpoint Index (s sub : string) : Z :=
  if String.prefix sub s then 0
  else match s with
       | EmptyString => -1
       | String _ s' =>
           let i := Index s' sub in
           if i <? 0 then -1 else i + 1
       end.

Definition Contains (s sub : string) : bool := 0 <=? Index s sub.

Fixpoint dropString (n : nat) (s : string) : string :=
  match n, s with
  | O, _ => s
  | S n', String _ s' => dropString n' s'
  | S _, EmptyString => EmptyString
  end.

(** [strings.ReplaceAll] for a non-empty [old]: the instances are replaced
    from the left and do not overlap; [skip] counts the bytes of an instance
    still to pass. *)
Fixpoint replaceFrom (skip : nat) (s old new : string) : string :=
  match s with
  | EmptyString => EmptyString
  | String c s' =>
      match skip with
      | S k => replaceFrom k s' old new
      | O =>
          if String.prefix old s
          then new +:+ replaceFrom (String.length old - 1) s' old new
          else String c (replaceFrom O s' old new)
      end
  end.

Definition ReplaceAll (s old new : string) : string := replaceFrom O s old new.

(** [strings.TrimRight s cutset] for a cutset of one byte. *)
Fixpoint TrimRight (s : string) (c : ascii) : string :=
  match s with
  | EmptyString => EmptyString
  | String a s' =>
      match TrimRight s' c with
      | EmptyString => if Ascii.eqb a c then EmptyString else String a EmptyString
      | t => String a t
      end
  end.

Definition isSpace (c : ascii) : bool :=
  let n := nat_of_ascii c in
  ((9 <=? n) && (n <=? 13))%nat || (n =? 32)%nat.

(** [strings.Fields]: the maximal runs of bytes that are not white space;
    [cur] is the field being read, reversed. *)
Fixpoint fieldsFrom (cur : list ascii) (s : string) : list string :=
  let flush (rest : list string) :=
    match cur with
    | [] => rest
    | _ => string_of_list_ascii (rev cur) :: rest
    end in
  match s with
  | EmptyString => flush []
  | String c s' =>
      if isSpace c then flush (fieldsFrom [] s')
      else fieldsFrom (c :: cur) s'
  end.

Definition Fields (s : string) : list string := fieldsFrom [] s.

Definition wildcardMatchAll : string := "%".
Definition wildcardMatchDirectory : string := "[^/]+".

Definition canRevokeReadAccess (level : string) : bool :=
  bool_decide (level ∈ ["list"; "read"; "=read"; "open"; "write"; "review";
                        "owner"; "admin"; "super"]).

Definition canGrantReadAccess (level : string) : bool :=
  bool_decide (level ∈ ["read"; "=read"; "open"; "=open"; "write"; "=write";
                        "review"; "owner"; "admin"; "super"]).

Definition isWildcard (depotContains : string) : bool :=
  Contains depotContains wildcardMatchAll
  || Contains depotContains wildcardMatchDirectory.

(** The loop [for i, prefix := range includeContains] of the exclusion
    branch: [rest] is what remains to visit, from index [i]. *)
Fixpoint excludeLoop (depotContains : string) (i : nat) (rest : list string)
  (includeContains excludeContains : list string) : list string * list string :=
  match rest with
  | [] => (includeContains, excludeContains)
  | prefix :: rest' =>
      if negb (HasPrefix depotContains prefix)
      then excludeLoop depotContains (S i) rest' includeContains excludeContains
      else if String.eqb depotContains prefix
      then (take i includeContains ++ drop (S i) includeContains, excludeContains)
      else (includeContains, excludeContains ++ [depotContains])
  end.

(** The exclusion branch, once the level is known to revoke read access. *)
Definition applyExclusion (depotContains : string)
  (includeContains excludeContains : list string) : list string * list string :=
  if isWildcard depotContains
  then (includeContains, excludeContains ++ [depotContains])
  else excludeLoop depotContains O includeContains includeContains excludeContains.

(** The manipulations made to [depotMatch]. *)
Definition normalize (depotMatch : string) : string :=
  let depotContains := TrimRight depotMatch "."%char in
  let depotContains := ReplaceAll depotContains "..." wildcardMatchAll in
  ReplaceAll depotContains "*" wildcardMatchDirectory.

(** The body of the loop over the lines of [p4 protects -u user]. *)
Definition scanLine (line : string) (st : list string * list string)
  : list string * list string :=
  let '(includeContains, excludeContains) := st in
  if HasPrefix line "##" then st
  else
    let i := Index line "##" in
    let line := if -1 <? i then substring 0 (Z.to_nat i) line else line in
    let fields := Fields line in
    if (length fields <? 5)%nat then st
    else
      let level := nth 0 fields "" in
      let depotMatch := nth 4 fields "" in
      let depotContains := normalize depotMatch in
      if HasPrefix depotContains "-" then
        let depotContains := dropString 1 depotContains in
        if negb (canRevokeReadAccess level) then st
        else applyExclusion depotContains includeContains excludeContains
      else
        if negb (canGrantReadAccess level) then st
        else (includeContains ++ [depotContains], excludeContains).

(** [FetchUserPerms] from the lines the scanner yields and the error the
    scanner ends with: all paths become prefixes, and the partial result is
    returned along with the error. *)
Definition FetchUserPerms (lines : list string) (scanErr : option error)
  : ExternalUserPermissions * option error :=
  let '(includeContains, excludeContains) := foldl (fun st line => scanLine line st) ([], []) lines in
  ({| Exacts := [];
      IncludeContains := map (fun s => s +:+ wildcardMatchAll) includeContains;
      ExcludeContains := map (fun s => s +:+ wildcardMatchAll) excludeContains |},
   WrapNil scanErr "scanner.Err").

End Perforce.

(* ===================================================================== *)
(** * Sequences of requests and sample configurations *)
(* ===================================================================== *)

(** A sequence of [enqueue] calls. *)
Definition enqueueAll (ms : list requestMeta) (q : requestQueue) : requestQueue :=
  foldl (fun q m => snd (enqueue m q)) q ms.

(** The highest of the priorities requested, starting from [p]. *)
Definition maxPriority (p : priority) (ms : list requestMeta) : priority :=
  foldl priority_max p (Priority <$> ms).

(** The earliest of the times requested, starting from [t]. *)
Definition earliestTime (t : GoTime.Time) (ms : list requestMeta) : GoTime.Time :=
  foldl earliest t (NextSyncAt <$> ms).

(** What a run returns, from the error a last call returned. *)
Definition resultOfError (e : option error) : result unit :=
  match e with
  | None => Ok tt
  | Some e => Err e
  end.

(** Sample worlds.  The collaborators of a [scenario] keep no state: every
    store answers from the scenario and every write succeeds. *)
Record scenario : Type := mkScenario {
  sc_mapping : bool;
  sc_now : GoTime.Time;
  sc_providers : list (Provider unit);
  sc_repos : result (list Repo);
  sc_repoGrants : result (list Z);
  sc_accounts : list Account;
  sc_services : list ExternalService;
  sc_names : ReposListOptions -> result (list RepoName);
  sc_usersNoPerms : list Z;
  sc_reposNoPerms : list Z;
  sc_usersOldest : list (Z * GoTime.Time);
  sc_reposOldest : list (Z * GoTime.Time)
}.

Definition answer {A : Type} (a : A) : unit -> A * unit := fun w => (a, w).

Definition oldest (rows : list (Z * GoTime.Time)) (limit : Z) : gmap Z GoTime.Time :=
  list_to_map (take (Z.to_nat limit) rows).

Definition envOf (sc : scenario) : Env unit :=
  {| PermissionsUserMappingEnabled := sc_mapping sc;
     EnforceTiers := false;
     licensingCheckFeatureACLs := None;
     DisableAutoCodeHostSyncs := false;
     GetProviders := sc_providers sc;
     clock := fun _ => sc_now sc;
     rateLimiterRegistry := None;
     ListExternalServicePrivateRepoIDsByUserID := fun _ => answer (Ok []);
     ListExternalServiceUserIDsByRepoID := fun _ => answer (sc_repoGrants sc);
     UsersGetByID := fun id => answer (Ok {| user_ID := id; Username := "alice" |});
     ListExternalAccounts := fun _ => answer (Ok (sc_accounts sc));
     UserEmailsListByUser := fun _ _ => answer (Ok []);
     AssociateUserAndSave := fun _ _ _ => answer None;
     TouchExpired := fun _ => answer None;
     TouchLastValid := fun _ => answer None;
     ExternalServicesList := fun _ _ => answer (Ok (sc_services sc));
     ExtractToken := fun config _ => Ok config;
     ListRepoNames := fun opts => answer (sc_names sc opts);
     RepoStoreList := fun _ => answer (sc_repos sc);
     SetUserPermissions := fun _ => answer None;
     TouchRepoPermissions := fun _ => answer None;
     GetUserIDsByExternalAccounts := fun _ => answer (Ok ∅);
     Transact := answer None;
     SetRepoPermissions := fun _ => answer None;
     SetRepoPendingPermissions := fun _ _ => answer None;
     Done := fun e => answer e;
     UserIDsWithNoPerms := answer (Ok (sc_usersNoPerms sc));
     RepoIDsWithNoPerms := answer (Ok (sc_reposNoPerms sc));
     UserIDsWithOldestPerms := fun limit => answer (Ok (oldest (sc_usersOldest sc) limit));
     ReposIDsWithOldestPerms := fun limit => answer (Ok (oldest (sc_reposOldest sc) limit)) |}.

(** A scenario with no provider, no repository and nobody to sync. *)
Definition quiet : scenario :=
  {| sc_mapping := false; sc_now := 50; sc_providers := [];
     sc_repos := Ok []; sc_repoGrants := Ok [];
     sc_accounts := []; sc_services := [];
     sc_names := fun _ => Ok [];
     sc_usersNoPerms := []; sc_reposNoPerms := [];
     sc_usersOldest := []; sc_reposOldest := [] |}.

(** Three requests for the user 7: low priority in 100ns, high priority in
    50ns, low priority as soon as possible. *)
Definition requestsForUser7 : list requestMeta :=
  [ {| Priority := priorityLow; Typ := requestTypeUser; ID := 7;
       NextSyncAt := 100; NoPerms := false |};
    {| Priority := priorityHigh; Typ := requestTypeUser; ID := 7;
       NextSyncAt := 50; NoPerms := false |};
    {| Priority := priorityLow; Typ := requestTypeUser; ID := 7;
       NextSyncAt := GoTime.zero; NoPerms := false |} ].

(** The entry scheduled for a user, or a repository, never synced, and
    the entry for one of those synced longest ago. *)
Definition neverSyncedUser (id : Z) : scheduledUser :=
  {| su_priority := priorityLow; su_userID := id;
     su_nextSyncAt := GoTime.zero; su_noPerms := true |}.

Definition neverSyncedRepo (id : Z) : scheduledRepo :=
  {| sr_priority := priorityLow; sr_repoID := id;
     sr_nextSyncAt := GoTime.zero; sr_noPerms := true |}.

Definition oldestUser (row : Z * GoTime.Time) : scheduledUser :=
  {| su_priority := priorityLow; su_userID := fst row;
     su_nextSyncAt := snd row; su_noPerms := false |}.

Definition oldestRepo (row : Z * GoTime.Time) : scheduledRepo :=
  {| sr_priority := priorityLow; sr_repoID := fst row;
     sr_nextSyncAt := snd row; sr_noPerms := false |}.

(* ===================================================================== *)
(** * Reading the log of a run *)
(* ===================================================================== *)

(** The errors that end a sync of a user who already has permissions:
    neither unauthorized, nor account suspended, nor forbidden. *)
Definition isFatalFetchError (e : error) : bool :=
  negb (IsUnauthorized e || IsAccountSuspended e || IsForbidden e).

(** Whether a first sync keeps what a fetch returned along with [err]. *)
Definition keptByFirstSync (err : option error) : bool :=
  match err with
  | None => true
  | Some e => isFatalFetchError e
  end.

(** What a first sync collects from a logged fetch. *)
Definition fetchedBy (pick : ExternalUserPermissions -> list string) (c : Call)
  : list ExternalRepoSpec :=
  match c with
  | CFetchUserPerms st sid _ (Some x) err =>
      if keptByFirstSync err then map (specFor st sid) (pick x) else []
  | CFetchUserPermsByToken st sid _ (Some x) None => map (specFor st sid) (pick x)
  | _ => []
  end.

Definition collectedBy (l : list Call) : collected :=
  {| repoSpecs := flat_map (fetchedBy Exacts) l;
     includeContainsSpecs := flat_map (fetchedBy IncludeContains) l;
     excludeContainsSpecs := flat_map (fetchedBy ExcludeContains) l |}.

(** The identifiers looked up by exact match, the repositories the lookups
    returned, and the repositories granted directly, as logged. *)
Definition queriedExact (l : list Call) : list ExternalRepoSpec :=
  flat_map (fun c => match c with
                     | CListRepoNames opts _ => opt_ExternalRepos opts
                     | _ => []
                     end) l.

Definition resolvedNames (l : list Call) : list RepoName :=
  flat_map (fun c => match c with
                     | CListRepoNames _ (Ok rs) => rs
                     | _ => []
                     end) l.

Definition directGrants (l : list Call) : list Z :=
  flat_map (fun c => match c with
                     | CListExternalServicePrivateRepoIDsByUserID _ (Ok ids) => ids
                     | _ => []
                     end) l.

Definition isSetUserPermissions (c : Call) : bool :=
  match c with
  | CSetUserPermissions _ _ => true
  | _ => false
  end.

Definition noSetUserPermissions (l : list Call) : Prop :=
  Forall (fun c => isSetUserPermissions c = false) l.

Definition isFetch (c : Call) : bool :=
  match c with
  | CFetchUserPerms _ _ _ _ _ | CFetchUserPermsByToken _ _ _ _ _ => true
  | _ => false
  end.

(** The lookup by prefixes that a run makes once it has collected include
    prefixes. *)
Definition containsOptions (acc : collected) : ReposListOptions :=
  {| opt_IDs := [];
     opt_ExternalRepos := [];
     opt_ExternalRepoIncludeContains := includeContainsSpecs acc;
     opt_ExternalRepoExcludeContains := excludeContainsSpecs acc;
     opt_OnlyPrivate := true |}.

(** The permissions [p] are what the log [l] of the calls made before
    [SetUserPermissions] amounts to: every identifier a fetch returned and
    the run kept was looked up, and the bitmap holds the repositories the
    lookups returned and those granted directly. *)
Definition persisted (p : UserPermissions) (l : list Call) : Prop :=
  up_IDs p = bitmapOf (rn_ID <$> resolvedNames l) ∪ bitmapOf (directGrants l)
  /\ queriedExact l = repoSpecs (collectedBy l)
  /\ (includeContainsSpecs (collectedBy l) <> [] ->
      exists res, In (CListRepoNames (containsOptions (collectedBy l)) res) l)
  /\ noSetUserPermissions l.

(** [post m Q]: every run of [m], from any world, ends with a result and a
    log that satisfy [Q]. *)
Definition post {W A : Type} (m : M W A) (Q : result A -> list Call -> Prop) : Prop :=
  forall w r w' l, m w = (r, w', l) -> Q r l.

(** The run was ended by the error of a fetch of user permissions. *)
Definition fetchAborted {A : Type} (r : result A) : Prop :=
  exists e, r = Err (Wrap e "fetch user permissions").

(** The computation returns normally, whatever its calls return. *)
Definition neverThrows {W A : Type} (m : M W A) : Prop :=
  post m (fun r _ => exists a, r = Ok a).

(** Calls that neither fetch permissions, nor look repositories up, nor
    write the permissions of a user. *)
Definition neutral (c : Call) : bool :=
  match c with
  | CFetchUserPerms _ _ _ _ _ | CFetchUserPermsByToken _ _ _ _ _
  | CListRepoNames _ _ | CSetUserPermissions _ _
  | CListExternalServicePrivateRepoIDsByUserID _ _ => false
  | _ => true
  end.






(** The steps a first sync takes after a fetch succeed: the waits for the
    rate limiter, the updates of the accounts' credentials and the lookups
    of repositories. *)
Definition laterStepsSucceed {W : Type} (env : Env W) : Prop :=
  (forall waitN sid n w,
      rateLimiterRegistry env = Some waitN -> fst (waitN sid n w) = None)
  /\ (forall id w, fst (TouchExpired env id w) = None)
  /\ (forall id w, fst (TouchLastValid env id w) = None)
  /\ (forall opts w, exists rs, fst (ListRepoNames env opts w) = Ok rs).

Definition appendCollected (a b : collected) : collected :=
  {| repoSpecs := repoSpecs a ++ repoSpecs b;
     includeContainsSpecs := includeContainsSpecs a ++ includeContainsSpecs b;
     excludeContainsSpecs := excludeContainsSpecs a ++ excludeContainsSpecs b |}.

Definition isListRepoNames (c : Call) : bool :=
  match c with
  | CListRepoNames _ _ => true
  | _ => false
  end.

(** The calls of the fetch loop: fetches, and neutral ones. *)
Definition fetchOrNeutral (c : Call) : bool := neutral c || isFetch c.

(** [persisted], for the part of the log that follows the lookup of the
    repositories granted directly, [repoIDs]. *)
Definition persistedWith (repoIDs : list Z) (p : UserPermissions) (l : list Call) : Prop :=
  up_IDs p = bitmapOf (rn_ID <$> resolvedNames l) ∪ bitmapOf repoIDs
  /\ queriedExact l = repoSpecs (collectedBy l)
  /\ (includeContainsSpecs (collectedBy l) <> [] ->
      exists res, In (CListRepoNames (containsOptions (collectedBy l)) res) l)
  /\ noSetUserPermissions l
  /\ directGrants l = [].

(** The run made no fetch, or it ended with a call to SetUserPermissions
    and returned what that call returned. *)
Definition savedAfter (ok : UserPermissions -> list Call -> Prop)
  (r : result unit) (l : list Call) : Prop :=
  Forall (fun c => isFetch c = false) l
  \/ exists l0 p x,
       l = l0 ++ [CSetUserPermissions p x]
       /\ r = resultOfError (WrapNil x "set user permissions")
       /\ ok p l0.

(** What [resolveAndSave] does with what was collected, [acc], when the
    lookups succeed: [l0] is the log of the lookups, [p] what is saved. *)
Definition resolved (repoIDs : list Z) (acc : collected) (p : UserPermissions)
  (l0 : list Call) : Prop :=
  up_IDs p = bitmapOf (rn_ID <$> resolvedNames l0) ∪ bitmapOf repoIDs
  /\ queriedExact l0 = repoSpecs acc
  /\ (includeContainsSpecs acc <> [] ->
      exists res, In (CListRepoNames (containsOptions acc) res) l0)
  /\ Forall (fun c => isListRepoNames c = true) l0.

(* ===================================================================== *)
(** * Sample scenarios *)
(* ===================================================================== *)

Definition transientError : error := errorsNew "timeout".

Definition databaseError : error := errorsNew "connection refused".

(** A code host whose provider returns the repository r1 for the account 1
    and times out for any other account and for any token. *)
Definition codeHost : Provider unit :=
  {| ServiceType := "github";
     ServiceID := "https://github.com/";
     URN := "extsvc:github:1";
     FetchAccount := fun _ _ _ => answer (Ok None);
     FetchUserPerms := fun acct =>
       answer (if acct_ID acct =? 1
               then (Some {| Exacts := ["r1"]; IncludeContains := [];
                             ExcludeContains := [] |}, None)
               else (None, Some transientError));
     FetchUserPermsByToken := fun _ => answer (None, Some transientError);
     FetchRepoPerms := fun _ => answer ([], None) |}.

Definition accountAt (id : Z) : Account :=
  {| acct_ID := id;
     acct_UserID := 1;
     acct_Spec := {| spec_ServiceType := "github";
                     spec_ServiceID := "https://github.com/";
                     spec_AccountID := "alice" |};
     acct_Data := "" |}.

(** Every identifier looked up by exact match is the repository 42. *)
Definition namesOf (opts : ReposListOptions) : result (list RepoName) :=
  Ok (map (fun s => {| rn_ID := 42; rn_Name := ers_ID s |}) (opt_ExternalRepos opts)).

(** A user with two external accounts at the code host: the fetch for the
    first succeeds, the fetch for the second times out. *)
Definition twoAccounts : scenario :=
  {| sc_mapping := false; sc_now := 50; sc_providers := [codeHost];
     sc_repos := Ok []; sc_repoGrants := Ok [];
     sc_accounts := [accountAt 1; accountAt 2]; sc_services := [];
     sc_names := namesOf;
     sc_usersNoPerms := []; sc_reposNoPerms := [];
     sc_usersOldest := []; sc_reposOldest := [] |}.

(** The same user, with a database that fails to look repositories up. *)
Definition lookupsFail : scenario :=
  {| sc_mapping := false; sc_now := 50; sc_providers := [codeHost];
     sc_repos := Ok []; sc_repoGrants := Ok [];
     sc_accounts := [accountAt 1; accountAt 2]; sc_services := [];
     sc_names := fun _ => Err databaseError;
     sc_usersNoPerms := []; sc_reposNoPerms := [];
     sc_usersOldest := []; sc_reposOldest := [] |}.


Definition sampleRepo (private : bool) : Repo :=
  {| repo_ID := 5; repo_Name := "gitlab.example.com/secret";
     repo_URI := "gitlab.example.com/secret";
     Private := private;
     ExternalRepo := {| ers_ID := "5"; ers_ServiceType := "gitlab";
                        ers_ServiceID := "https://gitlab.example.com/" |};
     Sources := {[ "extsvc:gitlab:9" := "https://gitlab.example.com/secret.git" ]} |}.

(** One repository, whose only source is not the URN of a provider. *)
Definition oneRepo (private : bool) (grants : result (list Z)) : scenario :=
  {| sc_mapping := false; sc_now := 50; sc_providers := [codeHost];
     sc_repos := Ok [sampleRepo private]; sc_repoGrants := grants;
     sc_accounts := []; sc_services := [];
     sc_names := namesOf;
     sc_usersNoPerms := []; sc_reposNoPerms := [];
     sc_usersOldest := []; sc_reposOldest := [] |}.

(** Three users and two repositories never synced, one user and one
    repository synced long ago. *)
Definition neverSynced : scenario :=
  {| sc_mapping := false; sc_now := 50; sc_providers := [codeHost];
     sc_repos := Ok []; sc_repoGrants := Ok [];
     sc_accounts := []; sc_services := [];
     sc_names := namesOf;
     sc_usersNoPerms := [1; 2; 3]; sc_reposNoPerms := [7; 8];
     sc_usersOldest := [(4, 100)]; sc_reposOldest := [(9, 200)] |}.

(** A queue whose only request is due at 100, while the clock of the
    sample scenarios shows 50. *)
Definition dueLater : requestMeta :=
  {| Priority := priorityLow; Typ := requestTypeRepo; ID := 3;
     NextSyncAt := 100; NoPerms := false |}.

Definition futureQueue : requestQueue :=
  {| heap := [ {| meta := dueLater; acquired := false |} ];
     notifyEnqueue := false |}.


(** The runs of the samples. *)
Definition firstSyncRun : result unit * unit * list Call :=
  syncUserPerms (envOf twoAccounts) 1 true tt.


Definition failedLookupRun : result unit * unit * list Call :=
  syncUserPerms (envOf lookupsFail) 1 true tt.


Definition timedOutFetch : Call :=
  CFetchUserPerms "github" "https://github.com/" (accountAt 2) None
    (Some transientError).


(** What the store of [neverSynced] answers when asked for the 10 oldest. *)
Definition oldestUsers10 : gmap Z GoTime.Time := oldest [(4, 100)] 10.

Definition oldestRepos10 : gmap Z GoTime.Time := oldest [(9, 200)] 10.

(* ===================================================================== *)
(** * Further readings of the scheduler *)
(* ===================================================================== *)

(** The request that [scheduleUsers] enqueues for a scheduled user, and
    [scheduleRepos] for a scheduled repository. *)
Definition userRequest (u : scheduledUser) : requestMeta :=
  {| Priority := su_priority u; Typ := requestTypeUser; ID := su_userID u;
     NextSyncAt := su_nextSyncAt u; NoPerms := su_noPerms u |}.

Definition repoRequest (r : scheduledRepo) : requestMeta :=
  {| Priority := sr_priority r; Typ := requestTypeRepo; ID := sr_repoID r;
     NextSyncAt := sr_nextSyncAt r; NoPerms := sr_noPerms r |}.

(** The elements of a list that a loop reaches before the context is seen
    cancelled. *)
Definition beforeCancel {A : Type} (ctx : context) (l : list A) : list A :=
  match ctx with
  | None => l
  | Some n => take n l
  end.

(** The last provider of a list that has the given key. *)
Definition lastWith {W : Type} (key : Provider W -> string) (k : string)
  (ps : list (Provider W)) : option (Provider W) :=
  find (fun p => String.eqb (key p) k) (rev ps).

(** A scenario whose permission store fails to list the repositories with
    no permissions and to write the permissions of a repository. *)
Definition storeFails (sc : scenario) : Env unit :=
  let env := envOf sc in
  {| PermissionsUserMappingEnabled := PermissionsUserMappingEnabled env;
     EnforceTiers := EnforceTiers env;
     licensingCheckFeatureACLs := licensingCheckFeatureACLs env;
     DisableAutoCodeHostSyncs := DisableAutoCodeHostSyncs env;
     GetProviders := GetProviders env;
     clock := clock env;
     rateLimiterRegistry := rateLimiterRegistry env;
     ListExternalServicePrivateRepoIDsByUserID :=
       ListExternalServicePrivateRepoIDsByUserID env;
     ListExternalServiceUserIDsByRepoID := ListExternalServiceUserIDsByRepoID env;
     UsersGetByID := UsersGetByID env;
     ListExternalAccounts := ListExternalAccounts env;
     UserEmailsListByUser := UserEmailsListByUser env;
     AssociateUserAndSave := AssociateUserAndSave env;
     TouchExpired := TouchExpired env;
     TouchLastValid := TouchLastValid env;
     ExternalServicesList := ExternalServicesList env;
     ExtractToken := ExtractToken env;
     ListRepoNames := ListRepoNames env;
     RepoStoreList := RepoStoreList env;
     SetUserPermissions := SetUserPermissions env;
     TouchRepoPermissions := TouchRepoPermissions env;
     GetUserIDsByExternalAccounts := GetUserIDsByExternalAccounts env;
     Transact := Transact env;
     SetRepoPermissions := fun _ => answer (Some databaseError);
     SetRepoPendingPermissions := SetRepoPendingPermissions env;
     Done := Done env;
     UserIDsWithNoPerms := UserIDsWithNoPerms env;
     RepoIDsWithNoPerms := answer (Err databaseError);
     UserIDsWithOldestPerms := UserIDsWithOldestPerms env;
     ReposIDsWithOldestPerms := ReposIDsWithOldestPerms env |}.

(** The repository that [syncRepoPerms] hands to the provider. *)
Definition repositoryOf (repo : Repo) : Repository :=
  {| URI := repo_URI repo; repository_Spec := ExternalRepo repo |}.

(** A code host that answers 404 to the query of a repository's
    permissions, and one that times out. *)
Definition notFoundError : error :=
  {| unauthorized := false; forbidden := false; accountSuspended := false;
     githubAPICode := Some 404; messages := ["Not Found"] |}.

Definition hostAnswering (answer_ : list string * option error) : Provider unit :=
  {| ServiceType := "gitlab";
     ServiceID := "https://gitlab.example.com/";
     URN := "extsvc:gitlab:9";
     FetchAccount := fun _ _ _ => answer (Ok None);
     FetchUserPerms := fun _ => answer (None, None);
     FetchUserPermsByToken := fun _ => answer (None, None);
     FetchRepoPerms := fun _ => answer answer_ |}.

(** The private sample repository, with its code host registered. *)
Definition hostedRepo (answer_ : list string * option error) : scenario :=
  {| sc_mapping := false; sc_now := 50;
     sc_providers := [codeHost; hostAnswering answer_];
     sc_repos := Ok [sampleRepo true]; sc_repoGrants := Ok [3];
     sc_accounts := []; sc_services := [];
     sc_names := namesOf;
     sc_usersNoPerms := []; sc_reposNoPerms := [];
     sc_usersOldest := []; sc_reposOldest := [] |}.

Definition isTransactionCall (c : Call) : bool :=
  match c with
  | CTransact | CSetRepoPermissions _ _ | CSetRepoPendingPermissions _ _ _
  | CDone _ => true
  | _ => false
  end.

(** The calls of the transaction that ends [syncRepoPerms], with the result
    of the run: the transaction could not be started; or the permissions
    could not be written; or both writes were made.  Once started, the
    transaction is closed by [Done], which decides the result. *)
Inductive transaction (r : result unit) : list Call -> Prop :=
| transaction_not_started (e : error) :
    r = Err (Wrap e "start transaction") ->
    transaction r [CTransact]
| transaction_first_write_failed (p : RepoPermissions) (e : error) (x : option error) :
    r = resultOfError x ->
    transaction r [CTransact; CSetRepoPermissions p (Some e); CDone x]
| transaction_both_writes (p : RepoPermissions) (accounts : Accounts)
    (y x : option error) :
    r = resultOfError x ->
    transaction r [CTransact; CSetRepoPermissions p None;
                   CSetRepoPendingPermissions accounts p y; CDone x].

(** The log of a run of [syncRepoPerms]: calls outside any transaction,
    then at most one transaction, which ends the run. *)
Definition endsWithTransaction (r : result unit) (l : list Call) : Prop :=
  Forall (fun c => isTransactionCall c = false) l
  \/ exists pre tx,
       l = pre ++ tx
       /\ Forall (fun c => isTransactionCall c = false) pre
       /\ transaction r tx.


(** The identifiers of one logged lookup of repository names. *)
Definition batchOf (c : Call) : list ExternalRepoSpec :=
  match c with
  | CListRepoNames opts _ => opt_ExternalRepos opts
  | _ => []
  end.

(** A lookup as [listPrivateRepoNamesByExact] makes them: by identifiers
    only, of private repositories only, with at least one identifier and
    at most [batchSize]. *)
Definition exactLookup (c : Call) : Prop :=
  match c with
  | CListRepoNames opts _ =>
      opts = {| opt_IDs := [];
                opt_ExternalRepos := opt_ExternalRepos opts;
                opt_ExternalRepoIncludeContains := [];
                opt_ExternalRepoExcludeContains := [];
                opt_OnlyPrivate := true |}
      /\ (1 <= length (opt_ExternalRepos opts) <= batchSize)%nat
  | _ => False
  end.

Definition answeredOk (c : Call) : bool :=
  match c with
  | CListRepoNames _ (Err _) => false
  | _ => true
  end.

(** Every lookup but the last is for exactly [batchSize] identifiers. *)
Fixpoint fullBatches (l : list Call) : Prop :=
  match l with
  | [] => True
  | c :: l' =>
      match l' with
      | [] => True
      | _ :: _ => length (batchOf c) = batchSize /\ fullBatches l'
      end
  end.

(** The result of the batched lookup that started with the names [names0],
    against its log and the identifiers [rest] that were not looked up. *)
Definition lookupResult (names0 : list RepoName)
  (r : result (result (list RepoName))) (l : list Call)
  (rest : list ExternalRepoSpec) : Prop :=
  match r with
  | Ok (Ok names) =>
      rest = [] /\ names = names0 ++ resolvedNames l
      /\ Forall (fun c => answeredOk c = true) l
  | Ok (Err e) =>
      exists l0 opts,
        l = l0 ++ [CListRepoNames opts (Err e)]
        /\ Forall (fun c => answeredOk c = true) l0
  | Err _ => False
  end.

(** A logged lookup of repository names is for private repositories only. *)
Definition privateLookup (c : Call) : bool :=
  match c with
  | CListRepoNames opts _ => opt_OnlyPrivate opts
  | _ => true
  end.

(** The result and the log of a run of [syncUserPerms]: the run failed
    without writing the permissions of the user; or its last call wrote
    them, for the repositories that the lookups returned and those granted
    directly, and the run returned what the write returned.  Every lookup
    was for private repositories only. *)
Definition savesLast (r : result unit) (l : list Call) : Prop :=
  Forall (fun c => privateLookup c = true) l
  /\ ((noSetUserPermissions l /\ exists e, r = Err e)
      \/ exists l0 p x,
           l = l0 ++ [CSetUserPermissions p x]
           /\ noSetUserPermissions l0
           /\ r = resultOfError (WrapNil x "set user permissions")
           /\ up_Perm p = Read /\ up_Type p = PermRepos
           /\ up_IDs p
              = bitmapOf (rn_ID <$> resolvedNames l0) ∪ bitmapOf (directGrants l0)).

(** [savesLast], for the part of the run that follows the lookup of the
    repositories granted directly, [repoIDs]. *)
Definition savesLastWith (repoIDs : list Z) (r : result unit) (l : list Call) : Prop :=
  Forall (fun c => privateLookup c = true) l
  /\ ((noSetUserPermissions l /\ exists e, r = Err e)
      \/ exists l0 p x,
           l = l0 ++ [CSetUserPermissions p x]
           /\ noSetUserPermissions l0
           /\ directGrants l0 = []
           /\ r = resultOfError (WrapNil x "set user permissions")
           /\ up_Perm p = Read /\ up_Type p = PermRepos
           /\ up_IDs p = bitmapOf (rn_ID <$> resolvedNames l0) ∪ bitmapOf repoIDs).

(** Where a run of [syncUserPerms] stands between two calls, as far as the
    fetches of user permissions go: nothing is due; the rate limiter of a
    code host was waited for; or the external account [id] is due to be
    marked, as expired or as valid. *)
Inductive fetchState : Type :=
| Idle
| Waited (serviceID : string)
| Due (expired : bool) (id : Z).

(** What is due after the fetch for the external account [id] returned
    [err]. *)
Definition afterFetch (id : Z) (err : option error) : fetchState :=
  match err with
  | None => Due false id
  | Some e =>
      if IsUnauthorized e || IsAccountSuspended e || IsForbidden e
      then Due true id
      else Idle
  end.

(** The log [l], read from the state [st], follows the protocol of the
    fetches: with a rate limiter registry ([limited]), a fetch comes right
    after a wait for one event of the rate limiter of its code host, and
    only then; without one, nothing is waited for.  The fetch for an
    external account is followed at once by the mark that is due, and an
    account is marked at no other time. *)
Fixpoint fetchProtocol (limited : bool) (st : fetchState) (l : list Call) : bool :=
  match l with
  | [] => match st with Due _ _ => false | _ => true end
  | c :: rest =>
      match st with
      | Due expired id =>
          match c with
          | CTouchExpired id' => expired && (id =? id') && fetchProtocol limited Idle rest
          | CTouchLastValid id' =>
              negb expired && (id =? id') && fetchProtocol limited Idle rest
          | _ => false
          end
      | Waited sid =>
          match c with
          | CFetchUserPerms _ sid' acct _ err =>
              String.eqb sid sid'
              && fetchProtocol limited (afterFetch (acct_ID acct) err) rest
          | CFetchUserPermsByToken _ sid' _ _ _ =>
              String.eqb sid sid' && fetchProtocol limited Idle rest
          | _ => false
          end
      | Idle =>
          match c with
          | CWaitN sid n => limited && (n =? 1) && fetchProtocol limited (Waited sid) rest
          | CFetchUserPerms _ _ acct _ err =>
              negb limited && fetchProtocol limited (afterFetch (acct_ID acct) err) rest
          | CFetchUserPermsByToken _ _ _ _ _ =>
              negb limited && fetchProtocol limited Idle rest
          | CTouchExpired _ | CTouchLastValid _ => false
          | _ => fetchProtocol limited Idle rest
          end
      end
  end.

(** Whether the syncer has a rate limiter registry. *)
Definition isLimited {W : Type} (env : Env W) : bool :=
  match rateLimiterRegistry env with
  | Some _ => true
  | None => false
  end.

(** The calls that the protocol of the fetches is about. *)
Definition isProtocolCall (c : Call) : bool :=
  match c with
  | CWaitN _ _ | CFetchUserPerms _ _ _ _ _ | CFetchUserPermsByToken _ _ _ _ _
  | CTouchExpired _ | CTouchLastValid _ => true
  | _ => false
  end.

(** A part of a log that starts and ends with nothing due. *)
Definition idleToIdle (limited : bool) (l : list Call) : Prop :=
  forall l2, fetchProtocol limited Idle (l ++ l2) = fetchProtocol limited Idle l2.

(** The log of a part of a run follows the protocol, and nothing is due at
    the end of a part that did not fail. *)
Definition keepsProtocol {A : Type} (limited : bool) (r : result A) (l : list Call)
  : Prop :=
  fetchProtocol limited Idle l = true
  /\ forall a, r = Ok a -> idleToIdle limited l.

(* ===================================================================== *)
(** * The Perforce provider: accounts, groups and users of a depot *)
(* ===================================================================== *)

Module PerforceProvider.

(** The white space of [unicode.IsSpace], as UTF-8: U+0009 to U+000D,
    U+0020, U+0085, U+00A0, U+1680, U+2000 to U+200A, U+2028, U+2029,
    U+202F, U+205F and U+3000. *)
Definition bytes (l : list Z) : string :=
  string_of_list_ascii (map (fun z => ascii_of_nat (Z.to_nat z)) l).

Definition whiteSpace : list string :=
  map bytes
    [[9]; [10]; [11]; [12]; [13]; [32]; [194; 133]; [194; 160]; [225; 154; 128];
     [226; 128; 128]; [226; 128; 129]; [226; 128; 130]; [226; 128; 131];
     [226; 128; 132]; [226; 128; 133]; [226; 128; 134]; [226; 128; 135];
     [226; 128; 136]; [226; 128; 137]; [226; 128; 138];
     [226; 128; 168]; [226; 128; 169]; [226; 128; 175]; [226; 129; 159];
     [227; 128; 128]].

(** The length of the member of [set] that [s] starts with, if any. *)
Definition startsWith (set : list string) (s : string) : option nat :=
  String.length <$> find (fun e => String.prefix e s) set.

(** [strings.Fields]: the maximal runs of bytes between white space;
    [skip] counts the bytes of a white space character still to pass and
    [cur] is the field being read, reversed. *)
Fixpoint fieldsFrom (skip : nat) (cur : list ascii) (s : string) : list string :=
  let flush (rest : list string) :=
    match cur with
    | [] => rest
    | _ => string_of_list_ascii (rev cur) :: rest
    end in
  match s with
  | EmptyString => flush []
  | String c s' =>
      match skip with
      | S k => fieldsFrom k cur s'
      | O =>
          match startsWith whiteSpace s with
          | Some n => flush (fieldsFrom (n - 1) [] s')
          | None => fieldsFrom O (c :: cur) s'
          end
      end
  end.

Definition Fields (s : string) : list string := fieldsFrom O [] s.

(** Leading members of [set] are dropped, at most [fuel] of them. *)
Fixpoint trimLeftOf (set : list string) (fuel : nat) (s : string) : string :=
  match fuel with
  | O => s
  | S fuel' =>
      match startsWith set s with
      | Some n => trimLeftOf set fuel' (Perforce.dropString n s)
      | None => s
      end
  end.

Definition revString (s : string) : string :=
  string_of_list_ascii (rev (list_ascii_of_string s)).

(** [strings.TrimSpace]: leading white space is dropped, then trailing
    white space. *)
Definition TrimSpace (s : string) : string :=
  let t := trimLeftOf whiteSpace (String.length s) s in
  revString (trimLeftOf (map revString whiteSpace) (String.length t) (revString t)).

(** [strings.Trim s cutset] for a cutset of ASCII bytes. *)
Definition inCutset (cutset : string) (c : ascii) : bool :=
  existsb (Ascii.eqb c) (list_ascii_of_string cutset).

Fixpoint trimLeftBytes (cutset : string) (l : list ascii) : list ascii :=
  match l with
  | [] => []
  | c :: l' => if inCutset cutset c then trimLeftBytes cutset l' else l
  end.

Definition Trim (s cutset : string) : string :=
  let l := rev (trimLeftBytes cutset (rev (list_ascii_of_string s))) in
  string_of_list_ascii (trimLeftBytes cutset l).

Definition tab : string := bytes [9].

(** [extsvc.CodeHost], as far as the provider reads it. *)
Record CodeHost : Type := mkCodeHost {
  ch_ServiceType : string;
  ch_ServiceID : string
}.

(** What a [bufio.Scanner] over the output of a command yields: the lines
    [scanned], the error [errAfter k] that [scanner.Err()] gives once [k]
    lines were yielded, and the error [scannerErr] it gives once
    [scanner.Scan()] returned false. *)
Record Output : Type := mkOutput {
  scanned : list string;
  errAfter : nat -> option error;
  scannerErr : option error
}.

Section Provider.

Context {W : Type}.

(** The Perforce server is the world [W]: [p4Execer] runs a command there.
    [cachedAllUserEmails] is nil until [getAllUserEmails] has succeeded;
    [cachedGroupMembers] is the map that [NewProvider] makes, and holds nil
    (here the empty list) for a group that was found to have no member. *)
Record Provider : Type := mkProvider {
  urn : string;
  codeHost : CodeHost;
  host : string;
  user : string;
  password : string;
  p4Execer : string -> string -> string -> list string -> W -> result Output * W;
  cachedAllUserEmails : option (gmap string string);
  cachedGroupMembers : gmap string (list string)
}.

(** A provider in use: the provider and its server, with the commands
    [executed] so far. *)
Record Run : Type := mkRun {
  provider : Provider;
  server : W;
  executed : list (list string)
}.

(** The collaborators outside the provider: [jsoniter.Marshal] of the
    account data of a user name and an email, [extsvc.IsHostOfRepo], and the
    quoting of the verb q of package fmt. *)
Context (Marshal : string -> string -> result string)
        (IsHostOfRepo : CodeHost -> ExternalRepoSpec -> bool)
        (Quote : string -> string).

Definition get : M Run Run := fun r => (Ok r, r, []).

Definition setProvider (p : Provider) : M Run unit :=
  fun r => (Ok tt, {| provider := p; server := server r; executed := executed r |}, []).

(** [p.p4Execer.P4Exec(ctx, p.host, p.user, p.password, args...)]. *)
Definition P4Exec (args : list string) : M Run (result Output) :=
  fun r =>
    let p := provider r in
    match p4Execer p (host p) (user p) (password p) args (server r) with
    | (res, w') =>
        (Ok res,
         {| provider := p; server := w'; executed := executed r ++ [args] |}, [])
    end.

(** [x, err := f(); if err != nil { return nil, errors.Wrap(err, msg) }]
    for a function of the provider. *)
Definition wrapping {A : Type} (m : M Run A) (msg : string) : M Run A :=
  fun r =>
    match m r with
    | (Err e, r', l) => (Err (Wrap e msg), r', l)
    | x => x
    end.

(** The user name and the email of a line of [p4 users], for a line with
    at least two fields. *)
Definition userOfLine (line : string) : option (string * string) :=
  let fields := Fields line in
  if (length fields <? 2)%nat then None
  else Some (nth 0 fields "", Trim (nth 1 fields "") "<>").

(** The loop of [FetchAccount] over the lines: the account of the first
    line whose email is verified, or the error of marshalling its data. *)
Fixpoint scanAccount (p : Provider) (u : User) (emailSet : gset string)
  (lines : list string) : option (result Account) :=
  match lines with
  | [] => None
  | line :: rest =>
      match userOfLine line with
      | None => scanAccount p u emailSet rest
      | Some (username, email) =>
          if bool_decide (email ∈ emailSet) then
            match Marshal username email with
            | Err e => Some (Err e)
            | Ok accountData =>
                Some (Ok {| acct_ID := 0;
                            acct_UserID := user_ID u;
                            acct_Spec :=
                              {| spec_ServiceType := ch_ServiceType (codeHost p);
                                 spec_ServiceID := ch_ServiceID (codeHost p);
                                 spec_AccountID := email |};
                            acct_Data := accountData |})
            end
          else scanAccount p u emailSet rest
      end
  end.

Definition FetchAccount (u : option User) (verifiedEmails : list string)
  : M Run (option Account) :=
  match u with
  | None => ret None
  | Some u =>
      let emailSet : gset string := list_to_set verifiedEmails in
      out <- orReturn (P4Exec ["users"]) "list users" ;;
      r <- get ;;
      match scanAccount (provider r) u emailSet (scanned out) with
      | Some (Err e) => throw e
      | Some (Ok acct) => ret (Some acct)
      | None =>
          match scannerErr out with
          | Some e => throw (Wrap e "scanner.Err")
          | None => ret None
          end
      end
  end.

(** The loop of [getAllUserEmails] over the lines. *)
Definition scanUserEmails (lines : list string) : gmap string string :=
  foldl (fun userEmails line =>
           match userOfLine line with
           | None => userEmails
           | Some (username, email) => <[username := email]> userEmails
           end) ∅ lines.

Definition getAllUserEmails : M Run (gmap string string) :=
  r <- get ;;
  match cachedAllUserEmails (provider r) with
  | Some cached => ret cached
  | None =>
      out <- orReturn (P4Exec ["users"]) "list users" ;;
      match scannerErr out with
      | Some e => throw (Wrap e "scanner.Err")
      | None =>
          let userEmails := scanUserEmails (scanned out) in
          r <- get ;;
          let p := provider r in
          _ <- setProvider
                 {| urn := urn p; codeHost := codeHost p; host := host p;
                    user := user p; password := password p;
                    p4Execer := p4Execer p;
                    cachedAllUserEmails := Some userEmails;
                    cachedGroupMembers := cachedGroupMembers p |} ;;
          ret userEmails
      end
  end.

(** The names come in the order of the iteration over the map. *)
Definition getAllUsers : M Run (list string) :=
  userEmails <- wrapping getAllUserEmails "get all user emails" ;;
  ret (map_to_list userEmails).*1.

(** The loop of [getGroupMembers] over the lines, [seen] lines into the
    output: the members, and the number of lines yielded when the loop was
    left at [break], if it was. *)
Fixpoint scanMembers (startScan : bool) (seen : nat) (lines : list string)
  (members : list string) : list string * option nat :=
  match lines with
  | [] => (members, None)
  | line :: rest =>
      if negb startScan
      then scanMembers (Perforce.HasPrefix line "Users:") (S seen) rest members
      else if negb (Perforce.HasPrefix line tab) then (members, Some (S seen))
      else scanMembers true (S seen) rest (members ++ [TrimSpace line])
  end.

Definition getGroupMembers (group : string) : M Run (list string) :=
  r <- get ;;
  match cachedGroupMembers (provider r) !! group with
  | Some (m :: ms) => ret (m :: ms)
  | _ =>
      out <- orReturn (P4Exec ["group"; "-o"; group]) "list group members" ;;
      let found := scanMembers false O (scanned out) [] in
      let err := match snd found with
                 | None => scannerErr out
                 | Some k => errAfter out k
                 end in
      match err with
      | Some e => throw (Wrap e "scanner.Err")
      | None =>
          let members := fst found in
          r <- get ;;
          let p := provider r in
          _ <- setProvider
                 {| urn := urn p; codeHost := codeHost p; host := host p;
                    user := user p; password := password p;
                    p4Execer := p4Execer p;
                    cachedAllUserEmails := cachedAllUserEmails p;
                    cachedGroupMembers := <[group := members]> (cachedGroupMembers p) |} ;;
          ret members
      end
  end.

(** The body of the loop of [scanAllUsers] over the lines of
    [p4 protects -a]. *)
Definition scanUsersLine (line : string) (users : gset string) : M Run (gset string) :=
  if Perforce.HasPrefix line "##" then ret users
  else
    let i := Perforce.Index line "##" in
    let line := if -1 <? i then substring 0 (Z.to_nat i) line else line in
    let line := TrimSpace line in
    let fields := Fields line in
    if (length fields <? 5)%nat then ret users
    else
      let level := nth 0 fields "" in
      let typ := nth 1 fields "" in
      let name := nth 2 fields "" in
      let depotMatch := Perforce.TrimRight (nth 4 fields "") "."%char in
      if Perforce.HasPrefix depotMatch "-" then
        if negb (Perforce.canRevokeReadAccess level) then ret users
        else if String.eqb typ "user" then
          if String.eqb name "*" then ret ∅
          else ret (users ∖ {[name]})
        else if String.eqb typ "group" then
          members <- wrapping (getGroupMembers name)
                       ("list members of group " +:+ Quote name) ;;
          ret (users ∖ list_to_set members)
        else ret users
      else
        if negb (Perforce.canGrantReadAccess level) then ret users
        else if String.eqb typ "user" then
          if String.eqb name "*" then
            all <- wrapping getAllUsers "list all users" ;;
            ret (users ∪ list_to_set all)
          else ret (users ∪ {[name]})
        else if String.eqb typ "group" then
          members <- wrapping (getGroupMembers name)
                       ("list members of group " +:+ Quote name) ;;
          ret (users ∪ list_to_set members)
        else ret users.

Definition scanAllUsers (rc : Output) : M Run (gset string) :=
  users <- forEach scanUsersLine (scanned rc) ∅ ;;
  match scannerErr rc with
  | Some e => throw (Wrap e "scanner.Err")
  | None => ret users
  end.

(** The emails come in the order of the iteration over the users. *)
Definition FetchRepoPerms (repo : option Repository) : M Run (list string) :=
  match repo with
  | None => throw (errorsNew "no repository provided")
  | Some repo =>
      r <- get ;;
      if negb (IsHostOfRepo (codeHost (provider r)) (repository_Spec repo)) then
        throw (errorsNew
                 ("not a code host of the repository: want "
                  +:+ Quote (ers_ServiceID (repository_Spec repo))
                  +:+ " but have " +:+ Quote (ch_ServiceID (codeHost (provider r)))))
      else
        rc <- orReturn (P4Exec ["protects"; "-a"; ers_ID (repository_Spec repo)])
                "list ACLs by depot" ;;
        users <- wrapping (scanAllUsers rc) "scanning protects" ;;
        userEmails <- wrapping getAllUserEmails "get all user emails" ;;
        ret (omap (fun name => userEmails !! name) (elements users))
  end.

(** The number of runs of the command [p4 users] among [cmds]. *)
Definition usersRuns (cmds : list (list string)) : nat :=
  length (List.filter (fun c => bool_decide (c = ["users"])) cmds).

(** The line is one of a user whose email is among [emails]. *)
Definition verifiedLine (emails : list string) (line : string) : bool :=
  match userOfLine line with
  | Some (_, email) => bool_decide (email ∈ emails)
  | None => false
  end.

(** What the provider's execer answers to [args] at the server of [r]. *)
Definition answerTo (r : Run) (args : list string) : result Output :=
  let p := provider r in
  fst (p4Execer p (host p) (user p) (password p) args (server r)).

(** The account that [FetchAccount] makes for the user [u] from a user
    name and an email of the server, with the marshalled [data]. *)
Definition accountOf (p : Provider) (u : User) (email data : string) : Account :=
  {| acct_ID := 0;
     acct_UserID := user_ID u;
     acct_Spec := {| spec_ServiceType := ch_ServiceType (codeHost p);
                     spec_ServiceID := ch_ServiceID (codeHost p);
                     spec_AccountID := email |};
     acct_Data := data |}.

(** The result of [FetchAccount] against the answer of the server to
    [p4 users]: the account is made from the first line of a user with a
    verified email; no account means that no line has a verified email and
    that the scanner ended without error. *)
Definition fetchedAccount (p : Provider) (u : User) (emails : list string)
  (answer_ : result Output) (res : result (option Account)) : Prop :=
  match answer_ with
  | Err e => res = Err (Wrap e "list users")
  | Ok out =>
      match res with
      | Ok (Some acct) =>
          exists before line after username email data,
            scanned out = before ++ line :: after
            /\ Forall (fun l => verifiedLine emails l = false) before
            /\ userOfLine line = Some (username, email)
            /\ In email emails
            /\ Marshal username email = Ok data
            /\ acct = accountOf p u email data
      | Ok None =>
          Forall (fun l => verifiedLine emails l = false) (scanned out)
          /\ scannerErr out = None
      | Err e =>
          (exists before line after username email,
              scanned out = before ++ line :: after
              /\ Forall (fun l => verifiedLine emails l = false) before
              /\ userOfLine line = Some (username, email)
              /\ In email emails
              /\ Marshal username email = Err e)
          \/ (Forall (fun l => verifiedLine emails l = false) (scanned out)
              /\ exists e0, scannerErr out = Some e0 /\ e = Wrap e0 "scanner.Err")
      end
  end.

(** What a run of the provider that took [r0] to [r] did with the command
    [p4 users]: it ran it at most once, and not at all when the emails of
    the users were cached in [r0]; emails that were cached are still cached,
    unchanged.  When [strict], the command was not run either if no emails
    are cached in [r]. *)
Definition usersOnce (strict : bool) (r0 r : Run) : Prop :=
  exists cmds,
    executed r = executed r0 ++ cmds
    /\ (usersRuns cmds <= 1)%nat
    /\ (forall m, cachedAllUserEmails (provider r0) = Some m ->
                  cachedAllUserEmails (provider r) = Some m /\ usersRuns cmds = 0%nat)
    /\ (strict = true -> cachedAllUserEmails (provider r) = None ->
        usersRuns cmds = 0%nat).

(** The account IDs are emails that the provider has cached for users of
    the server. *)
Definition emailsOfUsers (r : Run) (extIDs : list string) : Prop :=
  exists userEmails,
    cachedAllUserEmails (provider r) = Some userEmails
    /\ forall id, In id extIDs -> exists name, userEmails !! name = Some id.

(** [usersOnce] after a step that returned [res]: strict unless the step
    failed. *)
Definition usersOnceAfter {A : Type} (r0 : Run) (res : result A) (r : Run) : Prop :=
  usersOnce (match res with Ok _ => true | Err _ => false end) r0 r.

End Provider.

(** A sample server: three users, one group with two of them, and the
    protections of one depot. *)
Definition usersOutput : Output :=
  {| scanned := ["alice <alice@example.com> (Alice) accessed 2020/12/04";
                 "bob <bob@example.com> (Bob) accessed 2020/12/04";
                 "carol <carol@example.com> (Carol) accessed 2020/12/04"];
     errAfter := fun _ => None;
     scannerErr := None |}.

Definition groupOutput (group : string) : Output :=
  {| scanned := if String.eqb group "devs"
                then ["Group:" +:+ tab +:+ "devs"; "Users:";
                      tab +:+ "alice"; tab +:+ "bob"; "Owners:"; tab +:+ "carol"]
                else ["Group:" +:+ tab +:+ group; "Users:"];
     errAfter := fun _ => None;
     scannerErr := None |}.

Definition protectsOutput : Output :=
  {| scanned := ["## protections of the depot";
                 "list user * * -//...";
                 "write group devs * //Sourcegraph/...";
                 "read group interns * //Sourcegraph/...";
                 "write user bob * -//Sourcegraph/...  ## left the team";
                 "read user carol * //Sourcegraph/..."];
     errAfter := fun _ => None;
     scannerErr := None |}.

Definition sampleExecer (host_ user_ password_ : string) (args : list string) (w : unit)
  : result Output * unit :=
  (match args with
   | ["users"] => Ok usersOutput
   | ["group"; "-o"; group] => Ok (groupOutput group)
   | ["protects"; "-a"; _] => Ok protectsOutput
   | _ => Err (errorsNew "unknown command")
   end, w).

Definition sampleProvider : @Provider unit :=
  {| urn := "extsvc:perforce:1";
     codeHost := {| ch_ServiceType := "perforce"; ch_ServiceID := "ssl:p4.example.com:1666" |};
     host := "ssl:p4.example.com:1666";
     user := "admin";
     password := "secret";
     p4Execer := sampleExecer;
     cachedAllUserEmails := None;
     cachedGroupMembers := ∅ |}.

Definition sampleRun : @Run unit :=
  {| provider := sampleProvider; server := tt; executed := [] |}.

Definition sampleMarshal (username email : string) : result string :=
  Ok (username +:+ " " +:+ email).

Definition sameService (c : CodeHost) (spec : ExternalRepoSpec) : bool :=
  String.eqb (ch_ServiceType c) (ers_ServiceType spec)
  && String.eqb (ch_ServiceID c) (ers_ServiceID spec).

Definition sampleDepot : Repository :=
  {| URI := "p4.example.com/Sourcegraph";
     repository_Spec := {| ers_ID := "//Sourcegraph/";
                           ers_ServiceType := "perforce";
                           ers_ServiceID := "ssl:p4.example.com:1666" |} |}.

End PerforceProvider.

(** [triple P m Q]: every run of [m] from a world that satisfies [P] ends
    with a result and in a world that satisfy [Q]. *)
Definition triple {W A : Type} (P : W -> Prop) (m : M W A)
  (Q : result A -> W -> Prop) : Prop :=
  forall w r w' l, P w -> m w = (r, w', l) -> Q r w'.

(** The string has no byte [*], the wildcard of Perforce for the characters
    of one directory. *)
Definition noStar (s : string) : Prop :=
  Forall (fun c => c <> "*"%char) (list_ascii_of_string s).

(** A depot prefix as [FetchUserPerms] returns them: a path with no [*]
    left, followed by the wildcard that matches everything. *)
Definition returnedPrefix (s : string) : Prop :=
  Perforce.Contains s "*" = false
  /\ exists path, s = path +:+ Perforce.wildcardMatchAll.

(*PROOFS*)

(* ===================================================================== *)
(** * Properties of the priority request queue *)
(* ===================================================================== *)

Lemma requestType_eqb_eq (a b : requestType) :
  requestType_eqb a b = true <-> a = b.
Proof.
  destruct a, b; simpl; split; intros H; try discriminate; try reflexivity.
  - apply Z.eqb_eq in H. now subst.
  - inversion H. apply Z.eqb_refl.
Qed.

Lemma key_eqb_eq (a b : requestQueueKey) : key_eqb a b = true <-> a = b.
Proof.
  destruct a as [ta ia], b as [tb ib]. unfold key_eqb. simpl.
  rewrite andb_true_iff, requestType_eqb_eq, Z.eqb_eq.
  split.
  - intros [-> ->]. reflexivity.
  - intros H. inversion H. auto.
Qed.

Lemma key_eqb_refl (k : requestQueueKey) : key_eqb k k = true.
Proof. now apply key_eqb_eq. Qed.

Lemma key_eqb_neq (a b : requestQueueKey) : a <> b -> key_eqb a b = false.
Proof.
  intros H. destruct (key_eqb a b) eqn:E; [|reflexivity].
  apply key_eqb_eq in E. contradiction.
Qed.

Lemma find_none_filter_nil {A : Type} (f : A -> bool) (l : list A) :
  find f l = None <-> List.filter f l = [].
Proof.
  induction l as [|a l IH]; simpl; [tauto|].
  destruct (f a); [split; discriminate|exact IH].
Qed.

Lemma find_some_filter_head {A : Type} (f : A -> bool) (l : list A) (a : A) :
  find f l = Some a -> exists rest, List.filter f l = a :: rest.
Proof.
  induction l as [|b l IH]; simpl; [discriminate|].
  destruct (f b) eqn:E.
  - intros [= ->]. eauto.
  - exact IH.
Qed.

Lemma filter_updateEntry_same (k : requestQueueKey)
  (f : syncRequest -> syncRequest) (l : list syncRequest) :
  (forall r, hasKey k r = true -> hasKey k (f r) = true) ->
  List.filter (hasKey k) (updateEntry k f l) =
  match List.filter (hasKey k) l with
  | [] => []
  | r :: rest => f r :: rest
  end.
Proof.
  intros Hf. induction l as [|r l IH]; simpl; [reflexivity|].
  destruct (hasKey k r) eqn:E; simpl.
  - rewrite (Hf r E). reflexivity.
  - rewrite E. exact IH.
Qed.

Lemma filter_updateEntry_other (k k' : requestQueueKey)
  (f : syncRequest -> syncRequest) (l : list syncRequest) :
  (forall r, hasKey k r = true -> hasKey k (f r) = true) ->
  k' <> k ->
  List.filter (hasKey k') (updateEntry k f l) = List.filter (hasKey k') l.
Proof.
  intros Hf Hne. induction l as [|r l IH]; simpl; [reflexivity|].
  destruct (hasKey k r) eqn:E; simpl.
  - pose proof (Hf r E) as E'. unfold hasKey in *.
    apply key_eqb_eq in E, E'.
    rewrite E, E', (key_eqb_neq k k') by congruence.
    reflexivity.
  - rewrite IH. reflexivity.
Qed.

Lemma find_some_holds {A : Type} (f : A -> bool) (l : list A) (a : A) :
  find f l = Some a -> f a = true.
Proof.
  induction l as [|b l IH]; simpl; [discriminate|].
  destruct (f b) eqn:E; [intros [= <-]; exact E|exact IH].
Qed.

Lemma hasKey_merged (m : requestMeta) (r r0 : syncRequest) (b : bool) :
  hasKey (keyOf m) r = true ->
  hasKey (keyOf m) {| meta := mergeMeta (meta r) m; acquired := b |} = true.
Proof. intros H. exact H. Qed.

Lemma entriesFor_enqueue_other (m : requestMeta) (q : requestQueue)
  (k : requestQueueKey) :
  k <> keyOf m ->
  entriesFor k (snd (enqueue m q)) = entriesFor k q.
Proof.
  intros Hne. unfold enqueue, entriesFor.
  destruct (lookupKey (keyOf m) q) as [r|] eqn:L.
  - destruct (acquired r); [reflexivity|].
    destruct (metaChanged _ _); [|reflexivity]. simpl.
    apply filter_updateEntry_other; [|exact Hne].
    intros r0 _. apply (hasKey_merged m r r0), (find_some_holds _ _ _ L).
  - simpl. rewrite List.filter_app. simpl.
    unfold hasKey at 2. simpl.
    rewrite (key_eqb_neq (keyOf m) k) by congruence.
    apply app_nil_r.
Qed.

Lemma entriesFor_enqueue_new (m : requestMeta) (q : requestQueue) :
  lookupKey (keyOf m) q = None ->
  entriesFor (keyOf m) (snd (enqueue m q)) = [ {| meta := m; acquired := false |} ].
Proof.
  intros L. unfold enqueue, entriesFor. rewrite L. simpl.
  rewrite List.filter_app.
  apply find_none_filter_nil in L. unfold lookupKey in L. rewrite L. simpl.
  unfold hasKey. simpl. rewrite key_eqb_refl. reflexivity.
Qed.

Lemma mergeMeta_unchanged (old new : requestMeta) :
  metaChanged old (mergeMeta old new) = false -> mergeMeta old new = old.
Proof.
  unfold metaChanged, mergeMeta. simpl. intros H.
  apply negb_false_iff, andb_true_iff in H. destruct H as [Hp Ht].
  apply Z.eqb_eq in Ht. destruct old as [p t i n np]. simpl in *.
  rewrite <- Ht. f_equal.
  destruct p, (Priority new); cbv in Hp |- *; congruence.
Qed.

Lemma entriesFor_enqueue_queued (m : requestMeta) (q : requestQueue)
  (r : syncRequest) :
  entriesFor (keyOf m) q = [r] ->
  acquired r = false ->
  entriesFor (keyOf m) (snd (enqueue m q)) =
  [ {| meta := mergeMeta (meta r) m; acquired := false |} ].
Proof.
  intros E Hacq. unfold enqueue.
  destruct (lookupKey (keyOf m) q) as [r'|] eqn:L.
  - destruct (find_some_filter_head _ _ _ L) as [rest Hrest].
    unfold entriesFor in E. rewrite E in Hrest. inversion Hrest; subst r' rest.
    rewrite Hacq.
    destruct (metaChanged (meta r) (mergeMeta (meta r) m)) eqn:C; simpl.
    + unfold entriesFor. simpl.
      rewrite filter_updateEntry_same
        by (intros r0 _; apply (hasKey_merged m r r0), (find_some_holds _ _ _ L)).
      rewrite E, Hacq. reflexivity.
    + apply mergeMeta_unchanged in C. rewrite C.
      unfold entriesFor. rewrite E. destruct r; simpl in *. now subst.
  - apply find_none_filter_nil in L. unfold entriesFor, lookupKey in *.
    rewrite L in E. discriminate.
Qed.

Lemma enqueue_uniqueKeys (m : requestMeta) (q : requestQueue) :
  uniqueKeys q -> uniqueKeys (snd (enqueue m q)).
Proof.
  intros U k.
  destruct (key_eqb k (keyOf m)) eqn:Ek;
    [apply key_eqb_eq in Ek; subst k
    |assert (Hne : k <> keyOf m)
       by (intros ->; rewrite key_eqb_refl in Ek; discriminate)].
  - destruct (lookupKey (keyOf m) q) as [r|] eqn:L.
    + unfold enqueue. rewrite L.
      destruct (acquired r); [apply U|].
      destruct (metaChanged _ _); [|apply U]. simpl.
      unfold entriesFor. simpl.
      rewrite filter_updateEntry_same
        by (intros r0 _; apply (hasKey_merged m r r0), (find_some_holds _ _ _ L)).
      specialize (U (keyOf m)). unfold entriesFor in U.
      destruct (List.filter (hasKey (keyOf m)) (heap q)); simpl in *; lia.
    + rewrite entriesFor_enqueue_new by exact L. simpl. lia.
  - rewrite entriesFor_enqueue_other by exact Hne. apply U.
Qed.

Lemma enqueueAll_uniqueKeys (ms : list requestMeta) (q : requestQueue) :
  uniqueKeys q -> uniqueKeys (enqueueAll ms q).
Proof.
  revert q. induction ms as [|m ms IH]; intros q U; simpl; [exact U|].
  apply IH, enqueue_uniqueKeys, U.
Qed.

Lemma enqueueAll_queued (k : requestQueueKey) (ms : list requestMeta)
  (q : requestQueue) (r : syncRequest) :
  Forall (fun m' => keyOf m' = k) ms ->
  entriesFor k q = [r] ->
  acquired r = false ->
  keyOf (meta r) = k ->
  exists r',
    entriesFor k (enqueueAll ms q) = [r']
    /\ acquired r' = false
    /\ Priority (meta r') = maxPriority (Priority (meta r)) ms
    /\ NextSyncAt (meta r') = earliestTime (NextSyncAt (meta r)) ms.
Proof.
  revert q r. induction ms as [|m ms IH]; intros q r Hall E Hacq Hk.
  - exists r. simpl. auto.
  - pose proof (Forall_inv Hall) as Hm. simpl in Hm.
    pose proof (Forall_inv_tail Hall) as Hms.
    simpl.
    destruct (IH (snd (enqueue m q))
                {| meta := mergeMeta (meta r) m; acquired := false |})
      as (r' & E' & A' & P' & T').
    + exact Hms.
    + rewrite <- Hm. apply entriesFor_enqueue_queued; [|exact Hacq].
      rewrite Hm. exact E.
    + reflexivity.
    + exact Hk.
    + exists r'. repeat split; assumption.
Qed.

(** C1. For every sequence of enqueue calls for one entity, starting with
    the entity not queued and with nothing acquired in between, the queue
    holds exactly one entry for the entity after every call; the entry is
    not acquired, its priority is the highest priority ever enqueued and its
    nextSyncAt is the earliest time ever requested, "not set" coming before
    any set time.  Entries stay unique per (type, id) for every key. *)
Theorem enqueue_same_entity_single_entry
  (q : requestQueue) (m : requestMeta) (ms : list requestMeta) :
  uniqueKeys q ->
  lookupKey (keyOf m) q = None ->
  Forall (fun m' => keyOf m' = keyOf m) ms ->
  uniqueKeys (enqueueAll (m :: ms) q)
  /\ exists r,
       entriesFor (keyOf m) (enqueueAll (m :: ms) q) = [r]
       /\ acquired r = false
       /\ Priority (meta r) = maxPriority (Priority m) ms
       /\ NextSyncAt (meta r) = earliestTime (NextSyncAt m) ms.
Proof.
  intros U L Hall. split.
  - apply enqueueAll_uniqueKeys, U.
  - simpl.
    apply (enqueueAll_queued (keyOf m) ms (snd (enqueue m q))
             {| meta := m; acquired := false |}); auto.
    apply entriesFor_enqueue_new, L.
Qed.

Lemma uniqueKeys_new : uniqueKeys newRequestQueue.
Proof. intros k. simpl. lia. Qed.

(** The three sample requests for the user 7, enqueued on an empty queue,
    leave one entry: high priority, as soon as possible. *)
Lemma enqueue_same_entity_single_entry_witness :
  uniqueKeys newRequestQueue
  /\ lookupKey (requestTypeUser, 7) newRequestQueue = None
  /\ Forall (fun m' => keyOf m' = (requestTypeUser, 7)) (tl requestsForUser7)
  /\ uniqueKeys (enqueueAll requestsForUser7 newRequestQueue)
  /\ exists r,
       entriesFor (requestTypeUser, 7) (enqueueAll requestsForUser7 newRequestQueue) = [r]
       /\ acquired r = false
       /\ Priority (meta r) = priorityHigh
       /\ NextSyncAt (meta r) = GoTime.zero.
Proof.
  assert (H1 : lookupKey (requestTypeUser, 7) newRequestQueue = None) by reflexivity.
  assert (H2 : Forall (fun m' => keyOf m' = (requestTypeUser, 7)) (tl requestsForUser7))
    by (repeat constructor).
  split; [exact uniqueKeys_new|]. split; [exact H1|]. split; [exact H2|].
  exact (enqueue_same_entity_single_entry newRequestQueue
           {| Priority := priorityLow; Typ := requestTypeUser; ID := 7;
              NextSyncAt := 100; NoPerms := false |}
           (tl requestsForUser7) uniqueKeys_new H1 H2).
Defined.

(** "Not set" comes before every time, on either side. *)
Lemma earliest_unset (t : GoTime.Time) :
  earliest GoTime.zero t = GoTime.zero /\ earliest t GoTime.zero = GoTime.zero.
Proof.
  unfold earliest, timeBefore, GoTime.IsZero, GoTime.zero. simpl.
  destruct (t =? 0) eqn:E; simpl; [|auto].
  apply Z.eqb_eq in E. subst. auto.
Qed.

(** Between two set times, the earliest is the minimum. *)
Lemma earliest_set (a b : GoTime.Time) :
  a <> 0 -> b <> 0 -> earliest a b = Z.min a b.
Proof.
  intros Ha Hb. unfold earliest, timeBefore, GoTime.IsZero.
  apply Z.eqb_neq in Ha, Hb. rewrite Ha, Hb.
  destruct (b <? a) eqn:E; [apply Z.ltb_lt in E|apply Z.ltb_ge in E]; lia.
Qed.

(** The highest priority is high as soon as one request is. *)
Lemma maxPriority_high (p : priority) (ms : list requestMeta) :
  maxPriority p ms = priorityHigh
  <-> p = priorityHigh \/ Exists (fun m => Priority m = priorityHigh) ms.
Proof.
  unfold maxPriority. revert p. induction ms as [|m ms IH]; intros p; simpl.
  - split; [auto|]. intros [H|H]; [exact H|inversion H].
  - rewrite IH. rewrite Exists_cons.
    destruct p, (Priority m); cbv [priority_max priority_ltb]; intuition congruence.
Qed.

(* ===================================================================== *)
(** * Properties of the scheduling entry points *)
(* ===================================================================== *)

Ltac run_calls :=
  unfold orReturn, orReturnErr, bind, call, ret, throw; simpl.

Section SyncerFacts.

Context {W : Type} (env : Env W).

Lemma providersByServiceID_nil :
  GetProviders env = [] -> size (providersByServiceID env) = 0%nat.
Proof.
  intros H. unfold providersByServiceID. rewrite H. simpl. apply map_size_empty.
Qed.

Lemma isDisabled_when :
  PermissionsUserMappingEnabled env = true
  \/ GetProviders env = []
  \/ (EnforceTiers env = true /\ licensingCheckFeatureACLs env <> None)
  \/ DisableAutoCodeHostSyncs env = true ->
  isDisabled env = true.
Proof.
  unfold isDisabled. intros [H|[H|[[H1 H2]|H]]].
  - rewrite H. reflexivity.
  - rewrite (providersByServiceID_nil H). simpl.
    rewrite orb_true_r. reflexivity.
  - rewrite H1, (bool_decide_eq_true_2 _ H2). simpl.
    rewrite orb_true_r. reflexivity.
  - rewrite H. apply orb_true_r.
Qed.

(** C10. A call to ScheduleUsers or ScheduleRepos with an empty list of
    identifiers, or made while syncing is disabled (permissions user mapping
    enabled, no authorization provider configured, the license check failing
    under enforced tiers, or disableAutoCodeHostSyncs set), returns the
    queue as it was: entries and pending signal unchanged. *)
Theorem Schedule_empty_or_disabled_leaves_queue
  (ctx : context) (ids : list Z) (q : requestQueue) :
  ids = []
  \/ PermissionsUserMappingEnabled env = true
  \/ GetProviders env = []
  \/ (EnforceTiers env = true /\ licensingCheckFeatureACLs env <> None)
  \/ DisableAutoCodeHostSyncs env = true ->
  ScheduleUsers env ctx ids q = q /\ ScheduleRepos env ctx ids q = q.
Proof.
  intros [->|H].
  - split; reflexivity.
  - apply isDisabled_when in H. unfold ScheduleUsers, ScheduleRepos.
    rewrite H. split; destruct (length ids =? 0)%nat; reflexivity.
Qed.

(* ===================================================================== *)
(** * Properties of the sync executor *)
(* ===================================================================== *)

Lemma lookupKey_remove (typ : requestType) (id : Z) (b : bool) (q : requestQueue) :
  lookupKey (typ, id) (remove typ id b q) = None.
Proof.
  unfold lookupKey, remove. simpl. apply find_none_filter_nil.
  induction (heap q) as [|r l IH]; simpl; [reflexivity|].
  destruct (hasKey (typ, id) r) eqn:E; simpl; [exact IH|].
  rewrite E. exact IH.
Qed.

(** C4. After [syncPerms] returns, the request is no longer in the queue:
    no entry is left under its (type, id), whatever the type of the request
    (user, repository or unrecognised) and whether the sync it dispatched to
    returned an error or not. *)
Theorem syncPerms_removes_request (request : syncRequest) (s : @PermsSyncer W) :
  lookupKey (keyOf (meta request)) (queue (snd (syncPerms env request s))) = None
  /\ entriesFor (keyOf (meta request)) (queue (snd (syncPerms env request s))) = [].
Proof.
  assert (L : lookupKey (keyOf (meta request))
                (queue (snd (syncPerms env request s))) = None).
  { unfold syncPerms. cbv zeta.
    match goal with
    | |- context [match ?x with (_, _) => _ end] => destruct x as [[r w'] l]
    end.
    simpl. apply lookupKey_remove. }
  split; [exact L|].
  apply find_none_filter_nil. exact L.
Qed.







(* ===================================================================== *)
(** * Properties of the repository-centric sync *)
(* ===================================================================== *)

(** C9. When the repository store lists no repository for the ID,
    [syncRepoPerms] returns nil and the only call it has made is that
    listing: no write to the permission store, no TouchRepoPermissions. *)
Theorem syncRepoPerms_unknown_repo (repoID : Z) (noPerms : bool) (w w' : W) :
  RepoStoreList env (optionsByID repoID) w = (Ok [], w') ->
  syncRepoPerms env repoID noPerms w
  = (Ok tt, w', [CRepoStoreList (optionsByID repoID)]).
Proof.
  intros H. unfold syncRepoPerms. run_calls. rewrite H. reflexivity.
Qed.

Lemma firstProvider_none (providers : gmap string (Provider W)) (urns : list string) :
  (forall urn, In urn urns -> providers !! urn = None) ->
  firstProvider providers urns = None.
Proof.
  induction urns as [|u urns IH]; intros H; simpl; [reflexivity|].
  rewrite (H u) by (left; reflexivity).
  apply IH. intros urn Hin. apply H. right. exact Hin.
Qed.

Lemma firstProvider_no_source (repo : Repo) :
  (forall urn, is_Some (Sources repo !! urn) -> providersByURNs env !! urn = None) ->
  firstProvider (providersByURNs env) (map_to_list (Sources repo)).*1 = None.
Proof.
  intros H. apply firstProvider_none. intros urn Hin.
  apply H. apply list_elem_of_In in Hin.
  apply list_elem_of_fmap in Hin. destruct Hin as [[k v] [-> Hkv]].
  apply elem_of_map_to_list in Hkv. simpl. eauto.
Qed.

(** C6, as the code has it.  For a repository that is not private,
    [syncRepoPerms] lists the repository, calls TouchRepoPermissions once
    and returns what that call returned; it makes no other call.  For a
    private repository none of whose sources is the URN of a provider, it
    does the same after the lookup of the users with direct access, when
    that lookup succeeds; when the lookup fails it returns the error and
    the permission store is not called. *)
Theorem syncRepoPerms_touches_without_provider
  (repoID : Z) (noPerms : bool) (w w1 : W) (repo : Repo) (rest : list Repo) :
  RepoStoreList env (optionsByID repoID) w = (Ok (repo :: rest), w1) ->
  (Private repo = false ->
   forall e w2,
     TouchRepoPermissions env repoID w1 = (e, w2) ->
     syncRepoPerms env repoID noPerms w
     = (resultOfError (WrapNil e "touch repository permissions"), w2,
        [CRepoStoreList (optionsByID repoID); CTouchRepoPermissions repoID e]))
  /\ (Private repo = true ->
      (forall urn, is_Some (Sources repo !! urn) -> providersByURNs env !! urn = None) ->
      (forall ids w2 e w3,
         ListExternalServiceUserIDsByRepoID env repoID w1 = (Ok ids, w2) ->
         TouchRepoPermissions env repoID w2 = (e, w3) ->
         syncRepoPerms env repoID noPerms w
         = (resultOfError (WrapNil e "touch repository permissions"), w3,
            [CRepoStoreList (optionsByID repoID);
             CListExternalServiceUserIDsByRepoID repoID;
             CTouchRepoPermissions repoID e]))
      /\ (forall e w2,
            ListExternalServiceUserIDsByRepoID env repoID w1 = (Err e, w2) ->
            syncRepoPerms env repoID noPerms w
            = (Err (Wrap e "list external service user IDs by repo ID"), w2,
               [CRepoStoreList (optionsByID repoID);
                CListExternalServiceUserIDsByRepoID repoID]))).
Proof.
  intros HL. split.
  - intros Hpub e w2 HT. unfold syncRepoPerms, touchAndReturn. run_calls.
    rewrite HL, Hpub. simpl. rewrite HT. destruct e; reflexivity.
  - intros Hpriv Hnone. split.
    + intros ids w2 e w3 HG HT. unfold syncRepoPerms, touchAndReturn. run_calls.
      rewrite HL, Hpriv. simpl. rewrite HG. simpl.
      rewrite (firstProvider_no_source repo Hnone). simpl.
      rewrite HT. destruct e; reflexivity.
    + intros e w2 HG. unfold syncRepoPerms. run_calls.
      rewrite HL, Hpriv. simpl. rewrite HG. reflexivity.
Qed.

(* ===================================================================== *)
(** * Properties of the periodic scheduler *)
(* ===================================================================== *)

(** C7. With syncing enabled, a tick computes the schedule and enqueues it.
    [schedule] queries the store in this order: users with no permissions,
    repositories with no permissions, the users then the repositories with
    the oldest permissions, both with the limit 10.  Every entry it produces
    has low priority; the never-synced ones have nextSyncAt not set and the
    noPerms flag, the oldest ones the time stored for them and no flag; and
    with a store that honours the limit there are at most 10 oldest users
    and at most 10 oldest repositories. *)
Theorem schedule_four_lists (w w1 w2 w3 w4 : W) (ids1 ids2 : list Z)
  (m3 m4 : gmap Z GoTime.Time) :
  UserIDsWithNoPerms env w = (Ok ids1, w1) ->
  RepoIDsWithNoPerms env w1 = (Ok ids2, w2) ->
  UserIDsWithOldestPerms env 10 w2 = (Ok m3, w3) ->
  ReposIDsWithOldestPerms env 10 w3 = (Ok m4, w4) ->
  (size m3 <= 10)%nat ->
  (size m4 <= 10)%nat ->
  let sch :=
    {| Users := map neverSyncedUser ids1 ++ map oldestUser (map_to_list m3);
       Repos := map neverSyncedRepo ids2 ++ map oldestRepo (map_to_list m4) |} in
  schedule env w
  = (Ok sch, w4,
     [CUserIDsWithNoPerms; CRepoIDsWithNoPerms;
      CUserIDsWithOldestPerms 10; CReposIDsWithOldestPerms 10])
  /\ Forall (fun u => su_priority u = priorityLow) (Users sch)
  /\ Forall (fun r => sr_priority r = priorityLow) (Repos sch)
  /\ (length (map oldestUser (map_to_list m3)) <= 10)%nat
  /\ (length (map oldestRepo (map_to_list m4)) <= 10)%nat
  /\ (forall (ctx : context) (s : @PermsSyncer W),
        isDisabled env = false ->
        world s = w ->
        queue (runScheduleTick env ctx s)
        = scheduleRepos (ctxAfter ctx (length (Users sch))) (Repos sch)
            (scheduleUsers ctx (Users sch) (queue s))).
Proof.
  intros H1 H2 H3 H4 S3 S4 sch.
  assert (E : schedule env w
              = (Ok sch, w4,
                 [CUserIDsWithNoPerms; CRepoIDsWithNoPerms;
                  CUserIDsWithOldestPerms 10; CReposIDsWithOldestPerms 10])).
  { unfold schedule, scheduleUsersWithNoPerms, scheduleReposWithNoPerms,
      scheduleUsersWithOldestPerms, scheduleReposWithOldestPerms, limit.
    run_calls. rewrite H1. simpl. rewrite H2. simpl. rewrite H3. simpl.
    rewrite H4. reflexivity. }
  split; [exact E|].
  split.
  { apply Forall_app; split; apply List.Forall_forall; intros u Hu;
      apply in_map_iff in Hu; destruct Hu as [x [<- _]]; reflexivity. }
  split.
  { apply Forall_app; split; apply List.Forall_forall; intros u Hu;
      apply in_map_iff in Hu; destruct Hu as [x [<- _]]; reflexivity. }
  split.
  { rewrite length_map, length_map_to_list. exact S3. }
  split.
  { rewrite length_map, length_map_to_list. exact S4. }
  intros ctx s Hen Hw. unfold runScheduleTick. rewrite Hen, Hw, E. reflexivity.
Qed.

End SyncerFacts.

(* ===================================================================== *)
(** * Properties of the Perforce provider *)
(* ===================================================================== *)

Module PerforceFacts.

Import Perforce.

Lemma excludeLoop_no_prefix (d : string) (i : nat) (rest inc exc : list string) :
  (forall p, In p rest -> HasPrefix d p = false) ->
  excludeLoop d i rest inc exc = (inc, exc).
Proof.
  revert i. induction rest as [|p rest IH]; intros i H; simpl; [reflexivity|].
  rewrite (H p) by (left; reflexivity). simpl.
  apply IH. intros q Hq. apply H. right. exact Hq.
Qed.

Lemma excludeLoop_first_prefix (d : string) (i : nat) (l1 : list string)
  (p : string) (l2 inc exc : list string) :
  (forall x, In x l1 -> HasPrefix d x = false) ->
  HasPrefix d p = true ->
  excludeLoop d i (l1 ++ p :: l2) inc exc
  = if String.eqb d p
    then (take (i + length l1) inc ++ drop (S (i + length l1)) inc, exc)
    else (inc, exc ++ [d]).
Proof.
  revert i. induction l1 as [|x l1 IH]; intros i Hno Hp; simpl.
  - rewrite Hp. simpl. rewrite Nat.add_0_r. reflexivity.
  - rewrite (Hno x) by (left; reflexivity). simpl.
    rewrite IH; [|intros y Hy; apply Hno; right; exact Hy|exact Hp].
    replace (S i + length l1)%nat with (i + S (length l1))%nat by lia.
    reflexivity.
Qed.

(** C8, as the code has it.  An exclusion whose path contains a wildcard is
    always appended to the exclude list.  For one without a wildcard the
    include prefixes are visited in order and the first that is a prefix of
    the path decides: when it is equal to the path, that include is taken
    out of the include list; otherwise the path is appended to the exclude
    list.  When no include is a prefix of the path, the exclusion is
    dropped. *)
Theorem applyExclusion_first_prefix_decides (d : string) (inc exc : list string) :
  (isWildcard d = true -> applyExclusion d inc exc = (inc, exc ++ [d]))
  /\ (isWildcard d = false ->
      (forall p, In p inc -> HasPrefix d p = false) ->
      applyExclusion d inc exc = (inc, exc))
  /\ (isWildcard d = false ->
      forall l1 p l2,
        inc = l1 ++ p :: l2 ->
        (forall x, In x l1 -> HasPrefix d x = false) ->
        HasPrefix d p = true ->
        applyExclusion d inc exc
        = if String.eqb d p then (l1 ++ l2, exc) else (inc, exc ++ [d])).
Proof.
  unfold applyExclusion. split; [|split].
  - intros ->. reflexivity.
  - intros -> H. apply excludeLoop_no_prefix, H.
  - intros -> l1 p l2 -> Hno Hp.
    rewrite excludeLoop_first_prefix by assumption.
    destruct (String.eqb d p); [|reflexivity].
    simpl. rewrite take_app_length.
    replace (S (length l1)) with (length (l1 ++ [p])) by (rewrite length_app; simpl; lia).
    replace (l1 ++ p :: l2) with ((l1 ++ [p]) ++ l2) by (rewrite <- app_assoc; reflexivity).
    rewrite drop_app_length. reflexivity.
Qed.

(** A rule of the protections table that excludes a path, at a level that
    can revoke read access, goes through [applyExclusion]. *)
Lemma scanLine_exclusion (line level path : string) (f1 f2 f3 : string)
  (more : list string) (inc exc : list string) :
  HasPrefix line "##" = false ->
  Index line "##" = -1 ->
  Fields line = level :: f1 :: f2 :: f3 :: path :: more ->
  HasPrefix (normalize path) "-" = true ->
  scanLine line (inc, exc)
  = if canRevokeReadAccess level
    then applyExclusion (dropString 1 (normalize path)) inc exc
    else (inc, exc).
Proof.
  intros H1 H2 H3 H4. unfold scanLine. cbv zeta. rewrite H1, H2.
  change (-1 <? -1) with false. cbv iota. rewrite H3.
  cbn [length Nat.ltb Nat.leb nth]. rewrite H4.
  destruct (canRevokeReadAccess level); reflexivity.
Qed.

End PerforceFacts.

(* ===================================================================== *)
(** * Rules for the runs of a computation *)
(* ===================================================================== *)

Section PostRules.

Context {W : Type}.

Lemma post_ret {A : Type} (a : A) (Q : result A -> list Call -> Prop) :
  Q (Ok a) [] -> post (@ret W A a) Q.
Proof. intros H w r w' l E. inversion E; subst. exact H. Qed.

Lemma post_throw {A : Type} (e : error) (Q : result A -> list Call -> Prop) :
  Q (Err e) [] -> post (@throw W A e) Q.
Proof. intros H w r w' l E. inversion E; subst. exact H. Qed.

Lemma post_conseq {A : Type} (m : M W A) (Q Q' : result A -> list Call -> Prop) :
  post m Q -> (forall r l, Q r l -> Q' r l) -> post m Q'.
Proof. intros H HQ w r w' l E. apply HQ, (H w r w' l E). Qed.

Lemma post_bind {A B : Type} (m : M W A) (f : A -> M W B)
  (Q1 : result A -> list Call -> Prop) (Q : result B -> list Call -> Prop) :
  post m Q1 ->
  (forall e l1, Q1 (Err e) l1 -> Q (Err e) l1) ->
  (forall a l1, Q1 (Ok a) l1 -> post (f a) (fun r l2 => Q r (l1 ++ l2))) ->
  post (bind m f) Q.
Proof.
  intros Hm He Hf w r w' l E. unfold bind in E.
  destruct (m w) as [[ra w1] l1] eqn:Em.
  pose proof (Hm _ _ _ _ Em) as H1.
  destruct ra as [a|e].
  - destruct (f a w1) as [[rb w2] l2] eqn:Ef.
    inversion E; subst. exact (Hf a l1 H1 _ _ _ _ Ef).
  - inversion E; subst. apply He, H1.
Qed.

(** A call followed by the rest of the function. *)
Lemma post_bind_call {A B : Type} (ev : A -> Call) (op : W -> A * W)
  (f : A -> M W B) (Q : result B -> list Call -> Prop) :
  (forall a w w', op w = (a, w') -> post (f a) (fun r l => Q r (ev a :: l))) ->
  post (bind (call ev op) f) Q.
Proof.
  intros Hf w r w' l E. unfold bind, call in E.
  destruct (op w) as [a w1] eqn:Eo.
  destruct (f a w1) as [[rb w2] l2] eqn:Ef.
  inversion E; subst. exact (Hf a w w1 Eo _ _ _ _ Ef).
Qed.

(** [x, err := f(); if err != nil { return errors.Wrap(err, msg) }; rest]. *)
Lemma post_bind_orReturn {A B : Type} (m : M W (result A)) (msg : string)
  (f : A -> M W B) (Q1 : result (result A) -> list Call -> Prop)
  (Q : result B -> list Call -> Prop) :
  post m Q1 ->
  (forall e l1, Q1 (Err e) l1 -> Q (Err e) l1) ->
  (forall e l1, Q1 (Ok (Err e)) l1 -> Q (Err (Wrap e msg)) l1) ->
  (forall a l1, Q1 (Ok (Ok a)) l1 -> post (f a) (fun r l2 => Q r (l1 ++ l2))) ->
  post (bind (orReturn m msg) f) Q.
Proof.
  intros Hm He Hw Hf. apply (post_bind _ _ (fun r l => match r with
                                                       | Ok a => Q1 (Ok (Ok a)) l
                                                       | Err e => Q (Err e) l
                                                       end)).
  - unfold orReturn. apply (post_bind _ _ Q1); [exact Hm|exact He|].
    intros [a|e] l1 H1.
    + apply post_ret. rewrite app_nil_r. exact H1.
    + apply post_throw. rewrite app_nil_r. apply Hw, H1.
  - intros e l1 H. exact H.
  - intros a l1 H. apply Hf, H.
Qed.

Lemma post_bind_orReturn_call {A B : Type} (ev : result A -> Call)
  (op : W -> result A * W) (msg : string) (f : A -> M W B)
  (Q : result B -> list Call -> Prop) :
  (forall e w w', op w = (Err e, w') -> Q (Err (Wrap e msg)) [ev (Err e)]) ->
  (forall a w w', op w = (Ok a, w') -> post (f a) (fun r l => Q r (ev (Ok a) :: l))) ->
  post (bind (orReturn (call ev op) msg) f) Q.
Proof.
  intros He Hf.
  apply (post_bind_orReturn _ _ _
           (fun r l => exists x w w', op w = (x, w') /\ r = Ok x /\ l = [ev x])).
  - intros w r w' l E. unfold call in E. destruct (op w) as [x w1] eqn:Eo.
    inversion E; subst. exists x, w, w'. auto.
  - intros e l1 (x & w & w' & _ & Hr & _). discriminate.
  - intros e l1 (x & w & w' & Eo & Hr & ->). inversion Hr; subst. eapply He, Eo.
  - intros a l1 (x & w & w' & Eo & Hr & ->). inversion Hr; subst.
    simpl. eapply Hf, Eo.
Qed.

(** [if err := f(); err != nil { return errors.Wrap(err, msg) }; rest]. *)
Lemma post_bind_orReturnErr {B : Type} (m : M W (option error)) (msg : string)
  (f : unit -> M W B) (Q1 : result (option error) -> list Call -> Prop)
  (Q : result B -> list Call -> Prop) :
  post m Q1 ->
  (forall e l1, Q1 (Err e) l1 -> Q (Err e) l1) ->
  (forall e l1, Q1 (Ok (Some e)) l1 -> Q (Err (Wrap e msg)) l1) ->
  (forall l1, Q1 (Ok None) l1 -> post (f tt) (fun r l2 => Q r (l1 ++ l2))) ->
  post (bind (orReturnErr m msg) f) Q.
Proof.
  intros Hm He Hw Hf. apply (post_bind _ _ (fun r l => match r with
                                                       | Ok _ => Q1 (Ok None) l
                                                       | Err e => Q (Err e) l
                                                       end)).
  - unfold orReturnErr. apply (post_bind _ _ Q1); [exact Hm|exact He|].
    intros [e|] l1 H1.
    + apply post_throw. rewrite app_nil_r. apply Hw, H1.
    + apply post_ret. rewrite app_nil_r. exact H1.
  - intros e l1 H. exact H.
  - intros [] l1 H. apply Hf, H.
Qed.

Lemma post_bind_orReturnErr_call {B : Type} (ev : option error -> Call)
  (op : W -> option error * W) (msg : string) (f : unit -> M W B)
  (Q : result B -> list Call -> Prop) :
  (forall e w w', op w = (Some e, w') -> Q (Err (Wrap e msg)) [ev (Some e)]) ->
  (forall w w', op w = (None, w') -> post (f tt) (fun r l => Q r (ev None :: l))) ->
  post (bind (orReturnErr (call ev op) msg) f) Q.
Proof.
  intros He Hf.
  apply (post_bind_orReturnErr _ _ _
           (fun r l => exists x w w', op w = (x, w') /\ r = Ok x /\ l = [ev x])).
  - intros w r w' l E. unfold call in E. destruct (op w) as [x w1] eqn:Eo.
    inversion E; subst. exists x, w, w'. auto.
  - intros e l1 (x & w & w' & _ & Hr & _). discriminate.
  - intros e l1 (x & w & w' & Eo & Hr & ->). inversion Hr; subst. eapply He, Eo.
  - intros l1 (x & w & w' & Eo & Hr & ->). inversion Hr; subst.
    simpl. eapply Hf, Eo.
Qed.

(** A loop, with an invariant on the accumulator and the log so far. *)
Lemma post_forEach {A S : Type} (body : A -> S -> M W S) (Inv : S -> list Call -> Prop)
  (Q : result S -> list Call -> Prop) (items : list A) :
  (forall a s l1, In a items -> Inv s l1 ->
     post (body a s) (fun r l2 => match r with
                                  | Ok s' => Inv s' (l1 ++ l2)
                                  | Err e => Q (Err e) (l1 ++ l2)
                                  end)) ->
  (forall s l, Inv s l -> Q (Ok s) l) ->
  forall s l1, Inv s l1 -> post (forEach body items s) (fun r l2 => Q r (l1 ++ l2)).
Proof.
  intros Hbody Hend. induction items as [|a items IH]; intros s l1 HI; simpl.
  - apply post_ret. rewrite app_nil_r. apply Hend, HI.
  - apply (post_bind _ _ (fun r l2 => match r with
                                      | Ok s' => Inv s' (l1 ++ l2)
                                      | Err e => Q (Err e) (l1 ++ l2)
                                      end)).
    + apply Hbody; [left; reflexivity|exact HI].
    + intros e l2 H. exact H.
    + intros s' l2 H.
      assert (IH' : forall s l1, Inv s l1 ->
                post (forEach body items s) (fun r l2 => Q r (l1 ++ l2))).
      { apply IH. intros a0 s0 l0 Hin. apply Hbody. right. exact Hin. }
      eapply post_conseq; [apply (IH' s' (l1 ++ l2) H)|].
      intros r l. simpl. rewrite app_assoc. auto.
Qed.

End PostRules.

(* ===================================================================== *)
(** * Properties of the user-centric sync *)
(* ===================================================================== *)

Lemma not_fetchAborted_Wrap {A : Type} (e : error) (msg : string) :
  msg <> "fetch user permissions" -> ~ @fetchAborted A (Err (Wrap e msg)).
Proof.
  intros Hne [e0 H]. inversion H. contradiction.
Qed.

Lemma not_fetchAborted_Ok {A : Type} (a : A) : ~ fetchAborted (Ok a).
Proof. intros [e0 H]. discriminate. Qed.

Section UserSync.

Context {W : Type} (env : Env W).

Lemma waitForRateLimit_neverThrows (serviceID : string) (n : Z) :
  neverThrows (waitForRateLimit env serviceID n).
Proof.
  unfold neverThrows, waitForRateLimit.
  destruct (rateLimiterRegistry env) as [waitN|].
  - intros w r w' l E. unfold call in E. destruct (waitN serviceID n w).
    inversion E; subst. eauto.
  - apply post_ret. eauto.
Qed.

Lemma listExactLoop_neverThrows (fuel : nat) (remaining : list ExternalRepoSpec)
  (nextCut : nat) (repoNames : list RepoName) :
  neverThrows (listExactLoop env fuel remaining nextCut repoNames).
Proof.
  unfold neverThrows. revert remaining nextCut repoNames.
  induction fuel as [|fuel IH]; intros remaining nextCut repoNames;
    destruct nextCut as [|n]; simpl; try (apply post_ret; eauto).
  apply post_bind_call. intros [rs|e] w w' _.
  - eapply post_conseq; [apply IH|]. intros r l H. exact H.
  - apply post_ret. eauto.
Qed.

Lemma listPrivateRepoNamesByExact_neverThrows (specs : list ExternalRepoSpec) :
  neverThrows (listPrivateRepoNamesByExact env specs).
Proof.
  unfold listPrivateRepoNamesByExact. destruct specs as [|x specs].
  - apply post_ret. eauto.
  - apply listExactLoop_neverThrows.
Qed.

Lemma discoverAccount_neverThrows (user : User) (emails : list string)
  (known : gmap string Account) (provider : Provider W) (accts : list Account) :
  neverThrows (discoverAccount env user emails known provider accts).
Proof.
  unfold neverThrows, discoverAccount.
  destruct (known !! _); [apply post_ret; eauto|].
  apply post_bind_call. intros [[acct|]|e] w w' _; try (apply post_ret; eauto).
  apply post_bind_call. intros [e|] w1 w1' _; apply post_ret; eauto.
Qed.

Lemma discoverAccounts_neverThrows (user : User) (emails : list string)
  (known : gmap string Account) (providers : list (Provider W)) (accts : list Account) :
  neverThrows (forEach (discoverAccount env user emails known) providers accts).
Proof.
  unfold neverThrows.
  eapply post_conseq.
  - apply (post_forEach _ (fun _ _ => True) (fun r _ => exists a, r = Ok a)
             providers) with (l1 := []); [| |exact I].
    + intros p s l1 _ _. eapply post_conseq; [apply discoverAccount_neverThrows|].
      intros r l [a ->]. exact I.
    + intros s l _. eauto.
  - intros r l H. exact H.
Qed.

(** The body of the fetch loop of a first sync never ends the run with the
    error of a fetch. *)
Lemma fetchOne_first_sync_not_aborted (byServiceID byURN : gmap string (Provider W))
  (item : Account + ExternalService) (acc : collected) :
  post (fetchOne env true byServiceID byURN item acc) (fun r _ => ~ fetchAborted r).
Proof.
  unfold fetchOne. destruct item as [v|v].
  - destruct (byServiceID !! _) as [provider|];
      [|apply post_ret, not_fetchAborted_Ok].
    eapply post_bind_orReturnErr.
    + apply waitForRateLimit_neverThrows.
    + intros e l1 [a H]. discriminate.
    + intros e l1 _. apply not_fetchAborted_Wrap. discriminate.
    + intros l1 _. apply post_bind_call. intros [ext [err|]] w w' _; simpl.
      * destruct (IsUnauthorized err || IsAccountSuspended err || IsForbidden err).
        -- apply post_bind_orReturnErr_call.
           ++ intros e w1 w1' _. apply not_fetchAborted_Wrap. discriminate.
           ++ intros w1 w1' _. apply post_ret, not_fetchAborted_Ok.
        -- apply post_ret, not_fetchAborted_Ok.
      * apply post_bind_orReturnErr_call.
        -- intros e w1 w1' _. apply not_fetchAborted_Wrap. discriminate.
        -- intros w1 w1' _. apply post_ret, not_fetchAborted_Ok.
  - destruct (byURN !! _) as [provider|];
      [|apply post_ret, not_fetchAborted_Ok].
    destruct (ExtractToken env _ _) as [token|eT];
      [|apply post_ret, not_fetchAborted_Ok].
    destruct (String.eqb token ""); [apply post_ret, not_fetchAborted_Ok|].
    eapply post_bind_orReturnErr.
    + apply waitForRateLimit_neverThrows.
    + intros e l1 [a H]. discriminate.
    + intros e l1 _. apply not_fetchAborted_Wrap. discriminate.
    + intros l1 _. apply post_bind_call. intros [ext [err|]] w w' _; simpl;
        apply post_ret, not_fetchAborted_Ok.
Qed.

Lemma resolveAndSave_not_aborted (user : User) (repoIDs : list Z) (acc : collected) :
  post (resolveAndSave env user repoIDs acc) (fun r _ => ~ fetchAborted r).
Proof.
  unfold resolveAndSave.
  eapply post_bind_orReturn.
  - apply listPrivateRepoNamesByExact_neverThrows.
  - intros e l1 [a H]. discriminate.
  - intros e l1 _. apply not_fetchAborted_Wrap. discriminate.
  - intros names l1 _.
    eapply (post_bind _ _ (fun r _ => ~ fetchAborted r)).
    + destruct (includeContainsSpecs acc) as [|inc0 incs];
        [apply post_ret, not_fetchAborted_Ok|].
      apply post_bind_orReturn_call.
      * intros e w w' _. apply not_fetchAborted_Wrap. discriminate.
      * intros rs w w' _. apply post_ret, not_fetchAborted_Ok.
    + intros e l2 H [e0 E]. apply H. exists e0. inversion E. reflexivity.
    + intros names' l2 _. apply post_bind_orReturnErr_call.
      * intros e w w' _. apply not_fetchAborted_Wrap. discriminate.
      * intros w w' _. apply post_ret, not_fetchAborted_Ok.
Qed.

(** A first sync never returns the error of a fetch of user permissions. *)
Lemma syncUserPerms_first_sync_not_aborted (userID : Z) :
  post (syncUserPerms env userID true) (fun r _ => ~ fetchAborted r).
Proof.
  unfold syncUserPerms.
  apply post_bind_orReturn_call;
    [intros e w w' _; apply not_fetchAborted_Wrap; discriminate|].
  intros repoIDs w0 w0' _.
  apply post_bind_orReturn_call;
    [intros e w w' _; apply not_fetchAborted_Wrap; discriminate|].
  intros user w1 w1' _.
  apply post_bind_orReturn_call;
    [intros e w w' _; apply not_fetchAborted_Wrap; discriminate|].
  intros accts w2 w2' _.
  apply post_bind_orReturn_call;
    [intros e w w' _; apply not_fetchAborted_Wrap; discriminate|].
  intros emails w3 w3' _.
  eapply post_bind.
  - apply discoverAccounts_neverThrows.
  - intros e l1 [a H]. discriminate.
  - intros accts' l1 _.
    apply post_bind_orReturn_call;
      [intros e w w' _; apply not_fetchAborted_Wrap; discriminate|].
    intros svcs w4 w4' _.
    eapply (post_bind _ _ (fun r _ => ~ fetchAborted r)).
    + eapply post_conseq.
      * apply (post_forEach _ (fun _ _ => True) (fun r _ => ~ fetchAborted r))
          with (l1 := []); [| |exact I].
        -- intros a s l0 _ _. eapply post_conseq;
             [apply fetchOne_first_sync_not_aborted|].
           intros [s'|e] l H; [exact I|exact H].
        -- intros s l _. apply not_fetchAborted_Ok.
      * intros r l H. exact H.
    + intros e l2 H [e0 E]. apply H. exists e0. inversion E. reflexivity.
    + intros acc l2 _. eapply post_conseq; [apply resolveAndSave_not_aborted|].
      intros r l H. exact H.
Qed.

(** ** A sync of a user who already has permissions *)




Lemma waitForRateLimit_post (serviceID : string) (n : Z) :
  post (waitForRateLimit env serviceID n)
    (fun r l => (exists a, r = Ok a) /\ Forall (fun c => neutral c = true) l).
Proof.
  unfold waitForRateLimit.
  destruct (rateLimiterRegistry env) as [waitN|].
  - intros w r w' l E. unfold call in E. destruct (waitN serviceID n w).
    inversion E; subst. split; [eauto|]. repeat constructor.
  - apply post_ret. split; [eauto|constructor].
Qed.








Lemma discoverAccounts_post (user : User) (emails : list string)
  (known : gmap string Account) (providers : list (Provider W)) (accts : list Account) :
  post (forEach (discoverAccount env user emails known) providers accts)
    (fun r l => (exists a, r = Ok a) /\ Forall (fun c => neutral c = true) l).
Proof.
  eapply post_conseq.
  - apply (post_forEach _ (fun _ l => Forall (fun c => neutral c = true) l)
             (fun r l => (exists a, r = Ok a) /\ Forall (fun c => neutral c = true) l)
             providers) with (l1 := []); [| |constructor].
    + intros p s l1 _ Hn. unfold discoverAccount.
      destruct (known !! _); [apply post_ret; rewrite app_nil_r; exact Hn|].
      apply post_bind_call. intros [[acct|]|e] w w' _;
        try (apply post_ret; apply Forall_app; split; [exact Hn|repeat constructor]).
      apply post_bind_call. intros [e|] w1 w1' _; apply post_ret;
        apply Forall_app; split; try exact Hn; repeat constructor.
    + intros s l Hn. split; [eauto|exact Hn].
  - intros r l H. exact H.
Qed.









(** ** A first sync *)

Lemma collectedBy_app (l1 l2 : list Call) :
  collectedBy (l1 ++ l2) = appendCollected (collectedBy l1) (collectedBy l2).
Proof.
  unfold collectedBy, appendCollected. simpl. rewrite !flat_map_app. reflexivity.
Qed.

Lemma appendCollected_nothing_r (a : collected) :
  appendCollected a nothingCollected = a.
Proof.
  destruct a. unfold appendCollected. simpl. rewrite !app_nil_r. reflexivity.
Qed.

Lemma appendCollected_nothing_l (a : collected) :
  appendCollected nothingCollected a = a.
Proof. destruct a. reflexivity. Qed.

Lemma appendCollected_assoc (a b c : collected) :
  appendCollected a (appendCollected b c) = appendCollected (appendCollected a b) c.
Proof. unfold appendCollected. simpl. rewrite !app_assoc. reflexivity. Qed.

Lemma neutral_projections (l : list Call) :
  Forall (fun c => neutral c = true) l ->
  collectedBy l = nothingCollected /\ queriedExact l = [] /\ resolvedNames l = []
  /\ directGrants l = [] /\ noSetUserPermissions l
  /\ Forall (fun c => isFetch c = false) l.
Proof.
  induction 1 as [|c l Hc Hl IH].
  - repeat split; constructor.
  - destruct IH as (I1 & I2 & I3 & I4 & I5 & I6).
    change (c :: l) with ([c] ++ l). rewrite collectedBy_app, I1.
    unfold queriedExact, resolvedNames, directGrants in *.
    rewrite !flat_map_app, I2, I3, I4.
    destruct c; simpl in Hc; try discriminate;
      (repeat split; [reflexivity..|constructor; [reflexivity|exact I5]
                     |constructor; [reflexivity|exact I6]]).
Qed.

Lemma fetchOrNeutral_projections (l : list Call) :
  Forall (fun c => fetchOrNeutral c = true) l ->
  queriedExact l = [] /\ resolvedNames l = [] /\ directGrants l = []
  /\ noSetUserPermissions l.
Proof.
  induction 1 as [|c l Hc Hl IH].
  - repeat split; constructor.
  - destruct IH as (I2 & I3 & I4 & I5).
    unfold queriedExact, resolvedNames, directGrants in *. simpl.
    rewrite I2, I3, I4.
    destruct c; simpl in Hc; try discriminate;
      (repeat split; [reflexivity..|constructor; [reflexivity|exact I5]]).
Qed.

Lemma listRepoNames_projections (l : list Call) :
  Forall (fun c => isListRepoNames c = true) l ->
  collectedBy l = nothingCollected /\ directGrants l = []
  /\ noSetUserPermissions l.
Proof.
  induction 1 as [|c l Hc Hl IH].
  - repeat split; constructor.
  - destruct IH as (I1 & I4 & I5).
    change (c :: l) with ([c] ++ l). rewrite collectedBy_app, I1.
    unfold directGrants in *. simpl. rewrite I4.
    destruct c; simpl in Hc; try discriminate.
    repeat split; [reflexivity..|constructor; [reflexivity|exact I5]].
Qed.

Lemma neutral_fetchOrNeutral (l : list Call) :
  Forall (fun c => neutral c = true) l ->
  Forall (fun c => fetchOrNeutral c = true) l.
Proof.
  intros H. eapply List.Forall_impl; [|exact H].
  intros c Hc. unfold fetchOrNeutral. rewrite Hc. reflexivity.
Qed.

Section FirstSync.

Hypothesis later : laterStepsSucceed env.

Lemma waitForRateLimit_succeeds (serviceID : string) (n : Z) :
  post (waitForRateLimit env serviceID n)
    (fun r l => r = Ok None /\ Forall (fun c => neutral c = true) l).
Proof.
  unfold waitForRateLimit.
  destruct (rateLimiterRegistry env) as [waitN|] eqn:R.
  - intros w r w' l E. unfold call in E.
    destruct later as (Hw & _). specialize (Hw waitN serviceID n w R).
    destruct (waitN serviceID n w) as [o w1]. simpl in Hw. subst o.
    inversion E; subst. split; [reflexivity|repeat constructor].
  - apply post_ret. split; [reflexivity|constructor].
Qed.

Ltac collected_leaf Hn :=
  repeat match goal with
         | x : option ExternalUserPermissions |- _ => destruct x
         end;
  (split;
   [ f_equal; rewrite ?collectedBy_app, ?(proj1 (neutral_projections _ Hn));
     unfold collectedBy, appendCollected;
     cbn [flat_map fetchedBy keptByFirstSync];
     unfold isFatalFetchError;
     repeat match goal with
            | H : (_ || _ || _ = _) |- _ => rewrite H
            end;
     cbn; rewrite ?app_nil_r; reflexivity
   | apply Forall_app; split;
     [ apply neutral_fetchOrNeutral; exact Hn | repeat constructor ] ]).

Lemma fetchOne_first_sync_collects (byServiceID byURN : gmap string (Provider W))
  (item : Account + ExternalService) (acc : collected) :
  post (fetchOne env true byServiceID byURN item acc)
    (fun r l => r = Ok (appendCollected acc (collectedBy l))
                /\ Forall (fun c => fetchOrNeutral c = true) l).
Proof.
  destruct acc as [rs0 is0 es0].
  set (acc := {| repoSpecs := rs0; includeContainsSpecs := is0;
                 excludeContainsSpecs := es0 |}).
  assert (Hnil : (fun (r : result collected) l =>
                    r = Ok (appendCollected acc (collectedBy l))
                    /\ Forall (fun c => fetchOrNeutral c = true) l) (Ok acc) []).
  { split; [|constructor]. simpl.
    change (collectedBy []) with nothingCollected.
    rewrite appendCollected_nothing_r. reflexivity. }
  subst acc.
  destruct later as (_ & HtE & HtV & _).
  unfold fetchOne. destruct item as [v|v].
  - destruct (byServiceID !! _) as [provider|]; [|apply post_ret, Hnil].
    eapply post_bind_orReturnErr.
    + apply waitForRateLimit_succeeds.
    + intros e l1 [H _]. discriminate.
    + intros e l1 [H _]. discriminate.
    + intros l1 [_ Hn]. apply post_bind_call. intros [ext [err|]] w w' _; simpl.
      * destruct (IsUnauthorized err || IsAccountSuspended err || IsForbidden err)
          eqn:Auth.
        -- apply post_bind_orReturnErr_call.
           ++ intros e w1 w1' E1. specialize (HtE (acct_ID v) w1).
              rewrite E1 in HtE. discriminate.
           ++ intros w1 w1' _. apply post_ret. collected_leaf Hn.
        -- apply post_ret. collected_leaf Hn.
      * apply post_bind_orReturnErr_call.
        -- intros e w1 w1' E1. specialize (HtV (acct_ID v) w1).
           rewrite E1 in HtV. discriminate.
        -- intros w1 w1' _. apply post_ret. collected_leaf Hn.
  - destruct (byURN !! _) as [provider|]; [|apply post_ret, Hnil].
    destruct (ExtractToken env _ _) as [token|eT]; [|apply post_ret, Hnil].
    destruct (String.eqb token ""); [apply post_ret, Hnil|].
    eapply post_bind_orReturnErr.
    + apply waitForRateLimit_succeeds.
    + intros e l1 [H _]. discriminate.
    + intros e l1 [H _]. discriminate.
    + intros l1 [_ Hn]. apply post_bind_call. intros [ext [err|]] w w' _; simpl;
        apply post_ret; collected_leaf Hn.
Qed.

Lemma fetchAll_first_sync_collects (byServiceID byURN : gmap string (Provider W))
  (items : list (Account + ExternalService)) :
  post (forEach (fetchOne env true byServiceID byURN) items nothingCollected)
    (fun r l => r = Ok (collectedBy l)
                /\ Forall (fun c => fetchOrNeutral c = true) l).
Proof.
  eapply post_conseq.
  - apply (post_forEach _
             (fun acc l => acc = collectedBy l
                           /\ Forall (fun c => fetchOrNeutral c = true) l)
             (fun r l => r = Ok (collectedBy l)
                         /\ Forall (fun c => fetchOrNeutral c = true) l))
      with (l1 := []).
    + intros a acc l1 _ [-> Hl1]. eapply post_conseq;
        [apply fetchOne_first_sync_collects|].
      intros r l2 [-> Hl2]. split.
      * rewrite collectedBy_app. reflexivity.
      * apply Forall_app. auto.
    + intros acc l [-> Hl]. auto.
    + split; [reflexivity|constructor].
  - intros r l H. exact H.
Qed.

Lemma batchSize_pos : (0 < batchSize)%nat.
Proof. unfold batchSize. lia. Qed.

Lemma listExactLoop_resolves (fuel : nat) (remaining : list ExternalRepoSpec)
  (nextCut : nat) (names0 : list RepoName) :
  (nextCut <= length remaining)%nat ->
  (nextCut = 0%nat -> remaining = []) ->
  (length remaining <= fuel)%nat ->
  post (listExactLoop env fuel remaining nextCut names0)
    (fun r l => r = Ok (Ok (names0 ++ resolvedNames l))
                /\ queriedExact l = remaining
                /\ Forall (fun c => isListRepoNames c = true) l).
Proof.
  destruct later as (_ & _ & _ & Hnames).
  revert remaining nextCut names0.
  induction fuel as [|fuel IH]; intros remaining nextCut names0 Hle Hz Hfuel.
  - assert (remaining = []) by (destruct remaining; simpl in *; [reflexivity|lia]).
    subst. simpl in Hle. assert (nextCut = 0%nat) by lia. subst. simpl.
    apply post_ret. rewrite app_nil_r. repeat split; constructor.
  - destruct nextCut as [|n].
    + rewrite (Hz eq_refl). simpl. apply post_ret. rewrite app_nil_r.
      repeat split; constructor.
    + cbn [listExactLoop]. apply post_bind_call. intros [rs|e] w w' E.
      * eapply post_conseq.
        -- apply IH.
           ++ destruct (Nat.ltb_spec (length (drop (S n) remaining)) (S n)); lia.
           ++ destruct (Nat.ltb_spec (length (drop (S n) remaining)) (S n)) as [Hlt|Hge];
                [|discriminate].
              intros H0. destruct (drop (S n) remaining); [reflexivity|].
              simpl in H0. discriminate.
           ++ rewrite length_drop. lia.
        -- intros r l (-> & Hq & Hf). split; [|split].
           ++ unfold resolvedNames. simpl. rewrite app_assoc. reflexivity.
           ++ unfold queriedExact in *. simpl. rewrite Hq. apply take_drop.
           ++ constructor; [reflexivity|exact Hf].
      * exfalso. match type of E with
                 | ListRepoNames env ?o w = _ =>
                     destruct (Hnames o w) as [rs Hrs]; rewrite E in Hrs
                 end.
        discriminate.
Qed.

Lemma listPrivateRepoNamesByExact_resolves (specs : list ExternalRepoSpec) :
  post (listPrivateRepoNamesByExact env specs)
    (fun r l => r = Ok (Ok (resolvedNames l))
                /\ queriedExact l = specs
                /\ Forall (fun c => isListRepoNames c = true) l).
Proof.
  unfold listPrivateRepoNamesByExact. destruct specs as [|x specs].
  - apply post_ret. repeat split; constructor.
  - pose proof batchSize_pos as Hb.
    eapply post_conseq.
    + apply (listExactLoop_resolves (length (x :: specs)) (x :: specs) _ []).
      * destruct (Nat.ltb_spec (length (x :: specs)) batchSize); lia.
      * destruct (Nat.ltb_spec (length (x :: specs)) batchSize); simpl in *; lia.
      * lia.
    + intros r l H. exact H.
Qed.

Lemma resolveAndSave_saves (user : User) (repoIDs : list Z) (acc : collected) :
  post (resolveAndSave env user repoIDs acc)
    (fun r l => exists l0 p x,
         l = l0 ++ [CSetUserPermissions p x]
         /\ r = resultOfError (WrapNil x "set user permissions")
         /\ resolved repoIDs acc p l0).
Proof.
  destruct later as (_ & _ & _ & Hnames).
  unfold resolveAndSave.
  eapply post_bind_orReturn.
  - apply listPrivateRepoNamesByExact_resolves.
  - intros e l1 [H _]. discriminate.
  - intros e l1 [H _]. discriminate.
  - intros names l1 (Hr & Hq & Hf). inversion Hr; subst names. clear Hr.
    eapply (post_bind _ _
              (fun r l2 =>
                 r = Ok (resolvedNames (l1 ++ l2))
                 /\ queriedExact (l1 ++ l2) = repoSpecs acc
                 /\ (includeContainsSpecs acc <> [] ->
                     exists res, In (CListRepoNames (containsOptions acc) res) (l1 ++ l2))
                 /\ Forall (fun c => isListRepoNames c = true) (l1 ++ l2))).
    + destruct (includeContainsSpecs acc) as [|inc0 incs] eqn:Einc.
      * apply post_ret. rewrite app_nil_r. repeat split; try assumption.
        intros Hne. contradiction.
      * apply post_bind_orReturn_call.
        -- intros e w w' E. exfalso.
           match type of E with
           | ListRepoNames env ?o w = _ =>
               destruct (Hnames o w) as [rs Hrs]; rewrite E in Hrs
           end.
           discriminate.
        -- intros rs w w' _. apply post_ret. split; [|split; [|split]].
           ++ unfold resolvedNames. rewrite !flat_map_app. simpl.
              rewrite app_nil_r. reflexivity.
           ++ unfold queriedExact in *. rewrite flat_map_app. simpl.
              rewrite app_nil_r. exact Hq.
           ++ intros _. exists (Ok rs). apply in_or_app. right. left.
              unfold containsOptions. rewrite Einc. reflexivity.
           ++ apply Forall_app. split; [exact Hf|repeat constructor].
    + intros e l2 [H _]. discriminate.
    + intros names l2 (Hr & Hq2 & Hc & Hf2). inversion Hr; subst names. clear Hr.
      intros w r w' l E. unfold orReturnErr, bind, call, ret, throw in E.
      destruct (SetUserPermissions env _ w) as [x w1].
      exists (l1 ++ l2).
      destruct x as [e|]; inversion E; subst; clear E;
        eexists; eexists; (split; [rewrite app_assoc; reflexivity|]);
        (split; [reflexivity|]); repeat split; auto.
Qed.

Lemma savedAfter_cons (ok ok' : UserPermissions -> list Call -> Prop)
  (c : Call) (r : result unit) (l : list Call) :
  isFetch c = false ->
  (forall p l0, ok p l0 -> ok' p (c :: l0)) ->
  savedAfter ok r l -> savedAfter ok' r (c :: l).
Proof.
  intros Hc Hok [Hn|(l0 & p & x & -> & Hr & Hp)].
  - left. constructor; assumption.
  - right. exists (c :: l0), p, x. repeat split; auto.
Qed.

Lemma savedAfter_app (ok ok' : UserPermissions -> list Call -> Prop)
  (l1 : list Call) (r : result unit) (l : list Call) :
  Forall (fun c => isFetch c = false) l1 ->
  (forall p l0, ok p l0 -> ok' p (l1 ++ l0)) ->
  savedAfter ok r l -> savedAfter ok' r (l1 ++ l).
Proof.
  intros Hc Hok [Hn|(l0 & p & x & -> & Hr & Hp)].
  - left. apply Forall_app. auto.
  - right. exists (l1 ++ l0), p, x. rewrite app_assoc. repeat split; auto.
Qed.

Lemma persistedWith_neutral (repoIDs : list Z) (p : UserPermissions)
  (l1 l0 : list Call) :
  Forall (fun c => neutral c = true) l1 ->
  persistedWith repoIDs p l0 -> persistedWith repoIDs p (l1 ++ l0).
Proof.
  intros Hn (H1 & H2 & H3 & H4 & H5).
  destruct (neutral_projections l1 Hn) as (N1 & N2 & N3 & N4 & N5 & _).
  unfold persistedWith. rewrite collectedBy_app, N1, appendCollected_nothing_l.
  unfold queriedExact, resolvedNames, directGrants in *.
  rewrite !flat_map_app, N2, N3, N4. simpl.
  repeat split; auto.
  - intros Hne. destruct (H3 Hne) as [res Hin]. exists res.
    apply in_or_app. right. exact Hin.
  - apply Forall_app. auto.
Qed.

Lemma resolved_persistedWith (repoIDs : list Z) (p : UserPermissions)
  (l1 l0 : list Call) :
  Forall (fun c => fetchOrNeutral c = true) l1 ->
  resolved repoIDs (collectedBy l1) p l0 ->
  persistedWith repoIDs p (l1 ++ l0).
Proof.
  intros Hl1 (H1 & H2 & H3 & H4).
  destruct (fetchOrNeutral_projections l1 Hl1) as (F2 & F3 & F4 & F5).
  destruct (listRepoNames_projections l0 H4) as (L1 & L4 & L5).
  unfold persistedWith.
  rewrite collectedBy_app, L1, appendCollected_nothing_r.
  unfold queriedExact, resolvedNames, directGrants in *.
  rewrite !flat_map_app, F2, F3, F4, L4. simpl.
  repeat split; auto.
  - intros Hne. destruct (H3 Hne) as [res Hin]. exists res.
    apply in_or_app. right. exact Hin.
  - apply Forall_app. auto.
Qed.

Lemma persistedWith_persisted (userID : Z) (repoIDs : list Z)
  (p : UserPermissions) (l0 : list Call) :
  persistedWith repoIDs p l0 ->
  persisted p (CListExternalServicePrivateRepoIDsByUserID userID (Ok repoIDs) :: l0).
Proof.
  intros (H1 & H2 & H3 & H4 & H5). unfold persisted.
  change (?c :: l0) with ([c] ++ l0). rewrite collectedBy_app.
  change (collectedBy [_]) with nothingCollected.
  rewrite appendCollected_nothing_l.
  unfold queriedExact, resolvedNames, directGrants in *.
  rewrite !flat_map_app, H5. simpl. rewrite ?app_nil_r.
  repeat split; auto.
  - intros Hne. destruct (H3 Hne) as [res Hin]. exists res. right. exact Hin.
  - constructor; [reflexivity|exact H4].
Qed.

Ltac saved_prelude repoIDs :=
  apply post_bind_orReturn_call;
  [ intros; left; repeat constructor
  | intros; eapply post_conseq;
    [ | let H := fresh in
        intros ? ? H;
        apply (savedAfter_cons (persistedWith repoIDs) (persistedWith repoIDs));
        [ reflexivity
        | let p := fresh in let l0 := fresh in let Hp := fresh in
          intros p l0 Hp;
          apply (persistedWith_neutral repoIDs p [_] l0);
          [repeat constructor|exact Hp]
        | exact H ] ] ].

Lemma syncUserPerms_first_sync_saves (userID : Z) :
  post (syncUserPerms env userID true) (savedAfter persisted).
Proof.
  unfold syncUserPerms.
  apply post_bind_orReturn_call; [intros; left; repeat constructor|].
  intros repoIDs w0 w0' _.
  eapply post_conseq;
    [|intros rr ll Hrl;
      apply (savedAfter_cons (persistedWith repoIDs) persisted);
      [reflexivity|intros p l0; apply persistedWith_persisted|exact Hrl]].
  saved_prelude repoIDs. saved_prelude repoIDs. saved_prelude repoIDs.
  eapply post_bind.
  - apply discoverAccounts_post.
  - intros e0 l1 [[x0 Hx0] _]. discriminate.
  - intros accts' l1 [_ Hn].
    eapply post_conseq;
      [|intros rr ll Hrl;
        apply (savedAfter_app (persistedWith repoIDs) (persistedWith repoIDs));
        [apply (neutral_projections l1 Hn)
        |intros p l0; apply persistedWith_neutral, Hn
        |exact Hrl]].
    saved_prelude repoIDs.
    eapply post_bind.
    + apply fetchAll_first_sync_collects.
    + intros e1 l2 [Hr _]. discriminate.
    + intros acc l2 [Hr Hl2]. inversion Hr; subst acc. clear Hr.
      eapply post_conseq; [apply resolveAndSave_saves|].
      intros r3 l3 (l0 & p & x & -> & -> & Hres).
      right. exists (l2 ++ l0), p, x. rewrite app_assoc.
      split; [reflexivity|]. split; [reflexivity|].
      apply resolved_persistedWith; assumption.
Qed.

End FirstSync.

(** What a fetch returned and a first sync kept is among the identifiers
    looked up before the permissions are saved. *)
Lemma persisted_covers_fetches (p : UserPermissions) (l0 : list Call)
  (c : Call) (spec : ExternalRepoSpec) :
  persisted p l0 ->
  In c l0 -> In spec (fetchedBy Exacts c) -> In spec (queriedExact l0).
Proof.
  intros (_ & Hq & _) Hc Hs. rewrite Hq. unfold collectedBy. simpl.
  apply in_flat_map. exists c. auto.
Qed.

(** C2, as the code has it.  In a first sync (noPerms set), when a fetch
    for one of the user's external accounts fails with an error that is
    neither unauthorized, nor forbidden, nor account suspended, that error
    is not returned: the run goes on with what it has collected.  If the
    steps that follow succeed (the waits for the rate limiter, the updates
    of the accounts' credentials, the lookups of repositories), the run
    ends with a call to SetUserPermissions, returns what that call
    returned, and the permissions saved are those the log amounts to: the
    identifiers the fetches returned, before and after the failure, were
    looked up, and the bitmap holds the repositories found and those
    granted directly. *)
Theorem syncUserPerms_first_sync_keeps_partial_results
  (userID : Z) (w w' : W) (r : result unit) (l : list Call)
  (serviceType serviceID : string) (acct : Account)
  (extIDs : option ExternalUserPermissions) (e : error) :
  syncUserPerms env userID true w = (r, w', l) ->
  In (CFetchUserPerms serviceType serviceID acct extIDs (Some e)) l ->
  isFatalFetchError e = true ->
  (forall e0, r <> Err (Wrap e0 "fetch user permissions"))
  /\ (laterStepsSucceed env ->
      exists l0 p x,
        l = l0 ++ [CSetUserPermissions p x]
        /\ r = resultOfError (WrapNil x "set user permissions")
        /\ persisted p l0
        /\ In (CFetchUserPerms serviceType serviceID acct extIDs (Some e)) l0).
Proof.
  intros Hrun Hin Hfatal. split.
  - intros e0 Hr.
    apply (syncUserPerms_first_sync_not_aborted userID w r w' l Hrun).
    exists e0. exact Hr.
  - intros Hlater.
    destruct (syncUserPerms_first_sync_saves Hlater userID w r w' l Hrun)
      as [Hno|(l0 & p & x & -> & Hr & Hp)].
    + rewrite List.Forall_forall in Hno. specialize (Hno _ Hin). discriminate.
    + exists l0, p, x.
      split; [reflexivity|]. split; [exact Hr|]. split; [exact Hp|].
      apply in_app_or in Hin. destruct Hin as [Hin|[Hin|[]]];
        [exact Hin|discriminate].
Qed.

End UserSync.

(* ===================================================================== *)
(** * The properties on the sample scenarios *)
(* ===================================================================== *)

Ltac find_in_log := repeat (first [left; reflexivity | right]).

Lemma run_eta {A B C : Type} (x : A * B * C) : x = (fst (fst x), snd (fst x), snd x).
Proof. destruct x as [[a b] c]. reflexivity. Qed.

Lemma laterStepsSucceed_twoAccounts : laterStepsSucceed (envOf twoAccounts).
Proof.
  repeat split.
  - intros waitN sid n w H. discriminate.
  - intros opts w. eexists. reflexivity.
Qed.

(** C2 on a sample: the second account's fetch times out in a first sync,
    and the run still saves the repository found for the first account. *)
Lemma syncUserPerms_first_sync_keeps_partial_results_witness :
  In timedOutFetch (snd firstSyncRun)
  /\ isFatalFetchError transientError = true
  /\ (forall e0, fst (fst firstSyncRun) <> Err (Wrap e0 "fetch user permissions"))
  /\ (laterStepsSucceed (envOf twoAccounts) ->
      exists l0 p x,
        snd firstSyncRun = l0 ++ [CSetUserPermissions p x]
        /\ fst (fst firstSyncRun) = resultOfError (WrapNil x "set user permissions")
        /\ persisted p l0
        /\ In timedOutFetch l0).
Proof.
  assert (H1 : In timedOutFetch (snd firstSyncRun)).
  { vm_compute. find_in_log. }
  assert (H2 : isFatalFetchError transientError = true) by reflexivity.
  split; [exact H1|]. split; [exact H2|].
  exact (syncUserPerms_first_sync_keeps_partial_results (envOf twoAccounts)
           1 tt (snd (fst firstSyncRun)) (fst (fst firstSyncRun)) (snd firstSyncRun)
           "github" "https://github.com/" (accountAt 2) None transientError
           (run_eta firstSyncRun) H1 H2).
Defined.

(** C2 as stated fails when a step after the failed fetch fails: here the
    lookup of the repositories returns an error, the sync returns it and
    SetUserPermissions is never called. *)
Lemma first_sync_saves_nothing_when_lookup_fails :
  In timedOutFetch (snd failedLookupRun)
  /\ isFatalFetchError transientError = true
  /\ fst (fst failedLookupRun)
     = Err (Wrap databaseError "list external repositories by exact matching")
  /\ forall p x, ~ In (CSetUserPermissions p x) (snd failedLookupRun).
Proof.
  split; [vm_compute; find_in_log|].
  split; [reflexivity|]. split; [reflexivity|].
  intros p x H. vm_compute in H.
  repeat match type of H with
         | _ \/ _ => destruct H as [H|H]
         end; try discriminate H; exact H.
Qed.






Lemma no_source_is_a_provider (private : bool) (grants : result (list Z)) :
  forall urn,
    is_Some (Sources (sampleRepo private) !! urn) ->
    providersByURNs (envOf (oneRepo private grants)) !! urn = None.
Proof.
  intros urn [v Hv]. simpl in Hv.
  apply lookup_singleton_Some in Hv. destruct Hv as [<- _].
  vm_compute. reflexivity.
Qed.

(** C6 as stated fails for a private repository when the lookup of the
    users with direct access fails: the error is returned and
    TouchRepoPermissions is not called. *)
Lemma private_repo_not_touched_when_lookup_fails :
  Private (sampleRepo true) = true
  /\ (forall urn,
        is_Some (Sources (sampleRepo true) !! urn) ->
        providersByURNs (envOf (oneRepo true (Err databaseError))) !! urn = None)
  /\ syncRepoPerms (envOf (oneRepo true (Err databaseError))) 5 false tt
     = (Err (Wrap databaseError "list external service user IDs by repo ID"), tt,
        [CRepoStoreList (optionsByID 5); CListExternalServiceUserIDsByRepoID 5]).
Proof.
  split; [reflexivity|]. split; [apply no_source_is_a_provider|].
  vm_compute. reflexivity.
Qed.

(** C6 on samples: a repository that is not private, and a private one
    with no source at a provider, are touched once. *)
Lemma syncRepoPerms_touches_without_provider_witness :
  RepoStoreList (envOf (oneRepo false (Ok []))) (optionsByID 5) tt
  = (Ok [sampleRepo false], tt)
  /\ syncRepoPerms (envOf (oneRepo false (Ok []))) 5 false tt
     = (Ok tt, tt, [CRepoStoreList (optionsByID 5); CTouchRepoPermissions 5 None])
  /\ syncRepoPerms (envOf (oneRepo true (Ok [3]))) 5 false tt
     = (Ok tt, tt,
        [CRepoStoreList (optionsByID 5); CListExternalServiceUserIDsByRepoID 5;
         CTouchRepoPermissions 5 None]).
Proof.
  split; [reflexivity|]. split.
  - exact (proj1 (syncRepoPerms_touches_without_provider
                    (envOf (oneRepo false (Ok []))) 5 false tt tt
                    (sampleRepo false) [] eq_refl)
             eq_refl None tt eq_refl).
  - exact (proj1 (proj2 (syncRepoPerms_touches_without_provider
                           (envOf (oneRepo true (Ok [3]))) 5 false tt tt
                           (sampleRepo true) [] eq_refl)
                    eq_refl (no_source_is_a_provider true (Ok [3])))
             [3] tt None tt eq_refl eq_refl).
Defined.

(** C9 on a sample: no repository has the ID 5. *)
Lemma syncRepoPerms_unknown_repo_witness :
  RepoStoreList (envOf quiet) (optionsByID 5) tt = (Ok [], tt)
  /\ syncRepoPerms (envOf quiet) 5 true tt
     = (Ok tt, tt, [CRepoStoreList (optionsByID 5)]).
Proof.
  split; [reflexivity|].
  exact (syncRepoPerms_unknown_repo (envOf quiet) 5 true tt tt eq_refl).
Defined.

(** C10 on a sample: no provider is configured. *)
Lemma Schedule_empty_or_disabled_leaves_queue_witness :
  GetProviders (envOf quiet) = []
  /\ ScheduleUsers (envOf quiet) None [1; 2] futureQueue = futureQueue
  /\ ScheduleRepos (envOf quiet) None [1; 2] futureQueue = futureQueue.
Proof.
  split; [reflexivity|].
  exact (Schedule_empty_or_disabled_leaves_queue (envOf quiet) None [1; 2]
           futureQueue (or_intror (or_intror (or_introl eq_refl)))).
Defined.

(** C7 on a sample: three users and two repositories never synced, one
    user and one repository synced long ago. *)
Lemma schedule_four_lists_witness :
  UserIDsWithNoPerms (envOf neverSynced) tt = (Ok [1; 2; 3], tt)
  /\ RepoIDsWithNoPerms (envOf neverSynced) tt = (Ok [7; 8], tt)
  /\ UserIDsWithOldestPerms (envOf neverSynced) 10 tt = (Ok oldestUsers10, tt)
  /\ ReposIDsWithOldestPerms (envOf neverSynced) 10 tt = (Ok oldestRepos10, tt)
  /\ (size oldestUsers10 <= 10)%nat
  /\ (size oldestRepos10 <= 10)%nat
  /\ schedule (envOf neverSynced) tt
     = (Ok {| Users := map neverSyncedUser [1; 2; 3]
                       ++ map oldestUser (map_to_list oldestUsers10);
              Repos := map neverSyncedRepo [7; 8]
                       ++ map oldestRepo (map_to_list oldestRepos10) |},
        tt,
        [CUserIDsWithNoPerms; CRepoIDsWithNoPerms;
         CUserIDsWithOldestPerms 10; CReposIDsWithOldestPerms 10]).
Proof.
  assert (S3 : (size oldestUsers10 <= 10)%nat) by (vm_compute; lia).
  assert (S4 : (size oldestRepos10 <= 10)%nat) by (vm_compute; lia).
  repeat (split; [first [reflexivity|assumption]|]).
  exact (proj1 (schedule_four_lists (envOf neverSynced) tt tt tt tt tt
                  [1; 2; 3] [7; 8] oldestUsers10 oldestRepos10
                  eq_refl eq_refl eq_refl eq_refl S3 S4)).
Defined.

Module PerforceSamples.

Import Perforce.

(** C8 as stated fails when an include that is a proper prefix of the path
    comes before the include equal to it: the include equal to the path
    stays, and the path is appended to the exclude list. *)
Lemma include_equal_to_exclusion_is_kept :
  isWildcard "//depot/a/" = false
  /\ In "//depot/a/" ["//depot/"; "//depot/a/"]
  /\ applyExclusion "//depot/a/" ["//depot/"; "//depot/a/"] []
     = (["//depot/"; "//depot/a/"], ["//depot/a/"])
  /\ scanLine "write user alice * -//depot/a/..." (["//depot/"; "//depot/a/"], [])
     = (["//depot/"; "//depot/a/"], ["//depot/a/"]).
Proof.
  split; [reflexivity|]. split; [right; left; reflexivity|].
  split; reflexivity.
Qed.

(** C8 on samples: the first include that is a prefix of the path is equal
    to it and is taken out; it is a proper prefix and the path is excluded;
    a path with a wildcard is excluded whatever the includes. *)
Lemma applyExclusion_first_prefix_decides_witness :
  applyExclusion "//depot/a/" ["//other/"; "//depot/a/"; "//depot/"] []
  = (["//other/"; "//depot/"], [])
  /\ applyExclusion "//depot/a/b/" ["//other/"; "//depot/a/"; "//depot/"] []
     = (["//other/"; "//depot/a/"; "//depot/"], ["//depot/a/b/"])
  /\ applyExclusion "//depot/[^/]+/b/" [] ["//x/"]
     = ([], ["//x/"; "//depot/[^/]+/b/"])
  /\ applyExclusion "//depot/a/" ["//other/"] [] = (["//other/"], []).
Proof.
  assert (Hno : forall x, In x ["//other/"] -> HasPrefix "//depot/a/" x = false).
  { intros x [<-|[]]. reflexivity. }
  assert (Hno' : forall x, In x ["//other/"] -> HasPrefix "//depot/a/b/" x = false).
  { intros x [<-|[]]. reflexivity. }
  split.
  { exact (proj2 (proj2 (PerforceFacts.applyExclusion_first_prefix_decides
                          "//depot/a/" ["//other/"; "//depot/a/"; "//depot/"] []))
             eq_refl ["//other/"] "//depot/a/" ["//depot/"] eq_refl Hno eq_refl). }
  split.
  { exact (proj2 (proj2 (PerforceFacts.applyExclusion_first_prefix_decides
                          "//depot/a/b/" ["//other/"; "//depot/a/"; "//depot/"] []))
             eq_refl ["//other/"] "//depot/a/" ["//depot/"] eq_refl Hno' eq_refl). }
  split.
  { exact (proj1 (PerforceFacts.applyExclusion_first_prefix_decides
                    "//depot/[^/]+/b/" [] ["//x/"]) eq_refl). }
  exact (proj1 (proj2 (PerforceFacts.applyExclusion_first_prefix_decides
                         "//depot/a/" ["//other/"] []))
           eq_refl Hno).
Defined.

End PerforceSamples.

(* ===================================================================== *)
(** * Further properties of the scheduler *)
(* ===================================================================== *)

Lemma scheduleUsersFrom_enqueues (poll : nat) (ctx : context)
  (users : list scheduledUser) (q : requestQueue) :
  scheduleUsersFrom poll ctx users q
  = enqueueAll (userRequest <$> beforeCancel (ctxAfter ctx poll) users) q.
Proof.
  revert poll q. induction users as [|u users IH]; intros poll q.
  - destruct ctx as [n|]; simpl; [rewrite take_nil|]; reflexivity.
  - simpl. destruct ctx as [n|]; simpl.
    + destruct (Nat.leb_spec n poll) as [Hle|Hgt].
      * replace (n - poll)%nat with 0%nat by lia. reflexivity.
      * destruct (n - poll)%nat as [|k] eqn:E; [lia|]. simpl.
        fold (userRequest u). destruct (enqueue (userRequest u) q) as [b q'] eqn:Eq.
        rewrite IH. simpl. replace (n - S poll)%nat with k by lia. reflexivity.
    + fold (userRequest u). destruct (enqueue (userRequest u) q) as [b q'] eqn:Eq.
      rewrite IH. reflexivity.
Qed.

Lemma scheduleReposFrom_enqueues (poll : nat) (ctx : context)
  (repos : list scheduledRepo) (q : requestQueue) :
  scheduleReposFrom poll ctx repos q
  = enqueueAll (repoRequest <$> beforeCancel (ctxAfter ctx poll) repos) q.
Proof.
  revert poll q. induction repos as [|u repos IH]; intros poll q.
  - destruct ctx as [n|]; simpl; [rewrite take_nil|]; reflexivity.
  - simpl. destruct ctx as [n|]; simpl.
    + destruct (Nat.leb_spec n poll) as [Hle|Hgt].
      * replace (n - poll)%nat with 0%nat by lia. reflexivity.
      * destruct (n - poll)%nat as [|k] eqn:E; [lia|]. simpl.
        fold (repoRequest u). destruct (enqueue (repoRequest u) q) as [b q'] eqn:Eq.
        rewrite IH. simpl. replace (n - S poll)%nat with k by lia. reflexivity.
    + fold (repoRequest u). destruct (enqueue (repoRequest u) q) as [b q'] eqn:Eq.
      rewrite IH. reflexivity.
Qed.

(** X1. [scheduleUsers] and [scheduleRepos] enqueue one request per
    scheduled entity, in order, and stop at the first poll that sees the
    context cancelled: the entities from that one on are not enqueued. *)
Theorem schedule_loops_stop_at_cancellation (ctx : context)
  (users : list scheduledUser) (repos : list scheduledRepo) (q : requestQueue) :
  scheduleUsers ctx users q = enqueueAll (userRequest <$> beforeCancel ctx users) q
  /\ scheduleRepos ctx repos q = enqueueAll (repoRequest <$> beforeCancel ctx repos) q.
Proof.
  unfold scheduleUsers, scheduleRepos.
  rewrite scheduleUsersFrom_enqueues, scheduleReposFrom_enqueues.
  destruct ctx as [n|]; simpl; [rewrite Nat.sub_0_r|]; auto.
Qed.

Section ProviderMaps.

Context {W : Type}.

Lemma find_snoc {A : Type} (f : A -> bool) (l : list A) (a : A) :
  find f (l ++ [a])
  = match find f l with
    | Some x => Some x
    | None => if f a then Some a else None
    end.
Proof.
  induction l as [|b l IH]; simpl; [reflexivity|].
  destruct (f b); [reflexivity|exact IH].
Qed.

Lemma lookup_foldl_insert (key : Provider W -> string) (ps : list (Provider W))
  (m : gmap string (Provider W)) (k : string) :
  foldl (fun m p => <[key p := p]> m) m ps !! k
  = match lastWith key k ps with
    | Some p => Some p
    | None => m !! k
    end.
Proof.
  revert m. induction ps as [|p ps IH]; intros m; simpl; [reflexivity|].
  rewrite IH. unfold lastWith. simpl. rewrite find_snoc.
  destruct (find _ (rev ps)) as [x|]; [reflexivity|].
  destruct (String.eqb_spec (key p) k) as [->|Hne].
  - apply lookup_insert_eq.
  - apply lookup_insert_ne. exact Hne.
Qed.

Lemma lastWith_spec (key : Provider W -> string) (k : string)
  (ps : list (Provider W)) (p : Provider W) :
  lastWith key k ps = Some p -> key p = k /\ In p ps.
Proof.
  unfold lastWith. intros H. split.
  - apply find_some_holds in H. apply String.eqb_eq in H. exact H.
  - apply find_some in H. destruct H as [H _]. apply in_rev in H. exact H.
Qed.

(** X2. The maps the syncer builds from the registered providers keep, for
    every ServiceID (and for every URN), the last provider registered with
    it: a later provider replaces an earlier one with the same key.  A
    lookup therefore never returns a provider of another code host, nor one
    that is not registered. *)
Theorem provider_maps_keep_last (env : Env W) (k : string) :
  providersByServiceID env !! k = lastWith ServiceID k (GetProviders env)
  /\ providersByURNs env !! k = lastWith URN k (GetProviders env)
  /\ (forall p, providersByServiceID env !! k = Some p ->
                ServiceID p = k /\ In p (GetProviders env))
  /\ (forall p, providersByURNs env !! k = Some p ->
                URN p = k /\ In p (GetProviders env)).
Proof.
  assert (H1 : providersByServiceID env !! k = lastWith ServiceID k (GetProviders env)).
  { unfold providersByServiceID. rewrite lookup_foldl_insert.
    destruct (lastWith ServiceID k (GetProviders env));
      [reflexivity|apply lookup_empty]. }
  assert (H2 : providersByURNs env !! k = lastWith URN k (GetProviders env)).
  { unfold providersByURNs. rewrite lookup_foldl_insert.
    destruct (lastWith URN k (GetProviders env));
      [reflexivity|apply lookup_empty]. }
  split; [exact H1|]. split; [exact H2|]. split.
  - intros p Hp. rewrite H1 in Hp. apply (lastWith_spec _ _ _ _ Hp).
  - intros p Hp. rewrite H2 in Hp. apply (lastWith_spec _ _ _ _ Hp).
Qed.

End ProviderMaps.

Section ScheduleErrors.

Context {W : Type} (env : Env W).

(** X3. [schedule] stops at the first query of the store that fails: it
    returns that error, wrapped with the message of the step, and makes no
    further query. *)
Theorem schedule_stops_at_first_error (w w1 : W) (e : error) :
  (UserIDsWithNoPerms env w = (Err e, w1) ->
   schedule env w
   = (Err (Wrap e "schedule users with no permissions"), w1, [CUserIDsWithNoPerms]))
  /\ (forall ids1 w2,
        UserIDsWithNoPerms env w = (Ok ids1, w1) ->
        RepoIDsWithNoPerms env w1 = (Err e, w2) ->
        schedule env w
        = (Err (Wrap e "schedule repositories with no permissions"), w2,
           [CUserIDsWithNoPerms; CRepoIDsWithNoPerms]))
  /\ (forall ids1 ids2 w2 w3,
        UserIDsWithNoPerms env w = (Ok ids1, w1) ->
        RepoIDsWithNoPerms env w1 = (Ok ids2, w2) ->
        UserIDsWithOldestPerms env 10 w2 = (Err e, w3) ->
        schedule env w
        = (Err (Wrap e "load users with oldest permissions"), w3,
           [CUserIDsWithNoPerms; CRepoIDsWithNoPerms; CUserIDsWithOldestPerms 10]))
  /\ (forall ids1 ids2 m3 w2 w3 w4,
        UserIDsWithNoPerms env w = (Ok ids1, w1) ->
        RepoIDsWithNoPerms env w1 = (Ok ids2, w2) ->
        UserIDsWithOldestPerms env 10 w2 = (Ok m3, w3) ->
        ReposIDsWithOldestPerms env 10 w3 = (Err e, w4) ->
        schedule env w
        = (Err (Wrap e "scan repositories with oldest permissions"), w4,
           [CUserIDsWithNoPerms; CRepoIDsWithNoPerms;
            CUserIDsWithOldestPerms 10; CReposIDsWithOldestPerms 10])).
Proof.
  unfold schedule, scheduleUsersWithNoPerms, scheduleReposWithNoPerms,
    scheduleUsersWithOldestPerms, scheduleReposWithOldestPerms, limit.
  repeat split.
  - intros H1. run_calls. rewrite H1. reflexivity.
  - intros ids1 w2 H1 H2. run_calls. rewrite H1. simpl. rewrite H2. reflexivity.
  - intros ids1 ids2 w2 w3 H1 H2 H3. run_calls. rewrite H1. simpl.
    rewrite H2. simpl. rewrite H3. reflexivity.
  - intros ids1 ids2 m3 w2 w3 w4 H1 H2 H3 H4. run_calls. rewrite H1. simpl.
    rewrite H2. simpl. rewrite H3. simpl. rewrite H4. reflexivity.
Qed.

End ScheduleErrors.

Lemma schedule_stops_at_first_error_witness :
  UserIDsWithNoPerms (storeFails neverSynced) tt = (Ok [1; 2; 3], tt)
  /\ RepoIDsWithNoPerms (storeFails neverSynced) tt = (Err databaseError, tt)
  /\ schedule (storeFails neverSynced) tt
     = (Err (Wrap databaseError "schedule repositories with no permissions"), tt,
        [CUserIDsWithNoPerms; CRepoIDsWithNoPerms]).
Proof.
  split; [reflexivity|]. split; [reflexivity|].
  exact (proj1 (proj2 (schedule_stops_at_first_error (storeFails neverSynced)
                         tt tt databaseError))
           [1; 2; 3] tt eq_refl eq_refl).
Defined.

(* ===================================================================== *)
(** * Further properties of the repository-centric sync *)
(* ===================================================================== *)

Section RepoSync.

Context {W : Type} (env : Env W).

(** The run of [syncRepoPerms] for a private repository with a provider, up
    to the answer of the provider. *)
Lemma syncRepoPerms_with_provider (repoID : Z) (noPerms : bool)
  (w w1 w2 w3 w4 : W) (repo : Repo) (rest : list Repo) (userIDs : list Z)
  (provider : Provider W) (lw : list Call) (ext : list string)
  (err : option error) :
  RepoStoreList env (optionsByID repoID) w = (Ok (repo :: rest), w1) ->
  Private repo = true ->
  ListExternalServiceUserIDsByRepoID env repoID w1 = (Ok userIDs, w2) ->
  firstProvider (providersByURNs env) (map_to_list (Sources repo)).*1 = Some provider ->
  waitForRateLimit env (ServiceID provider) 1 w2 = (Ok None, w3, lw) ->
  FetchRepoPerms provider (repositoryOf repo) w3 = ((ext, err), w4) ->
  syncRepoPerms env repoID noPerms w
  = match
      match err with
      | Some e =>
          if isGitHubNotFound e then touchAndReturn env repoID
          else if negb noPerms then throw (Wrap e "fetch repository permissions")
          else mapAndSave env provider repoID userIDs ext
      | None => mapAndSave env provider repoID userIDs ext
      end w4
    with
    | (r, w', l) =>
        (r, w',
         [CRepoStoreList (optionsByID repoID);
          CListExternalServiceUserIDsByRepoID repoID]
         ++ lw
         ++ CFetchRepoPerms (ServiceID provider) (repositoryOf repo) err :: l)
    end.
Proof.
  intros HL Hp HG HP HW HF. unfold syncRepoPerms.
  unfold orReturn at 1. unfold bind at 1. unfold bind at 1. unfold call at 1.
  rewrite HL. cbn [ret]. cbv beta iota. rewrite Hp.
  unfold bind at 1. unfold orReturn at 1. unfold bind at 1. unfold bind at 1.
  unfold call at 1. rewrite HG. cbn [ret]. cbv beta iota. cbn [fst snd].
  rewrite HP. unfold bind at 1. unfold orReturnErr at 1. unfold bind at 1.
  rewrite HW. cbn [ret]. cbv beta iota.
  unfold bind at 1. unfold call at 1. fold (repositoryOf repo). rewrite HF.
  cbn [fst snd].
  destruct err as [e|]; [destruct (isGitHubNotFound e); [|destruct noPerms]|];
    cbn [negb];
    [ destruct (touchAndReturn env repoID w4) as [[r w'] l]
    | destruct (mapAndSave env provider repoID userIDs ext w4) as [[r w'] l]
    | unfold throw
    | destruct (mapAndSave env provider repoID userIDs ext w4) as [[r w'] l] ];
    rewrite ?app_nil_r; simpl; rewrite <- ?app_assoc; reflexivity.
Qed.

(** X4. When the code host answers the query of a repository's permissions
    with a 404 (the token may only read the repository), [syncRepoPerms]
    does not fail: it touches the repository's permissions and returns what
    the touch returned, with or without the noPerms flag; it opens no
    transaction and writes no permissions. *)
Theorem syncRepoPerms_not_found_touches (repoID : Z) (noPerms : bool)
  (w w1 w2 w3 w4 w5 : W) (repo : Repo) (rest : list Repo) (userIDs : list Z)
  (provider : Provider W) (lw : list Call) (ext : list string)
  (e : error) (t : option error) :
  RepoStoreList env (optionsByID repoID) w = (Ok (repo :: rest), w1) ->
  Private repo = true ->
  ListExternalServiceUserIDsByRepoID env repoID w1 = (Ok userIDs, w2) ->
  firstProvider (providersByURNs env) (map_to_list (Sources repo)).*1 = Some provider ->
  waitForRateLimit env (ServiceID provider) 1 w2 = (Ok None, w3, lw) ->
  FetchRepoPerms provider (repositoryOf repo) w3 = ((ext, Some e), w4) ->
  isGitHubNotFound e = true ->
  TouchRepoPermissions env repoID w4 = (t, w5) ->
  syncRepoPerms env repoID noPerms w
  = (resultOfError (WrapNil t "touch repository permissions"), w5,
     [CRepoStoreList (optionsByID repoID); CListExternalServiceUserIDsByRepoID repoID]
     ++ lw
     ++ [CFetchRepoPerms (ServiceID provider) (repositoryOf repo) (Some e);
         CTouchRepoPermissions repoID t]).
Proof.
  intros HL Hp HG HP HW HF H404 HT.
  rewrite (syncRepoPerms_with_provider repoID noPerms w w1 w2 w3 w4 repo rest
             userIDs provider lw ext (Some e) HL Hp HG HP HW HF).
  rewrite H404. unfold touchAndReturn. run_calls. rewrite HT.
  destruct t; reflexivity.
Qed.

(** X5. When the fetch of a repository's permissions fails with another
    error and the repository already has permissions (noPerms not set),
    [syncRepoPerms] returns that error, wrapped, right after the fetch: it
    neither touches nor writes the repository's permissions. *)
Theorem syncRepoPerms_fetch_error_ends_sync (repoID : Z)
  (w w1 w2 w3 w4 : W) (repo : Repo) (rest : list Repo) (userIDs : list Z)
  (provider : Provider W) (lw : list Call) (ext : list string) (e : error) :
  RepoStoreList env (optionsByID repoID) w = (Ok (repo :: rest), w1) ->
  Private repo = true ->
  ListExternalServiceUserIDsByRepoID env repoID w1 = (Ok userIDs, w2) ->
  firstProvider (providersByURNs env) (map_to_list (Sources repo)).*1 = Some provider ->
  waitForRateLimit env (ServiceID provider) 1 w2 = (Ok None, w3, lw) ->
  FetchRepoPerms provider (repositoryOf repo) w3 = ((ext, Some e), w4) ->
  isGitHubNotFound e = false ->
  syncRepoPerms env repoID false w
  = (Err (Wrap e "fetch repository permissions"), w4,
     [CRepoStoreList (optionsByID repoID); CListExternalServiceUserIDsByRepoID repoID]
     ++ lw
     ++ [CFetchRepoPerms (ServiceID provider) (repositoryOf repo) (Some e)]).
Proof.
  intros HL Hp HG HP HW HF H404.
  rewrite (syncRepoPerms_with_provider repoID false w w1 w2 w3 w4 repo rest
             userIDs provider lw ext (Some e) HL Hp HG HP HW HF).
  rewrite H404. reflexivity.
Qed.

End RepoSync.

Section RepoTransaction.

Context {W : Type} (env : Env W).

Lemma saveRepoPerms_transaction (accounts : Accounts) (p : RepoPermissions) :
  post (saveRepoPerms env accounts p) transaction.
Proof.
  intros w r w' l E. unfold saveRepoPerms in E.
  unfold orReturnErr, bind, call, ret, throw in E.
  destruct (Transact env w) as [[e|] w1].
  - inversion E; subst. simpl. apply (transaction_not_started _ e). reflexivity.
  - destruct (SetRepoPermissions env p w1) as [[e1|] w2].
    + destruct (Done env _ w2) as [x w3].
      destruct x as [e|]; inversion E; subst; simpl;
        apply transaction_first_write_failed; reflexivity.
    + destruct (SetRepoPendingPermissions env accounts p w2) as [y w3].
      destruct (Done env _ w3) as [x w4].
      destruct x as [e|]; inversion E; subst; simpl;
        apply transaction_both_writes; reflexivity.
Qed.

Lemma endsWithTransaction_app (r : result unit) (l1 l2 : list Call) :
  Forall (fun c => isTransactionCall c = false) l1 ->
  endsWithTransaction r l2 -> endsWithTransaction r (l1 ++ l2).
Proof.
  intros H1 [H2|(pre & tx & -> & Hpre & Htx)].
  - left. apply Forall_app. auto.
  - right. exists (l1 ++ pre), tx. rewrite app_assoc.
    repeat split; [apply Forall_app; auto|exact Htx].
Qed.

Lemma endsWithTransaction_cons (r : result unit) (c : Call) (l : list Call) :
  isTransactionCall c = false ->
  endsWithTransaction r l -> endsWithTransaction r (c :: l).
Proof.
  intros Hc H. apply (endsWithTransaction_app r [c] l); [|exact H].
  repeat constructor. exact Hc.
Qed.

Lemma endsWithTransaction_none (r : result unit) (l : list Call) :
  Forall (fun c => isTransactionCall c = false) l -> endsWithTransaction r l.
Proof. intros H. left. exact H. Qed.

Lemma waitForRateLimit_no_transaction (serviceID : string) (n : Z) :
  post (waitForRateLimit env serviceID n)
    (fun r l => (exists a, r = Ok a)
                /\ Forall (fun c => isTransactionCall c = false) l).
Proof.
  unfold waitForRateLimit.
  destruct (rateLimiterRegistry env) as [waitN|].
  - intros w r w' l E. unfold call in E. destruct (waitN serviceID n w).
    inversion E; subst. split; [eauto|]. repeat constructor.
  - apply post_ret. split; [eauto|constructor].
Qed.

Lemma touchAndReturn_no_transaction (repoID : Z) :
  post (touchAndReturn env repoID) endsWithTransaction.
Proof.
  intros w r w' l E. unfold touchAndReturn, orReturnErr, bind, call, ret, throw in E.
  destruct (TouchRepoPermissions env repoID w) as [[e|] w1];
    inversion E; subst; left; repeat constructor.
Qed.

Lemma mapAndSave_transaction (provider : Provider W) (repoID : Z)
  (userIDs : list Z) (ext : list string) :
  post (mapAndSave env provider repoID userIDs ext) endsWithTransaction.
Proof.
  unfold mapAndSave.
  eapply (post_bind _ _ (fun r l => Forall (fun c => isTransactionCall c = false) l)).
  - destruct ext as [|a ext].
    + apply post_ret. constructor.
    + intros w r w' l E. unfold orReturn, bind, call, ret, throw in E.
      destruct (GetUserIDsByExternalAccounts env _ w) as [[m|e] w1];
        inversion E; subst; repeat constructor.
  - intros e l1 H. left. exact H.
  - intros found l1 H1. eapply post_conseq; [apply saveRepoPerms_transaction|].
    intros r l2 Htx. right. exists l1, l2. auto.
Qed.

(** X6. Whatever the collaborators answer, a run of [syncRepoPerms] makes
    its writes in at most one transaction, which ends the run: a
    transaction that was started is always closed by [Done], and the run
    returns what [Done] returns; the pending permissions are written only
    after the permissions were written without error, and for the same
    permissions. *)
Theorem syncRepoPerms_ends_with_transaction (repoID : Z) (noPerms : bool)
  (w w' : W) (r : result unit) (l : list Call) :
  syncRepoPerms env repoID noPerms w = (r, w', l) ->
  endsWithTransaction r l.
Proof.
  revert w r w' l. change (post (syncRepoPerms env repoID noPerms) endsWithTransaction).
  unfold syncRepoPerms. cbv zeta.
  apply post_bind_orReturn_call;
    [intros; apply endsWithTransaction_none; repeat constructor|].
  intros rs w0 w0' _.
  eapply post_conseq;
    [|intros rr ll Hrl; apply endsWithTransaction_cons; [reflexivity|exact Hrl]].
  destruct rs as [|repo rest];
    [apply post_ret, endsWithTransaction_none; constructor|].
  eapply (post_bind _ _ (fun r l => Forall (fun c => isTransactionCall c = false) l)).
  - destruct (Private repo).
    + apply post_bind_orReturn_call; [intros; repeat constructor|].
      intros userIDs w1 w1' _. apply post_ret. repeat constructor.
    + apply post_ret. constructor.
  - intros e l1 H1. left. exact H1.
  - intros found l1 H1.
    eapply post_conseq;
      [|intros rr ll Hrl; apply endsWithTransaction_app; [exact H1|exact Hrl]].
    destruct (snd found) as [provider|]; [|apply touchAndReturn_no_transaction].
    eapply post_bind_orReturnErr.
    + apply waitForRateLimit_no_transaction.
    + intros e l2 [[a Ha] _]. discriminate.
    + intros e l2 [_ H2]. left. exact H2.
    + intros l2 [_ H2].
      eapply post_conseq;
        [|intros rr ll Hrl; apply endsWithTransaction_app; [exact H2|exact Hrl]].
      apply post_bind_call. intros [ext err] w3 w3' _.
      eapply post_conseq;
        [|intros rr ll Hrl; apply endsWithTransaction_cons; [reflexivity|exact Hrl]].
      cbn [fst snd].
      destruct err as [e|]; [|apply mapAndSave_transaction].
      destruct (isGitHubNotFound e); [apply touchAndReturn_no_transaction|].
      destruct (negb noPerms); [|apply mapAndSave_transaction].
      apply post_throw. left. constructor.
Qed.




End RepoTransaction.

Lemma syncRepoPerms_not_found_touches_witness :
  isGitHubNotFound notFoundError = true
  /\ syncRepoPerms (envOf (hostedRepo (["bob"], Some notFoundError))) 5 true tt
     = (Ok tt, tt,
        [CRepoStoreList (optionsByID 5); CListExternalServiceUserIDsByRepoID 5;
         CFetchRepoPerms "https://gitlab.example.com/"
           (repositoryOf (sampleRepo true)) (Some notFoundError);
         CTouchRepoPermissions 5 None]).
Proof.
  split; [reflexivity|].
  exact (syncRepoPerms_not_found_touches
           (envOf (hostedRepo (["bob"], Some notFoundError))) 5 true
           tt tt tt tt tt tt (sampleRepo true) [] [3]
           (hostAnswering (["bob"], Some notFoundError)) [] ["bob"]
           notFoundError None
           eq_refl eq_refl eq_refl eq_refl eq_refl eq_refl eq_refl eq_refl).
Defined.

Lemma syncRepoPerms_fetch_error_ends_sync_witness :
  isGitHubNotFound transientError = false
  /\ syncRepoPerms (envOf (hostedRepo (["bob"], Some transientError))) 5 false tt
     = (Err (Wrap transientError "fetch repository permissions"), tt,
        [CRepoStoreList (optionsByID 5); CListExternalServiceUserIDsByRepoID 5;
         CFetchRepoPerms "https://gitlab.example.com/"
           (repositoryOf (sampleRepo true)) (Some transientError)]).
Proof.
  split; [reflexivity|].
  exact (syncRepoPerms_fetch_error_ends_sync
           (envOf (hostedRepo (["bob"], Some transientError))) 5
           tt tt tt tt tt (sampleRepo true) [] [3]
           (hostAnswering (["bob"], Some transientError)) [] ["bob"]
           transientError
           eq_refl eq_refl eq_refl eq_refl eq_refl eq_refl eq_refl).
Defined.

Lemma syncRepoPerms_ends_with_transaction_witness :
  endsWithTransaction
    (Err (Wrap databaseError "set repository permissions"))
    (snd (syncRepoPerms (storeFails (hostedRepo (["bob"], None))) 5 false tt)).
Proof.
  exact (syncRepoPerms_ends_with_transaction
           (storeFails (hostedRepo (["bob"], None))) 5 false tt tt
           (Err (Wrap databaseError "set repository permissions"))
           (snd (syncRepoPerms (storeFails (hostedRepo (["bob"], None))) 5 false tt))
           eq_refl).
Defined.


Section ExactLookups.

Context {W : Type} (env : Env W).

Lemma listExactLoop_batches (fuel : nat) (remaining : list ExternalRepoSpec)
  (names0 : list RepoName) :
  (length remaining <= fuel)%nat ->
  post (listExactLoop env fuel remaining (Nat.min batchSize (length remaining)) names0)
    (fun r l =>
       Forall exactLookup l
       /\ fullBatches l
       /\ (remaining = [] -> l = [])
       /\ exists rest,
            remaining = flat_map batchOf l ++ rest /\ lookupResult names0 r l rest).
Proof.
  pose proof batchSize_pos as Hb.
  revert remaining names0.
  induction fuel as [|fuel IH]; intros remaining names0 Hfuel.
  - assert (remaining = []) by (destruct remaining; simpl in *; [reflexivity|lia]).
    subst. rewrite Nat.min_0_r. simpl. apply post_ret.
    repeat split; try constructor. exists []. simpl.
    rewrite app_nil_r. repeat split; constructor.
  - destruct (Nat.min batchSize (length remaining)) as [|n] eqn:En.
    + assert (remaining = []) by (destruct remaining; simpl in *; [reflexivity|lia]).
      subst. simpl. apply post_ret.
      repeat split; try constructor. exists []. simpl.
      rewrite app_nil_r. repeat split; constructor.
    + cbn [listExactLoop]. apply post_bind_call. intros [rs|e] w w' E.
      * assert (Hcut : (if (length (drop (S n) remaining) <? S n)%nat
                        then length (drop (S n) remaining) else S n)
                       = Nat.min batchSize (length (drop (S n) remaining))).
        { rewrite length_drop.
          destruct (Nat.ltb_spec (length remaining - S n) (S n)); lia. }
        rewrite Hcut. eapply post_conseq.
        -- apply IH. rewrite length_drop. lia.
        -- intros r l (Hex & Hfull & Hnil & rest & Hq & Hres).
           split; [|split; [|split]].
           ++ constructor; [|exact Hex]. simpl. split; [reflexivity|].
              rewrite length_take. lia.
           ++ simpl. destruct l as [|c l']; [exact I|]. split; [|exact Hfull].
              rewrite length_take.
              assert (drop (S n) remaining <> []) by (intros H0; specialize (Hnil H0); discriminate).
              assert (length (drop (S n) remaining) <> 0)%nat
                by (destruct (drop (S n) remaining); simpl; [congruence|lia]).
              rewrite length_drop in *. lia.
           ++ intros ->. simpl in En. lia.
           ++ exists rest. split.
              ** simpl. rewrite <- app_assoc, <- Hq. symmetry. apply take_drop.
              ** unfold lookupResult in *. destruct r as [[names|e]|e].
                 --- destruct Hres as (-> & -> & Hok). split; [reflexivity|].
                     split; [|constructor; [reflexivity|exact Hok]].
                     unfold resolvedNames. simpl. rewrite app_assoc. reflexivity.
                 --- destruct Hres as (l0 & opts & -> & Hok).
                     eexists (_ :: l0), opts. split; [reflexivity|].
                     constructor; [reflexivity|exact Hok].
                 --- exact Hres.
      * apply post_ret. split; [|split; [|split]].
        -- constructor; [|constructor]. simpl. split; [reflexivity|].
           rewrite length_take. lia.
        -- exact I.
        -- intros ->. simpl in En. lia.
        -- exists (drop (S n) remaining). split.
           ++ simpl. rewrite app_nil_r. symmetry. apply take_drop.
           ++ simpl. eexists [], _. split; [reflexivity|constructor].
Qed.

Lemma listPrivateRepoNamesByExact_post (specs : list ExternalRepoSpec) :
  post (listPrivateRepoNamesByExact env specs)
    (fun r l =>
       Forall exactLookup l
       /\ fullBatches l
       /\ (specs = [] -> l = [])
       /\ exists rest,
            specs = flat_map batchOf l ++ rest /\ lookupResult [] r l rest).
Proof.
  unfold listPrivateRepoNamesByExact. destruct specs as [|x specs].
  - apply post_ret. repeat split; try constructor. exists []. simpl.
    repeat split; constructor.
  - assert (Hcut : (if (length (x :: specs) <? batchSize)%nat
                    then length (x :: specs) else batchSize)
                   = Nat.min batchSize (length (x :: specs))).
    { destruct (Nat.ltb_spec (length (x :: specs)) batchSize); lia. }
    cbv zeta. rewrite Hcut. apply listExactLoop_batches. lia.
Qed.

(** X8. [listPrivateRepoNamesByExact] looks the identifiers up in order and
    in batches: every lookup is by identifiers only and for private
    repositories only, has at least one and at most 10000 identifiers, and
    every lookup but the last has exactly 10000; no identifier means no
    lookup.  When every lookup succeeds, the lookups cover the identifiers
    exactly and the result is what they returned, in order.  The first
    lookup that fails is the last one, and its error is the result. *)
Theorem listPrivateRepoNamesByExact_batches (specs : list ExternalRepoSpec)
  (w w' : W) (r : result (result (list RepoName))) (l : list Call) :
  listPrivateRepoNamesByExact env specs w = (r, w', l) ->
  Forall exactLookup l
  /\ fullBatches l
  /\ (specs = [] -> l = [])
  /\ exists rest,
       specs = flat_map batchOf l ++ rest /\ lookupResult [] r l rest.
Proof.
  intros E. exact (listPrivateRepoNamesByExact_post specs w r w' l E).
Qed.

End ExactLookups.

Lemma listPrivateRepoNamesByExact_batches_witness :
  Forall exactLookup
    (snd (listPrivateRepoNamesByExact (envOf twoAccounts)
            [specFor "github" "https://github.com/" "r1";
             specFor "github" "https://github.com/" "r2"] tt))
  /\ fullBatches
       (snd (listPrivateRepoNamesByExact (envOf twoAccounts)
               [specFor "github" "https://github.com/" "r1";
                specFor "github" "https://github.com/" "r2"] tt))
  /\ ([specFor "github" "https://github.com/" "r1";
       specFor "github" "https://github.com/" "r2"] = [] ->
      snd (listPrivateRepoNamesByExact (envOf twoAccounts)
             [specFor "github" "https://github.com/" "r1";
              specFor "github" "https://github.com/" "r2"] tt) = [])
  /\ exists rest,
       [specFor "github" "https://github.com/" "r1";
        specFor "github" "https://github.com/" "r2"]
       = flat_map batchOf
           (snd (listPrivateRepoNamesByExact (envOf twoAccounts)
                   [specFor "github" "https://github.com/" "r1";
                    specFor "github" "https://github.com/" "r2"] tt))
         ++ rest
       /\ lookupResult []
            (Ok (Ok [ {| rn_ID := 42; rn_Name := "r1" |};
                      {| rn_ID := 42; rn_Name := "r2" |} ]))
            (snd (listPrivateRepoNamesByExact (envOf twoAccounts)
                    [specFor "github" "https://github.com/" "r1";
                     specFor "github" "https://github.com/" "r2"] tt))
            rest.
Proof.
  exact (listPrivateRepoNamesByExact_batches (envOf twoAccounts)
           [specFor "github" "https://github.com/" "r1";
            specFor "github" "https://github.com/" "r2"]
           tt tt
           (Ok (Ok [ {| rn_ID := 42; rn_Name := "r1" |};
                     {| rn_ID := 42; rn_Name := "r2" |} ]))
           _ eq_refl).
Defined.

Section UserSave.

Context {W : Type} (env : Env W).

Lemma fetchOrNeutral_private (l : list Call) :
  Forall (fun c => fetchOrNeutral c = true) l ->
  Forall (fun c => privateLookup c = true) l.
Proof.
  intros H. eapply List.Forall_impl; [|exact H].
  intros c Hc. destruct c; simpl in *; try reflexivity; discriminate.
Qed.

Ltac log_leaf :=
  repeat (apply Forall_app; split);
  try assumption; try (apply neutral_fetchOrNeutral; assumption);
  repeat constructor.

Lemma fetchOne_log (noPerms : bool) (byServiceID byURN : gmap string (Provider W))
  (item : Account + ExternalService) (acc : collected) :
  post (fetchOne env noPerms byServiceID byURN item acc)
    (fun _ l => Forall (fun c => fetchOrNeutral c = true) l).
Proof.
  unfold fetchOne. destruct item as [v|v].
  - destruct (byServiceID !! _) as [provider|]; [|apply post_ret; constructor].
    eapply post_bind_orReturnErr.
    + apply waitForRateLimit_post.
    + intros e l1 [[a H] _]. discriminate.
    + intros e l1 [_ Hn]. log_leaf.
    + intros l1 [_ Hn]. apply post_bind_call. intros [ext [err|]] w w' _; simpl.
      * destruct (IsUnauthorized err || IsAccountSuspended err || IsForbidden err).
        -- apply post_bind_orReturnErr_call.
           ++ intros e w1 w1' _. log_leaf.
           ++ intros w1 w1' _. apply post_ret. log_leaf.
        -- destruct (negb noPerms); [apply post_throw|apply post_ret]; log_leaf.
      * apply post_bind_orReturnErr_call.
        -- intros e w1 w1' _. log_leaf.
        -- intros w1 w1' _. apply post_ret. log_leaf.
  - destruct (byURN !! _) as [provider|]; [|apply post_ret; constructor].
    destruct (ExtractToken env _ _) as [token|eT]; [|apply post_ret; constructor].
    destruct (String.eqb token ""); [apply post_ret; constructor|].
    eapply post_bind_orReturnErr.
    + apply waitForRateLimit_post.
    + intros e l1 [[a H] _]. discriminate.
    + intros e l1 [_ Hn]. log_leaf.
    + intros l1 [_ Hn]. apply post_bind_call. intros [ext [err|]] w w' _; simpl;
        apply post_ret; log_leaf.
Qed.

Lemma fetchAll_log (noPerms : bool) (byServiceID byURN : gmap string (Provider W))
  (items : list (Account + ExternalService)) (acc : collected) :
  post (forEach (fetchOne env noPerms byServiceID byURN) items acc)
    (fun _ l => Forall (fun c => fetchOrNeutral c = true) l).
Proof.
  eapply post_conseq.
  - apply (post_forEach _ (fun _ l => Forall (fun c => fetchOrNeutral c = true) l)
             (fun _ l => Forall (fun c => fetchOrNeutral c = true) l))
      with (l1 := []); [| |constructor].
    + intros a s l1 _ Hl. eapply post_conseq; [apply fetchOne_log|].
      intros [s'|e] l2 H; apply Forall_app; auto.
    + intros s l H. exact H.
  - intros r l H. exact H.
Qed.

Lemma exactLookup_facts (l : list Call) :
  Forall exactLookup l ->
  Forall (fun c => isListRepoNames c = true) l
  /\ Forall (fun c => privateLookup c = true) l.
Proof.
  induction 1 as [|c l Hc Hl [IH1 IH2]]; [split; constructor|].
  destruct c; simpl in Hc; try contradiction.
  destruct Hc as [Hopts _].
  split; constructor; try assumption; try reflexivity.
  simpl. rewrite Hopts. reflexivity.
Qed.

Lemma savesLastWith_quiet (repoIDs : list Z) (e : error) (l : list Call) :
  Forall (fun c => fetchOrNeutral c = true) l ->
  savesLastWith repoIDs (Err e) l.
Proof.
  intros H. split; [apply fetchOrNeutral_private, H|]. left.
  split; [apply fetchOrNeutral_projections, H|eauto].
Qed.

Lemma savesLastWith_app (repoIDs : list Z) (r : result unit) (l1 l2 : list Call) :
  Forall (fun c => fetchOrNeutral c = true) l1 ->
  savesLastWith repoIDs r l2 ->
  savesLastWith repoIDs r (l1 ++ l2).
Proof.
  intros H1 [Hp H2].
  destruct (fetchOrNeutral_projections l1 H1) as (_ & Hr & Hd & Hs).
  split; [apply Forall_app; split; [apply fetchOrNeutral_private, H1|exact Hp]|].
  destruct H2 as [[Hs2 He]|(l0 & p & x & -> & Hs0 & Hd0 & Hx & Hperm & Htyp & Hids)].
  - left. split; [apply Forall_app; split; assumption|exact He].
  - right. exists (l1 ++ l0), p, x. split; [apply app_assoc|].
    split; [apply Forall_app; split; assumption|].
    split; [unfold directGrants in *; rewrite flat_map_app, Hd, Hd0; reflexivity|].
    split; [exact Hx|]. split; [exact Hperm|]. split; [exact Htyp|].
    rewrite Hids. unfold resolvedNames in *. rewrite flat_map_app, Hr. reflexivity.
Qed.

Lemma savesLastWith_lookups_failed (repoIDs : list Z) (e : error) (l : list Call) :
  Forall (fun c => isListRepoNames c = true) l ->
  Forall (fun c => privateLookup c = true) l ->
  savesLastWith repoIDs (Err e) l.
Proof.
  intros Hl Hp. split; [exact Hp|]. left.
  split; [apply listRepoNames_projections, Hl|eauto].
Qed.

Lemma resolveAndSave_savesLast (user : User) (repoIDs : list Z) (acc : collected) :
  post (resolveAndSave env user repoIDs acc) (savesLastWith repoIDs).
Proof.
  unfold resolveAndSave.
  eapply post_bind_orReturn.
  - apply listPrivateRepoNamesByExact_post.
  - intros e l1 (_ & _ & _ & rest & _ & []).
  - intros e l1 (Hex & _). apply exactLookup_facts in Hex. destruct Hex.
    apply savesLastWith_lookups_failed; assumption.
  - intros names l1 (Hex & _ & _ & rest & _ & (_ & Hnames & _)).
    simpl in Hnames. subst names.
    apply exactLookup_facts in Hex. destruct Hex as [Hl1 Hp1].
    eapply (post_bind _ _
              (fun r l2 =>
                 Forall (fun c => isListRepoNames c = true) (l1 ++ l2)
                 /\ Forall (fun c => privateLookup c = true) (l1 ++ l2)
                 /\ forall names, r = Ok names -> names = resolvedNames (l1 ++ l2))).
    + destruct (includeContainsSpecs acc) as [|inc0 incs].
      * apply post_ret. rewrite app_nil_r. split; [exact Hl1|].
        split; [exact Hp1|]. intros names Hn. inversion Hn. reflexivity.
      * apply post_bind_orReturn_call.
        -- intros e w w' _. split; [|split].
           ++ apply Forall_app. split; [exact Hl1|repeat constructor].
           ++ apply Forall_app. split; [exact Hp1|repeat constructor].
           ++ intros names Hn. discriminate.
        -- intros rs w w' _. apply post_ret. split; [|split].
           ++ apply Forall_app. split; [exact Hl1|repeat constructor].
           ++ apply Forall_app. split; [exact Hp1|repeat constructor].
           ++ intros names Hn. inversion Hn. unfold resolvedNames.
              rewrite !flat_map_app. simpl. rewrite app_nil_r. reflexivity.
    + intros e l2 (Hl & Hp & _). apply savesLastWith_lookups_failed; assumption.
    + intros names l2 (Hl & Hp & Hn). rewrite (Hn names eq_refl). clear Hn.
      destruct (listRepoNames_projections _ Hl) as (_ & Hd & Hs).
      intros w r w' l E. unfold orReturnErr, bind, call, ret, throw in E.
      destruct (SetUserPermissions env _ w) as [x w1].
      assert (Hlog : l = [CSetUserPermissions
                          {| up_UserID := user_ID user; up_Perm := Read;
                             up_Type := PermRepos;
                             up_IDs := bitmapOf (rn_ID <$> resolvedNames (l1 ++ l2))
                                       ∪ bitmapOf repoIDs |} x]
                     /\ r = resultOfError (WrapNil x "set user permissions")).
      { destruct x as [e|]; inversion E; subst; split; reflexivity. }
      destruct Hlog as [-> ->]. cbv beta. rewrite app_assoc. split.
      * apply Forall_app. split; [exact Hp|repeat constructor].
      * right. eexists (l1 ++ l2), _, x. split; [reflexivity|].
        split; [exact Hs|]. split; [exact Hd|]. repeat split; reflexivity.
Qed.

Lemma savesLast_first (userID : Z) (repoIDs : list Z) (r : result unit)
  (l : list Call) :
  savesLastWith repoIDs r l ->
  savesLast r (CListExternalServicePrivateRepoIDsByUserID userID (Ok repoIDs) :: l).
Proof.
  intros [Hp H]. split; [constructor; [reflexivity|exact Hp]|].
  destruct H as [[Hs He]|(l0 & p & x & -> & Hs0 & Hd0 & Hx & Hperm & Htyp & Hids)].
  - left. split; [constructor; [reflexivity|exact Hs]|exact He].
  - right. eexists (_ :: l0), p, x. split; [reflexivity|].
    split; [constructor; [reflexivity|exact Hs0]|].
    split; [exact Hx|]. split; [exact Hperm|]. split; [exact Htyp|].
    rewrite Hids. unfold directGrants in *. simpl. rewrite Hd0, app_nil_r.
    reflexivity.
Qed.

Ltac store_step :=
  apply post_bind_orReturn_call;
  [ intros; apply savesLastWith_quiet; repeat constructor
  | intros ? ? ? _;
    eapply post_conseq;
    [| let rr := fresh "rr" in
       let ll := fresh "ll" in
       let Hrl := fresh "Hrl" in
       intros rr ll Hrl;
       apply (savesLastWith_app _ rr [_] ll); [repeat constructor|exact Hrl] ] ].

(** X9. Whatever the stores and the code hosts answer, a run of
    [syncUserPerms] writes the permissions of the user at most once, as its
    last call, and succeeds only when that write succeeded: a run that ends
    earlier returns an error and writes nothing.  What is written is the
    repositories that the lookups of the run returned, with those granted
    to the user directly; every lookup is for private repositories only. *)
Theorem syncUserPerms_saves_last (userID : Z) (noPerms : bool)
  (w w' : W) (r : result unit) (l : list Call) :
  syncUserPerms env userID noPerms w = (r, w', l) ->
  savesLast r l.
Proof.
  revert w r w' l. change (post (syncUserPerms env userID noPerms) savesLast).
  unfold syncUserPerms.
  apply post_bind_orReturn_call.
  - intros e w w' _. split; [repeat constructor|]. left.
    split; [repeat constructor|eauto].
  - intros repoIDs w w' _.
    eapply post_conseq; [|intros rr ll Hrl; apply savesLast_first; exact Hrl].
    store_step. store_step. cbv zeta. store_step.
    eapply post_bind.
    + apply discoverAccounts_post.
    + intros ? ? [[? ?] _]. discriminate.
    + intros accts l1 [_ Hn].
      eapply post_conseq;
        [|intros rr ll Hrl; apply savesLastWith_app;
          [apply neutral_fetchOrNeutral; exact Hn|exact Hrl]].
      store_step.
      eapply post_bind.
      * apply fetchAll_log.
      * intros ? l2 H2. apply savesLastWith_quiet. exact H2.
      * intros acc l2 H2.
        eapply post_conseq; [apply resolveAndSave_savesLast|].
        intros rr ll Hrl. apply savesLastWith_app; assumption.
Qed.

End UserSave.

Lemma syncUserPerms_saves_last_witness :
  savesLast (Ok tt) (snd (syncUserPerms (envOf twoAccounts) 1 true tt)).
Proof.
  exact (syncUserPerms_saves_last (envOf twoAccounts) 1 true tt tt (Ok tt)
           (snd (syncUserPerms (envOf twoAccounts) 1 true tt)) eq_refl).
Defined.

Section FetchProtocol.

Context {W : Type} (env : Env W).

Lemma quiet_idleToIdle (limited : bool) (l : list Call) :
  Forall (fun c => isProtocolCall c = false) l -> idleToIdle limited l.
Proof.
  induction 1 as [|c l Hc Hl IH]; intros l2; [reflexivity|].
  simpl. destruct c; simpl in Hc; try discriminate; apply IH.
Qed.

Lemma idleToIdle_app (limited : bool) (l1 l2 : list Call) :
  idleToIdle limited l1 -> idleToIdle limited l2 -> idleToIdle limited (l1 ++ l2).
Proof.
  intros H1 H2 l3. rewrite <- app_assoc, H1. apply H2.
Qed.

Lemma idleToIdle_keeps {A : Type} (limited : bool) (r : result A) (l : list Call) :
  idleToIdle limited l -> keepsProtocol limited r l.
Proof.
  intros H. split; [|intros a _; exact H].
  rewrite <- (app_nil_r l), H. reflexivity.
Qed.

Lemma keepsProtocol_app {A : Type} (limited : bool) (r : result A)
  (l1 l2 : list Call) :
  idleToIdle limited l1 -> keepsProtocol limited r l2 ->
  keepsProtocol limited r (l1 ++ l2).
Proof.
  intros H1 [H2 H3]. split.
  - rewrite H1. exact H2.
  - intros a Ha. apply idleToIdle_app; [exact H1|exact (H3 a Ha)].
Qed.

Lemma keepsProtocol_quiet {A : Type} (limited : bool) (r : result A) (l : list Call) :
  Forall (fun c => isProtocolCall c = false) l -> keepsProtocol limited r l.
Proof. intros H. apply idleToIdle_keeps, quiet_idleToIdle, H. Qed.

Lemma keepsProtocol_retype {A B : Type} (limited : bool) (e : error) (l : list Call) :
  keepsProtocol limited (@Err A e) l -> keepsProtocol limited (@Err B e) l.
Proof. intros [H _]. split; [exact H|intros a Ha; discriminate]. Qed.

Ltac protocol_leaf :=
  split; [|intros ? ?; try discriminate; intros ?];
  simpl; unfold afterFetch;
  repeat match goal with
         | H : _ || _ || _ = _ |- _ => rewrite H
         end;
  simpl; rewrite ?String.eqb_refl, ?Z.eqb_refl; reflexivity.

Lemma fetchOne_protocol (noPerms : bool) (byServiceID byURN : gmap string (Provider W))
  (item : Account + ExternalService) (acc : collected) :
  post (fetchOne env noPerms byServiceID byURN item acc)
    (keepsProtocol (isLimited env)).
Proof.
  unfold fetchOne. destruct item as [v|v].
  - destruct (byServiceID !! _) as [provider|];
      [|apply post_ret, keepsProtocol_quiet; constructor].
    intros w r w' l E.
    unfold orReturnErr, waitForRateLimit, isLimited, bind, call, ret, throw in *.
    destruct (rateLimiterRegistry env) as [waitN|].
    + destruct (waitN (ServiceID provider) 1 w) as [[e|] w1].
      * inversion E; subst. protocol_leaf.
      * destruct (FetchUserPerms provider v w1) as [[ext [err|]] w2]; simpl in E.
        -- destruct (IsUnauthorized err || IsAccountSuspended err || IsForbidden err)
             eqn:Auth.
           ++ destruct (TouchExpired env (acct_ID v) w2) as [[e|] w3];
                inversion E; subst; protocol_leaf.
           ++ destruct noPerms; inversion E; subst; protocol_leaf.
        -- destruct (TouchLastValid env (acct_ID v) w2) as [[e|] w3];
             inversion E; subst; protocol_leaf.
    + destruct (FetchUserPerms provider v w) as [[ext [err|]] w2]; simpl in E.
      * destruct (IsUnauthorized err || IsAccountSuspended err || IsForbidden err)
          eqn:Auth.
        -- destruct (TouchExpired env (acct_ID v) w2) as [[e|] w3];
             inversion E; subst; protocol_leaf.
        -- destruct noPerms; inversion E; subst; protocol_leaf.
      * destruct (TouchLastValid env (acct_ID v) w2) as [[e|] w3];
          inversion E; subst; protocol_leaf.
  - destruct (byURN !! _) as [provider|];
      [|apply post_ret, keepsProtocol_quiet; constructor].
    destruct (ExtractToken env _ _) as [token|eT];
      [|apply post_ret, keepsProtocol_quiet; constructor].
    destruct (String.eqb token "");
      [apply post_ret, keepsProtocol_quiet; constructor|].
    intros w r w' l E.
    unfold orReturnErr, waitForRateLimit, isLimited, bind, call, ret, throw in *.
    destruct (rateLimiterRegistry env) as [waitN|].
    + destruct (waitN (ServiceID provider) 1 w) as [[e|] w1].
      * inversion E; subst. protocol_leaf.
      * destruct (FetchUserPermsByToken provider token w1) as [[ext [err|]] w2];
          simpl in E; inversion E; subst; protocol_leaf.
    + destruct (FetchUserPermsByToken provider token w) as [[ext [err|]] w2];
        simpl in E; inversion E; subst; protocol_leaf.
Qed.

Lemma fetchAll_protocol (noPerms : bool) (byServiceID byURN : gmap string (Provider W))
  (items : list (Account + ExternalService)) (acc : collected) :
  post (forEach (fetchOne env noPerms byServiceID byURN) items acc)
    (keepsProtocol (isLimited env)).
Proof.
  eapply post_conseq.
  - apply (post_forEach _ (fun _ l => idleToIdle (isLimited env) l)
             (keepsProtocol (isLimited env))) with (l1 := []).
    + intros a s l1 _ Hl. eapply post_conseq; [apply fetchOne_protocol|].
      intros [s'|e] l2 H.
      * apply idleToIdle_app; [exact Hl|]. destruct H as [_ H]. exact (H s' eq_refl).
      * apply keepsProtocol_app; assumption.
    + intros s l H. apply idleToIdle_keeps, H.
    + intros l2. reflexivity.
  - intros r l H. exact H.
Qed.

Lemma discoverAccounts_quiet (user : User) (emails : list string)
  (known : gmap string Account) (providers : list (Provider W)) (accts : list Account) :
  post (forEach (discoverAccount env user emails known) providers accts)
    (fun r l => (exists a, r = Ok a)
                /\ Forall (fun c => isProtocolCall c = false) l).
Proof.
  eapply post_conseq.
  - apply (post_forEach _ (fun _ l => Forall (fun c => isProtocolCall c = false) l)
             (fun r l => (exists a, r = Ok a)
                         /\ Forall (fun c => isProtocolCall c = false) l)
             providers) with (l1 := []); [| |constructor].
    + intros p s l1 _ Hn. unfold discoverAccount.
      destruct (known !! _); [apply post_ret; rewrite app_nil_r; exact Hn|].
      apply post_bind_call. intros [[acct|]|e] w w' _;
        try (apply post_ret; apply Forall_app; split; [exact Hn|repeat constructor]).
      apply post_bind_call. intros [e|] w1 w1' _; apply post_ret;
        apply Forall_app; split; try exact Hn; repeat constructor.
    + intros s l Hn. split; [eauto|exact Hn].
  - intros r l H. exact H.
Qed.

Lemma lookups_quiet (l : list Call) :
  Forall (fun c => isListRepoNames c = true) l ->
  Forall (fun c => isProtocolCall c = false) l.
Proof.
  intros H. eapply List.Forall_impl; [|exact H].
  intros c Hc. destruct c; simpl in *; try reflexivity; discriminate.
Qed.

Lemma resolveAndSave_quiet (user : User) (repoIDs : list Z) (acc : collected) :
  post (resolveAndSave env user repoIDs acc)
    (fun _ l => Forall (fun c => isProtocolCall c = false) l).
Proof.
  unfold resolveAndSave.
  eapply post_bind_orReturn.
  - apply listPrivateRepoNamesByExact_post.
  - intros e l1 (Hex & _). apply lookups_quiet, exactLookup_facts, Hex.
  - intros e l1 (Hex & _). apply lookups_quiet, exactLookup_facts, Hex.
  - intros names l1 (Hex & _).
    assert (H1 : Forall (fun c => isProtocolCall c = false) l1)
      by apply lookups_quiet, exactLookup_facts, Hex.
    eapply (post_bind _ _
              (fun _ l2 => Forall (fun c => isProtocolCall c = false) (l1 ++ l2))).
    + destruct (includeContainsSpecs acc) as [|inc0 incs].
      * apply post_ret. rewrite app_nil_r. exact H1.
      * apply post_bind_orReturn_call.
        -- intros e w w' _. apply Forall_app. split; [exact H1|repeat constructor].
        -- intros rs w w' _. apply post_ret.
           apply Forall_app. split; [exact H1|repeat constructor].
    + intros e l2 H2. exact H2.
    + intros names2 l2 H2.
      apply post_bind_orReturnErr_call.
      * intros e w w' _. rewrite app_assoc.
        apply Forall_app. split; [exact H2|repeat constructor].
      * intros w w' _. apply post_ret. rewrite app_assoc.
        apply Forall_app. split; [exact H2|repeat constructor].
Qed.

Ltac quiet_step :=
  apply post_bind_orReturn_call;
  [ intros; apply keepsProtocol_quiet; repeat constructor
  | intros ? ? ? _;
    eapply post_conseq;
    [| let rr := fresh "rr" in
       let ll := fresh "ll" in
       let Hrl := fresh "Hrl" in
       intros rr ll Hrl;
       apply (keepsProtocol_app _ rr [_] ll);
       [apply quiet_idleToIdle; repeat constructor|exact Hrl] ] ].

(** X10. Whatever the stores and the code hosts answer, the log of a run of
    [syncUserPerms] follows the protocol of the fetches.  When the syncer
    has a rate limiter registry, every fetch of user permissions comes
    right after a wait for one event of the rate limiter of its code host;
    without a registry nothing is waited for.  The fetch for an external
    account that succeeded is followed at once by marking that account
    valid; one that failed as unauthorized, forbidden or suspended is
    followed at once by marking that account expired; an account is marked
    at no other time. *)
Theorem syncUserPerms_follows_fetch_protocol (userID : Z) (noPerms : bool)
  (w w' : W) (r : result unit) (l : list Call) :
  syncUserPerms env userID noPerms w = (r, w', l) ->
  fetchProtocol (isLimited env) Idle l = true.
Proof.
  intros E.
  assert (H : post (syncUserPerms env userID noPerms) (keepsProtocol (isLimited env))).
  { unfold syncUserPerms.
    quiet_step. quiet_step. quiet_step. cbv zeta. quiet_step.
    eapply post_bind.
    - apply discoverAccounts_quiet.
    - intros ? ? [[? ?] _]. discriminate.
    - intros accts l1 [_ Hn].
      eapply post_conseq;
        [|intros rr ll Hrl; apply keepsProtocol_app;
          [apply quiet_idleToIdle; exact Hn|exact Hrl]].
      quiet_step.
      eapply post_bind.
      + apply fetchAll_protocol.
      + intros ? l2 H2. apply (keepsProtocol_retype _ _ _ H2).
      + intros acc l2 [_ H2].
        eapply post_conseq; [apply resolveAndSave_quiet|].
        intros rr ll Hrl. apply keepsProtocol_app;
          [exact (H2 acc eq_refl)|apply keepsProtocol_quiet, Hrl]. }
  exact (proj1 (H w r w' l E)).
Qed.

End FetchProtocol.

Lemma syncUserPerms_follows_fetch_protocol_witness :
  fetchProtocol (isLimited (envOf twoAccounts)) Idle
    (snd (syncUserPerms (envOf twoAccounts) 1 false tt)) = true.
Proof.
  exact (syncUserPerms_follows_fetch_protocol (envOf twoAccounts) 1 false tt tt
           (fst (fst (syncUserPerms (envOf twoAccounts) 1 false tt)))
           (snd (syncUserPerms (envOf twoAccounts) 1 false tt)) eq_refl).
Defined.

Lemma provider_maps_keep_last_witness :
  providersByServiceID (envOf twoAccounts) !! "https://github.com/" = Some codeHost
  /\ ServiceID codeHost = "https://github.com/"
  /\ In codeHost (GetProviders (envOf twoAccounts)).
Proof.
  assert (Hl : providersByServiceID (envOf twoAccounts) !! "https://github.com/"
               = Some codeHost) by reflexivity.
  split; [exact Hl|].
  exact (proj1 (proj2 (proj2 (provider_maps_keep_last (envOf twoAccounts)
                                "https://github.com/")))
           codeHost Hl).
Defined.

(* ===================================================================== *)
(** * Properties of the Perforce provider *)
(* ===================================================================== *)

Module PerforceProviderFacts.

Import PerforceProvider.

Section Provider.

Context {W : Type}.
Context (Marshal : string -> string -> result string)
        (IsHostOfRepo : CodeHost -> ExternalRepoSpec -> bool)
        (Quote : string -> string).

Lemma scanAccount_first_verified (p : @Provider W) (u : User) (emails : list string)
  (lines : list string) :
  match scanAccount Marshal p u (list_to_set emails) lines with
  | None => Forall (fun l => verifiedLine emails l = false) lines
  | Some x =>
      exists before line after username email,
        lines = before ++ line :: after
        /\ Forall (fun l => verifiedLine emails l = false) before
        /\ userOfLine line = Some (username, email)
        /\ In email emails
        /\ x = match Marshal username email with
               | Err e => Err e
               | Ok data => Ok (accountOf p u email data)
               end
  end.
Proof.
  induction lines as [|line rest IH]; simpl; [constructor|].
  destruct (userOfLine line) as [[username email]|] eqn:Eu.
  - destruct (bool_decide (email ∈ (list_to_set emails : gset string))) eqn:Ev.
    + apply bool_decide_eq_true in Ev. rewrite elem_of_list_to_set in Ev.
      assert (Hres : exists x,
                 match Marshal username email with
                 | Err e => Some (Err e)
                 | Ok accountData => Some (Ok (accountOf p u email accountData))
                 end = Some x
                 /\ x = match Marshal username email with
                        | Err e => Err e
                        | Ok data => Ok (accountOf p u email data)
                        end).
      { destruct (Marshal username email); eauto. }
      destruct Hres as (x & Hx & Hx'). unfold accountOf in Hx. rewrite Hx.
      exists [], line, rest, username, email.
      split; [reflexivity|]. split; [constructor|]. split; [exact Eu|].
      split; [apply list_elem_of_In; exact Ev|exact Hx'].
    + apply bool_decide_eq_false in Ev. rewrite elem_of_list_to_set in Ev.
      assert (Hl : verifiedLine emails line = false).
      { unfold verifiedLine. rewrite Eu. apply bool_decide_eq_false. exact Ev. }
      destruct (scanAccount Marshal p u (list_to_set emails) rest) as [x|].
      * destruct IH as (before & l0 & after & un & em & -> & Hb & Hu & Hin & Hx).
        exists (line :: before), l0, after, un, em.
        split; [reflexivity|]. split; [constructor; assumption|]. auto.
      * constructor; assumption.
  - assert (Hl : verifiedLine emails line = false).
    { unfold verifiedLine. rewrite Eu. reflexivity. }
    destruct (scanAccount Marshal p u (list_to_set emails) rest) as [x|].
    + destruct IH as (before & l0 & after & un & em & -> & Hb & Hu & Hin & Hx).
      exists (line :: before), l0, after, un, em.
      split; [reflexivity|]. split; [constructor; assumption|]. auto.
    + constructor; assumption.
Qed.

(** X11. [FetchAccount] for a user runs [p4 users] once and keeps the
    provider as it was.  The account it returns is the one of the first
    line of the output whose email is among the verified emails of the
    user: it has that email as account ID, the user's ID and the code host
    of the provider.  It returns no account only when no line of the output
    has a verified email; the lines after the first match are not looked
    at, nor is the error of the scanner. *)
Theorem FetchAccount_first_verified_email (u : User) (emails : list string)
  (r r' : @Run W) (res : result (option Account)) (l : list Call) :
  FetchAccount Marshal (Some u) emails r = (res, r', l) ->
  executed r' = executed r ++ [["users"]]
  /\ provider r' = provider r
  /\ fetchedAccount Marshal (provider r) u emails (answerTo r ["users"]) res.
Proof.
  unfold FetchAccount, answerTo, orReturn, bind, P4Exec, get, ret, throw.
  destruct (p4Execer (provider r) (host (provider r)) (user (provider r))
              (password (provider r)) ["users"] (server r)) as [[out|e] w1] eqn:Ex.
  - simpl.
    pose proof (scanAccount_first_verified (provider r) u emails (scanned out)) as Hs.
    destruct (scanAccount Marshal (provider r) u (list_to_set emails) (scanned out))
      as [[acct|e]|].
    + intros E. inversion E; subst. simpl. split; [reflexivity|]. split; [reflexivity|].
      destruct Hs as (before & line & after & un & em & Hl & Hb & Hu & Hin & Hx).
      destruct (Marshal un em) as [data|e] eqn:Em; [|discriminate].
      inversion Hx. exists before, line, after, un, em, data. auto 10.
    + intros E. inversion E; subst. simpl. split; [reflexivity|]. split; [reflexivity|].
      destruct Hs as (before & line & after & un & em & Hl & Hb & Hu & Hin & Hx).
      destruct (Marshal un em) as [data|e0] eqn:Em; [discriminate|].
      inversion Hx. subst e0. left. exists before, line, after, un, em. auto 10.
    + destruct (scannerErr out) as [e0|] eqn:Ee; intros E; inversion E; subst; simpl;
        (split; [reflexivity|]); (split; [reflexivity|]).
      * right. split; [exact Hs|]. eauto.
      * split; [exact Hs|reflexivity].
  - simpl. intros E. inversion E; subst. simpl. auto.
Qed.

Lemma bind_get {A : Type} (f : @Run W -> M (@Run W) A) (r : @Run W) :
  (r0 <- get ;; f r0) r = f r r.
Proof.
  unfold bind, get. destruct (f r r) as [[res r'] l]. reflexivity.
Qed.

Lemma getGroupMembers_hit (group : string) (r : @Run W) (m : string)
  (ms : list string) :
  cachedGroupMembers (provider r) !! group = Some (m :: ms) ->
  getGroupMembers group r = (Ok (m :: ms), r, []).
Proof.
  intros H. unfold getGroupMembers. rewrite bind_get, H. reflexivity.
Qed.

Lemma getGroupMembers_miss (group : string) (r r' : @Run W)
  (res : result (list string)) (l : list Call) :
  (forall m ms, cachedGroupMembers (provider r) !! group <> Some (m :: ms)) ->
  getGroupMembers group r = (res, r', l) ->
  executed r' = executed r ++ [["group"; "-o"; group]]
  /\ cachedAllUserEmails (provider r') = cachedAllUserEmails (provider r)
  /\ forall members, res = Ok members ->
                     cachedGroupMembers (provider r') !! group = Some members.
Proof.
  intros Hmiss E.
  assert (E' : (out <- orReturn (P4Exec ["group"; "-o"; group]) "list group members" ;;
                let found := scanMembers false O (scanned out) [] in
                let err := match snd found with
                           | None => scannerErr out
                           | Some k => errAfter out k
                           end in
                match err with
                | Some e => throw (Wrap e "scanner.Err")
                | None =>
                    let members := fst found in
                    r <- get ;;
                    let p := provider r in
                    _ <- setProvider
                           {| urn := urn p; codeHost := codeHost p; host := host p;
                              user := user p; password := password p;
                              p4Execer := p4Execer p;
                              cachedAllUserEmails := cachedAllUserEmails p;
                              cachedGroupMembers :=
                                <[group := members]> (cachedGroupMembers p) |} ;;
                    ret members
                end) r = (res, r', l)).
  { rewrite <- E. unfold getGroupMembers. rewrite bind_get.
    destruct (cachedGroupMembers (provider r) !! group) as [[|m ms]|] eqn:Ec;
      try reflexivity.
    exfalso. exact (Hmiss m ms eq_refl). }
  clear E. revert E'.
  unfold orReturn, P4Exec, setProvider, get, ret, throw, bind. cbv beta zeta.
  destruct (p4Execer (provider r) (host (provider r)) (user (provider r))
              (password (provider r)) ["group"; "-o"; group] (server r))
    as [[out|e] w1]; cbv beta iota.
  - destruct (match snd (scanMembers false 0 (scanned out) []) with
              | Some k => errAfter out k
              | None => scannerErr out
              end) as [e|]; cbv beta iota;
      intros E; inversion E; subst; simpl;
      (split; [reflexivity|]); (split; [reflexivity|]);
      intros members Hm; inversion Hm; subst; apply lookup_insert_eq.
  - intros E; inversion E; subst; simpl.
    split; [reflexivity|]. split; [reflexivity|]. intros members Hm. discriminate.
Qed.

(** X12. What [getGroupMembers] caches.  After a call that found the group
    with members, the next call returns the same members from the cache:
    no command is run and the provider is left as it is.  A group found
    without member is not served from the cache: the next call runs
    [p4 group -o] for it again. *)
Theorem getGroupMembers_caches_groups_with_members (group : string)
  (r r1 r2 : @Run W) (members : list string) (res2 : result (list string))
  (l1 l2 : list Call) :
  getGroupMembers group r = (Ok members, r1, l1) ->
  getGroupMembers group r1 = (res2, r2, l2) ->
  (members <> [] -> res2 = Ok members /\ r2 = r1)
  /\ (members = [] -> executed r2 = executed r1 ++ [["group"; "-o"; group]]).
Proof.
  intros E1 E2.
  assert (Hc : cachedGroupMembers (provider r1) !! group = Some members).
  { destruct (cachedGroupMembers (provider r) !! group) as [[|m ms]|] eqn:Ec.
    - destruct (getGroupMembers_miss group r r1 (Ok members) l1) as (_ & _ & H);
        [congruence|exact E1|apply H; reflexivity].
    - rewrite (getGroupMembers_hit group r m ms Ec) in E1. inversion E1; subst.
      exact Ec.
    - destruct (getGroupMembers_miss group r r1 (Ok members) l1) as (_ & _ & H);
        [congruence|exact E1|apply H; reflexivity]. }
  split.
  - intros Hne. destruct members as [|m ms]; [contradiction|].
    rewrite (getGroupMembers_hit group r1 m ms Hc) in E2. inversion E2. auto.
  - intros ->.
    destruct (getGroupMembers_miss group r1 r2 res2 l2) as (H & _);
      [congruence|exact E2|exact H].
Qed.

Lemma triple_ret {S A : Type} (P : S -> Prop) (a : A) (Q : result A -> S -> Prop) :
  (forall w, P w -> Q (Ok a) w) -> triple P (ret a) Q.
Proof. intros H w r w' l Hw E. inversion E; subst. apply H, Hw. Qed.

Lemma triple_throw {S A : Type} (P : S -> Prop) (e : error)
  (Q : result A -> S -> Prop) :
  (forall w, P w -> Q (Err e) w) -> triple P (throw e) Q.
Proof. intros H w r w' l Hw E. inversion E; subst. apply H, Hw. Qed.

Lemma triple_conseq {S A : Type} (P : S -> Prop) (m : M S A)
  (Q Q' : result A -> S -> Prop) :
  triple P m Q -> (forall r w, Q r w -> Q' r w) -> triple P m Q'.
Proof. intros H HQ w r w' l Hw E. apply HQ, (H w r w' l Hw E). Qed.

Lemma triple_bind {S A B : Type} (P : S -> Prop) (m : M S A) (f : A -> M S B)
  (Q1 : result A -> S -> Prop) (Q : result B -> S -> Prop) :
  triple P m Q1 ->
  (forall e w, Q1 (Err e) w -> Q (Err e) w) ->
  (forall a, triple (Q1 (Ok a)) (f a) Q) ->
  triple P (bind m f) Q.
Proof.
  intros Hm He Hf w r w' l Hw E. unfold bind in E.
  destruct (m w) as [[ra w1] l1] eqn:Em.
  pose proof (Hm _ _ _ _ Hw Em) as H1.
  destruct ra as [a|e].
  - destruct (f a w1) as [[rb w2] l2] eqn:Ef.
    inversion E; subst. exact (Hf a _ _ _ _ H1 Ef).
  - inversion E; subst. apply He, H1.
Qed.

Lemma triple_forEach {S A X : Type} (body : A -> X -> M S X) (Inv : X -> S -> Prop)
  (Q : result X -> S -> Prop) (items : list A) :
  (forall a x, triple (Inv x) (body a x)
                 (fun r w => match r with
                             | Ok x' => Inv x' w
                             | Err e => Q (Err e) w
                             end)) ->
  (forall x w, Inv x w -> Q (Ok x) w) ->
  forall x, triple (Inv x) (forEach body items x) Q.
Proof.
  intros Hbody Hend. induction items as [|a items IH]; intros x; simpl.
  - apply triple_ret. apply Hend.
  - eapply triple_bind; [apply Hbody| |].
    + intros e w H. exact H.
    + intros x'. apply IH.
Qed.

Lemma triple_wrapping {A : Type} (P : @Run W -> Prop) (m : M (@Run W) A)
  (msg : string) (Q Q' : result A -> @Run W -> Prop) :
  triple P m Q ->
  (forall e w, Q (Err e) w -> Q' (Err (Wrap e msg)) w) ->
  (forall a w, Q (Ok a) w -> Q' (Ok a) w) ->
  triple P (wrapping m msg) Q'.
Proof.
  intros Hm He Ha w r w' l Hw E. unfold wrapping in E.
  destruct (m w) as [[ra w1] l1] eqn:Em.
  pose proof (Hm _ _ _ _ Hw Em) as H1.
  destruct ra as [a|e]; inversion E; subst; auto.
Qed.

Lemma usersRuns_app (a b : list (list string)) :
  usersRuns (a ++ b) = (usersRuns a + usersRuns b)%nat.
Proof. unfold usersRuns. rewrite List.filter_app, length_app. reflexivity. Qed.

Lemma usersOnce_weaken (b : bool) (r0 r : @Run W) :
  usersOnce true r0 r -> usersOnce b r0 r.
Proof.
  intros (cmds & He & Hc & Hk & Hs). exists cmds.
  split; [exact He|]. split; [exact Hc|]. split; [exact Hk|].
  intros _. apply Hs. reflexivity.
Qed.

Lemma usersOnce_refl (r : @Run W) : usersOnce true r r.
Proof.
  exists []. rewrite app_nil_r. split; [reflexivity|].
  split; [unfold usersRuns; simpl; lia|].
  split; [intros m Hm; split; [exact Hm|reflexivity]|reflexivity].
Qed.

(** A command other than [p4 users], and a change of the cache of the
    groups, keep [usersOnce]. *)
Lemma usersOnce_step (b : bool) (r0 r r' : @Run W) (args : list string) :
  usersOnce b r0 r ->
  args <> ["users"] ->
  executed r' = executed r ++ [args] ->
  cachedAllUserEmails (provider r') = cachedAllUserEmails (provider r) ->
  usersOnce b r0 r'.
Proof.
  intros (cmds & He & Hc & Hk & Hs) Hne Hex Hca.
  assert (Hn : usersRuns (cmds ++ [args]) = usersRuns cmds).
  { rewrite usersRuns_app. unfold usersRuns at 2. simpl.
    rewrite bool_decide_eq_false_2 by exact Hne. simpl. lia. }
  exists (cmds ++ [args]). rewrite Hex, He, Hn, Hca, app_assoc.
  split; [reflexivity|]. split; [exact Hc|]. split; [exact Hk|exact Hs].
Qed.

Lemma P4Exec_other (b : bool) (r0 : @Run W) (args : list string) :
  args <> ["users"] ->
  triple (usersOnce b r0) (P4Exec args) (fun _ => usersOnce b r0).
Proof.
  intros Hne r res r' l H E. unfold P4Exec in E.
  destruct (p4Execer _ _ _ _ args (server r)) as [x w1].
  inversion E; subst.
  apply (usersOnce_step b r0 r _ args); [exact H|exact Hne|reflexivity..].
Qed.

Lemma getAllUserEmails_once (r0 : @Run W) :
  triple (usersOnce true r0) getAllUserEmails
    (fun res r => usersOnceAfter r0 res r
                  /\ forall m, res = Ok m -> cachedAllUserEmails (provider r) = Some m).
Proof.
  intros r res r' l (cmds & He & Hc & Hk & Hs).
  unfold getAllUserEmails. rewrite bind_get.
  destruct (cachedAllUserEmails (provider r)) as [cached|] eqn:Ec.
  - intros E. inversion E; subst. split.
    + exists cmds. rewrite Ec. split; [exact He|]. split; [exact Hc|].
      split; [exact Hk|]. intros _ Hn. discriminate.
    + intros m Hm. inversion Hm; subst. exact Ec.
  - assert (H0 : usersRuns cmds = 0%nat) by (apply Hs; reflexivity).
    assert (Hn : usersRuns (cmds ++ [["users"]]) = 1%nat).
    { rewrite usersRuns_app, H0. reflexivity. }
    assert (Hfresh : forall m, cachedAllUserEmails (provider r0) <> Some m).
    { intros m Hm. destruct (Hk m Hm) as [Hm' _]. congruence. }
    unfold orReturn, P4Exec, setProvider, get, ret, throw, bind. cbv beta zeta.
    destruct (p4Execer (provider r) (host (provider r)) (user (provider r))
                (password (provider r)) ["users"] (server r)) as [[out|e] w1];
      cbv beta iota;
      [destruct (scannerErr out) as [e|]; cbv beta iota|];
      intros E; inversion E; subst; unfold usersOnceAfter; simpl;
      (split;
       [ exists (cmds ++ [["users"]]); rewrite He, Hn, app_assoc;
         split; [reflexivity|]; split; [lia|];
         split; [intros m Hm; exfalso; exact (Hfresh m Hm)|];
         intros; discriminate
       | intros m Hm; inversion Hm; reflexivity ]).
Qed.

Lemma getGroupMembers_once (r0 : @Run W) (group : string) :
  triple (usersOnce true r0) (getGroupMembers group)
    (fun res r => usersOnceAfter (A := list string) r0 res r).
Proof.
  intros r res r' l H E. unfold usersOnceAfter.
  assert (Hgoal : usersOnce true r0 r').
  { destruct (cachedGroupMembers (provider r) !! group) as [[|m ms]|] eqn:Ec.
    - destruct (getGroupMembers_miss group r r' res l) as (Hex & Hca & _);
        [congruence|exact E|].
      apply (usersOnce_step true r0 r r' ["group"; "-o"; group]);
        [exact H|discriminate|exact Hex|exact Hca].
    - rewrite (getGroupMembers_hit group r m ms Ec) in E. inversion E; subst.
      exact H.
    - destruct (getGroupMembers_miss group r r' res l) as (Hex & Hca & _);
        [congruence|exact E|].
      apply (usersOnce_step true r0 r r' ["group"; "-o"; group]);
        [exact H|discriminate|exact Hex|exact Hca]. }
  apply usersOnce_weaken. exact Hgoal.
Qed.

Lemma usersOnceAfter_ret {A : Type} (r0 : @Run W) (a : A) :
  triple (usersOnce true r0) (ret a) (usersOnceAfter r0).
Proof. apply triple_ret. intros w H. exact H. Qed.

Lemma scanUsersLine_once (r0 : @Run W) (line : string) (users : gset string) :
  triple (usersOnce true r0) (scanUsersLine Quote line users) (usersOnceAfter r0).
Proof.
  assert (Hgroup : forall (f : list string -> gset string) name msg,
             triple (usersOnce true r0)
               (members <- wrapping (getGroupMembers name) msg ;; ret (f members))
               (usersOnceAfter r0)).
  { intros f name msg. eapply triple_bind with (Q1 := usersOnceAfter r0).
    - eapply triple_wrapping with (Q' := usersOnceAfter r0);
        [apply getGroupMembers_once| |]; intros ? ? H; exact H.
    - intros e w H. exact H.
    - intros members. apply usersOnceAfter_ret. }
  unfold scanUsersLine.
  destruct (Perforce.HasPrefix line "##"); [apply usersOnceAfter_ret|].
  cbv zeta.
  destruct (length (Fields _) <? 5)%nat; [apply usersOnceAfter_ret|].
  destruct (Perforce.HasPrefix _ "-").
  - destruct (negb (Perforce.canRevokeReadAccess _)); [apply usersOnceAfter_ret|].
    destruct (String.eqb _ "user").
    + destruct (String.eqb _ "*"); apply usersOnceAfter_ret.
    + destruct (String.eqb _ "group"); [apply Hgroup|apply usersOnceAfter_ret].
  - destruct (negb (Perforce.canGrantReadAccess _)); [apply usersOnceAfter_ret|].
    destruct (String.eqb _ "user").
    + destruct (String.eqb _ "*"); [|apply usersOnceAfter_ret].
      eapply triple_bind with (Q1 := usersOnceAfter r0).
      * eapply triple_wrapping
          with (Q := usersOnceAfter r0) (Q' := usersOnceAfter r0).
        -- unfold getAllUsers. eapply triple_bind with (Q1 := usersOnceAfter r0).
           ++ eapply triple_wrapping with (Q' := usersOnceAfter r0);
                [apply getAllUserEmails_once| |]; intros ? ? [H _]; exact H.
           ++ intros e w H. exact H.
           ++ intros m. apply usersOnceAfter_ret.
        -- intros e w H. exact H.
        -- intros a w H. exact H.
      * intros e w H. exact H.
      * intros all. apply usersOnceAfter_ret.
    + destruct (String.eqb _ "group"); [apply Hgroup|apply usersOnceAfter_ret].
Qed.

Lemma scanAllUsers_once (r0 : @Run W) (rc : Output) :
  triple (usersOnce true r0) (scanAllUsers Quote rc) (usersOnceAfter r0).
Proof.
  unfold scanAllUsers. eapply triple_bind with (Q1 := usersOnceAfter r0).
  - apply (triple_forEach _ (fun _ => usersOnce true r0) (usersOnceAfter r0)).
    + intros line users. eapply triple_conseq; [apply scanUsersLine_once|].
      intros [x|e] w H; exact H.
    + intros x w H. exact H.
  - intros e w H. exact H.
  - intros users. destruct (scannerErr rc) as [e|].
    + apply triple_throw. intros w H. apply usersOnce_weaken. exact H.
    + apply usersOnceAfter_ret.
Qed.

(** X13. Whatever the server answers, a run of [FetchRepoPerms] runs
    [p4 users] at most once, and not at all when the emails of the users are
    already cached; cached emails are kept as they are.  The account IDs of
    a run that succeeds are emails that the provider has cached for users
    of the server. *)
Theorem FetchRepoPerms_lists_users_once (repo : option Repository)
  (r0 r : @Run W) (res : result (list string)) (l : list Call) :
  FetchRepoPerms IsHostOfRepo Quote repo r0 = (res, r, l) ->
  usersOnce false r0 r
  /\ forall extIDs, res = Ok extIDs -> emailsOfUsers r extIDs.
Proof.
  intros E.
  assert (H : triple (usersOnce true r0) (FetchRepoPerms IsHostOfRepo Quote repo)
                (fun res r => usersOnce false r0 r
                              /\ forall extIDs, res = Ok extIDs -> emailsOfUsers r extIDs)).
  { unfold FetchRepoPerms. destruct repo as [repo|].
    - eapply triple_bind with (Q1 := fun _ => usersOnce true r0).
      + intros w res0 w' l0 Hw E0. inversion E0; subst. exact Hw.
      + intros e w Hw. split; [apply usersOnce_weaken, Hw|discriminate].
      + intros r1. destruct (negb (IsHostOfRepo _ _)).
        * apply triple_throw. intros w Hw.
          split; [apply usersOnce_weaken, Hw|discriminate].
        * eapply triple_bind with (Q1 := fun _ => usersOnce true r0).
          -- unfold orReturn. eapply triple_bind with (Q1 := fun _ => usersOnce true r0).
             ++ apply P4Exec_other. discriminate.
             ++ intros e w Hw. exact Hw.
             ++ intros [rc|e]; [apply triple_ret|apply triple_throw]; auto.
          -- intros e w Hw. split; [apply usersOnce_weaken, Hw|discriminate].
          -- intros rc. eapply triple_bind with (Q1 := usersOnceAfter r0).
             ++ eapply triple_wrapping with (Q' := usersOnceAfter r0);
                  [apply scanAllUsers_once| |]; intros ? ? Hw; exact Hw.
             ++ intros e w Hw. split; [exact Hw|discriminate].
             ++ intros users.
                eapply triple_bind
                  with (Q1 := fun res r =>
                                usersOnceAfter r0 res r
                                /\ forall m, res = Ok m ->
                                     cachedAllUserEmails (provider r) = Some m).
                ** eapply triple_wrapping
                     with (Q' := fun res r =>
                                   usersOnceAfter r0 res r
                                   /\ forall m, res = Ok m ->
                                        cachedAllUserEmails (provider r) = Some m);
                     [apply getAllUserEmails_once| |].
                   --- intros e w [Hw _]. split; [exact Hw|discriminate].
                   --- intros a w Hw. exact Hw.
                ** intros e w [Hw _]. split; [exact Hw|discriminate].
                ** intros userEmails. apply triple_ret. intros w [Hw Hm].
                   split; [apply usersOnce_weaken, Hw|].
                   intros extIDs Hx. inversion Hx; subst. exists userEmails.
                   split; [apply Hm; reflexivity|].
                   intros id Hin. apply list_elem_of_In in Hin.
                   apply list_elem_of_omap in Hin. destruct Hin as (name & _ & Hn).
                   exists name. exact Hn.
    - apply triple_throw. intros w Hw.
      split; [apply usersOnce_weaken, Hw|discriminate]. }
  exact (H r0 res r l (usersOnce_refl r0) E).
Qed.

End Provider.

End PerforceProviderFacts.

Module PerforceProviderSamples.

Import PerforceProvider.

Lemma FetchAccount_first_verified_email_witness :
  executed (snd (fst (FetchAccount sampleMarshal
                        (Some {| user_ID := 7; Username := "bob" |})
                        ["b@example.org"; "bob@example.com"] sampleRun)))
  = executed sampleRun ++ [["users"]]
  /\ provider (snd (fst (FetchAccount sampleMarshal
                           (Some {| user_ID := 7; Username := "bob" |})
                           ["b@example.org"; "bob@example.com"] sampleRun)))
     = provider sampleRun
  /\ fetchedAccount sampleMarshal (provider sampleRun)
       {| user_ID := 7; Username := "bob" |} ["b@example.org"; "bob@example.com"]
       (answerTo sampleRun ["users"])
       (Ok (Some (accountOf sampleProvider {| user_ID := 7; Username := "bob" |}
                    "bob@example.com" "bob bob@example.com"))).
Proof.
  assert (E : FetchAccount sampleMarshal (Some {| user_ID := 7; Username := "bob" |})
                ["b@example.org"; "bob@example.com"] sampleRun
              = (Ok (Some (accountOf sampleProvider {| user_ID := 7; Username := "bob" |}
                             "bob@example.com" "bob bob@example.com")),
                 snd (fst (FetchAccount sampleMarshal
                             (Some {| user_ID := 7; Username := "bob" |})
                             ["b@example.org"; "bob@example.com"] sampleRun)),
                 [])) by (vm_compute; reflexivity).
  exact (PerforceProviderFacts.FetchAccount_first_verified_email sampleMarshal
           {| user_ID := 7; Username := "bob" |} ["b@example.org"; "bob@example.com"]
           sampleRun _ _ _ E).
Defined.

Lemma getGroupMembers_caches_groups_with_members_witness :
  (["alice"; "bob"] <> [] ->
   fst (fst (getGroupMembers "devs" (snd (fst (getGroupMembers "devs" sampleRun)))))
   = Ok ["alice"; "bob"]
   /\ snd (fst (getGroupMembers "devs" (snd (fst (getGroupMembers "devs" sampleRun)))))
      = snd (fst (getGroupMembers "devs" sampleRun)))
  /\ (["alice"; "bob"] = [] ->
      executed (snd (fst (getGroupMembers "devs"
                            (snd (fst (getGroupMembers "devs" sampleRun))))))
      = executed (snd (fst (getGroupMembers "devs" sampleRun)))
        ++ [["group"; "-o"; "devs"]]).
Proof.
  assert (E1 : getGroupMembers "devs" sampleRun
               = (Ok ["alice"; "bob"], snd (fst (getGroupMembers "devs" sampleRun)), []))
    by (vm_compute; reflexivity).
  assert (E2 : getGroupMembers "devs" (snd (fst (getGroupMembers "devs" sampleRun)))
               = (fst (fst (getGroupMembers "devs"
                              (snd (fst (getGroupMembers "devs" sampleRun))))),
                  snd (fst (getGroupMembers "devs"
                              (snd (fst (getGroupMembers "devs" sampleRun))))),
                  []))
    by (vm_compute; reflexivity).
  exact (PerforceProviderFacts.getGroupMembers_caches_groups_with_members "devs"
           sampleRun _ _ ["alice"; "bob"] _ [] [] E1 E2).
Defined.

Lemma FetchRepoPerms_lists_users_once_witness :
  usersOnce false sampleRun
    (snd (fst (FetchRepoPerms sameService id (Some sampleDepot) sampleRun)))
  /\ forall extIDs,
       Ok ["carol@example.com"; "alice@example.com"] = Ok extIDs ->
       emailsOfUsers
         (snd (fst (FetchRepoPerms sameService id (Some sampleDepot) sampleRun)))
         extIDs.
Proof.
  assert (E : FetchRepoPerms sameService id (Some sampleDepot) sampleRun
              = (Ok ["carol@example.com"; "alice@example.com"],
                 snd (fst (FetchRepoPerms sameService id (Some sampleDepot) sampleRun)),
                 [])) by (vm_compute; reflexivity).
  exact (PerforceProviderFacts.FetchRepoPerms_lists_users_once sameService id
           (Some sampleDepot) sampleRun _ _ _ E).
Defined.

End PerforceProviderSamples.

Module PerforceWildcards.

Import Perforce.

Lemma list_ascii_of_string_app (a b : string) :
  list_ascii_of_string (a +:+ b) = list_ascii_of_string a ++ list_ascii_of_string b.
Proof. induction a as [|c a IH]; simpl; [reflexivity|]. rewrite IH. reflexivity. Qed.

Lemma noStar_app (a b : string) : noStar a -> noStar b -> noStar (a +:+ b).
Proof.
  unfold noStar. rewrite list_ascii_of_string_app. intros Ha Hb.
  apply Forall_app. split; assumption.
Qed.

Lemma noStar_Index (s : string) : noStar s -> Index s "*" = -1.
Proof.
  unfold noStar. induction s as [|c s IH]; intros H; [reflexivity|].
  simpl in H. apply Forall_cons_1 in H. destruct H as [Hc Hs].
  cbn [Index]. cbn [String.prefix].
  destruct (ascii_dec "*"%char c) as [<-|Hne]; [contradiction|].
  rewrite (IH Hs). reflexivity.
Qed.

Lemma noStar_Contains (s : string) : noStar s -> Contains s "*" = false.
Proof. intros H. unfold Contains. rewrite (noStar_Index s H). reflexivity. Qed.

Lemma noStar_dropString (n : nat) (s : string) : noStar s -> noStar (dropString n s).
Proof.
  revert s. induction n as [|n IH]; intros s H; [destruct s; exact H|].
  destruct s as [|c s]; [exact H|]. simpl. apply IH.
  unfold noStar in *. simpl in H. apply Forall_cons_1 in H. apply H.
Qed.

Lemma replaceFrom_star (s : string) :
  noStar (replaceFrom O s "*" wildcardMatchDirectory).
Proof.
  induction s as [|c s IH]; [constructor|].
  cbn [replaceFrom]. cbn [String.prefix].
  destruct (ascii_dec "*"%char c) as [<-|Hne].
  - destruct s; (apply noStar_app; [repeat constructor; discriminate|exact IH]).
  - destruct s; (constructor; [congruence|exact IH]).
Qed.

Lemma normalize_noStar (depotMatch : string) : noStar (normalize depotMatch).
Proof. unfold normalize, ReplaceAll. apply replaceFrom_star. Qed.

Lemma excludeLoop_noStar (d : string) (i : nat) (rest inc exc : list string) :
  noStar d -> Forall noStar inc -> Forall noStar exc ->
  Forall noStar (fst (excludeLoop d i rest inc exc))
  /\ Forall noStar (snd (excludeLoop d i rest inc exc)).
Proof.
  intros Hd Hi He. revert i. induction rest as [|prefix rest IH]; intros i; simpl.
  - auto.
  - destruct (negb (HasPrefix d prefix)); [apply IH|].
    destruct (String.eqb d prefix); simpl.
    + split; [|exact He]. apply Forall_app. split.
      * apply Forall_take. exact Hi.
      * apply Forall_drop. exact Hi.
    + split; [exact Hi|]. apply Forall_app. split; [exact He|repeat constructor; exact Hd].
Qed.

Lemma scanLine_noStar (line : string) (st : list string * list string) :
  Forall noStar (fst st) -> Forall noStar (snd st) ->
  Forall noStar (fst (scanLine line st)) /\ Forall noStar (snd (scanLine line st)).
Proof.
  destruct st as [inc exc]. simpl. intros Hi He. unfold scanLine.
  destruct (HasPrefix line "##"); [auto|]. cbv zeta.
  destruct (length (Fields _) <? 5)%nat; [auto|].
  destruct (HasPrefix (normalize _) "-").
  - destruct (negb (canRevokeReadAccess _)); [auto|].
    unfold applyExclusion.
    match goal with
    | |- context [isWildcard ?x] =>
        assert (Hd : noStar x)
          by (apply (noStar_dropString 1), normalize_noStar);
        generalize dependent x
    end.
    intros d Hd. destruct (isWildcard d); simpl.
    + split; [exact Hi|]. apply Forall_app. split; [exact He|repeat constructor; exact Hd].
    + apply excludeLoop_noStar; assumption.
  - destruct (negb (canGrantReadAccess _)); [auto|]. simpl.
    split; [|exact He]. apply Forall_app.
    split; [exact Hi|repeat constructor; apply normalize_noStar].
Qed.

Lemma scanLines_noStar (lines : list string) (st : list string * list string) :
  Forall noStar (fst st) -> Forall noStar (snd st) ->
  Forall noStar (fst (foldl (fun st line => scanLine line st) st lines))
  /\ Forall noStar (snd (foldl (fun st line => scanLine line st) st lines)).
Proof.
  revert st. induction lines as [|line lines IH]; intros st Hi He; simpl; [auto|].
  destruct (scanLine_noStar line st Hi He) as [Hi' He']. apply IH; assumption.
Qed.

Lemma returnedPrefix_map (l : list string) :
  Forall noStar l ->
  Forall returnedPrefix (map (fun s => s +:+ wildcardMatchAll) l).
Proof.
  intros H. apply Forall_map. eapply List.Forall_impl; [|exact H].
  intros s Hs. split; [|eauto].
  apply noStar_Contains, noStar_app; [exact Hs|repeat constructor; discriminate].
Qed.

(** X14. Whatever [p4 protects] prints, the permissions that
    [FetchUserPerms] returns name no repository exactly, and every depot
    prefix in them, included or excluded, has no [*] left (each was replaced
    by the character class of one directory) and ends with the wildcard
    that matches everything. *)
Theorem FetchUserPerms_returns_prefixes_without_star (lines : list string)
  (scanErr : option error) :
  Exacts (fst (FetchUserPerms lines scanErr)) = []
  /\ Forall returnedPrefix (IncludeContains (fst (FetchUserPerms lines scanErr)))
  /\ Forall returnedPrefix (ExcludeContains (fst (FetchUserPerms lines scanErr))).
Proof.
  unfold FetchUserPerms.
  destruct (scanLines_noStar lines ([], [])) as [Hi He]; [constructor..|].
  destruct (foldl (fun st line => scanLine line st) ([], []) lines) as [inc exc].
  simpl in *. split; [reflexivity|].
  split; apply returnedPrefix_map; assumption.
Qed.

End PerforceWildcards.
